(** * Residual-graph machinery of the network-flows repository

    A shallow embedding of [utils::GraphUtils] (GraphUtils.cpp) and of
    [algorithms::MinimumCostFlowAlgorithms::CycleCancelling]
    (MinimumCostFlowAlgorithms.cpp), over a model of the
    [data_structures::Graph] class whose interface is declared in Graph.h. *)

From stdpp Require Import base option list gmap fin_maps strings.
From Stdlib Require Import ZArith Lia Ascii.

Local Open Scope Z_scope.

(** ** Machine integers

    The C++ code computes with [int] (32 bits).  Values are kept in [Z];
    every arithmetic operation of the source is followed by the
    two's-complement wrap-around of the result. *)

Module Int.

Definition min_int : Z := - 2 ^ 31.
Definition max_int : Z := 2 ^ 31 - 1.

Definition in_range (z : Z) : Prop := min_int <= z <= max_int.

Definition wrap (z : Z) : Z := (z + 2 ^ 31) mod 2 ^ 32 - 2 ^ 31.

Definition add (a b : Z) : Z := wrap (a + b).
Definition sub (a b : Z) : Z := wrap (a - b).
Definition neg (a : Z) : Z := wrap (- a).
Definition mul (a b : Z) : Z := wrap (a * b).

(** [unsigned] is 32 bits wide. *)
Definition uwrap (z : Z) : Z := z mod 2 ^ 32.

(** [std::size_t] is 64 bits wide; [size() - 1] is computed modulo 2^64. *)
Definition size_sub1 (n : nat) : Z := (Z.of_nat n - 1) mod 2 ^ 64.

End Int.

(** ** Errors

    The two exception classes the code raises: [std::invalid_argument]
    (thrown by [Graph] and by [SendFlowInPath]) and [std::out_of_range]
    (thrown by [std::vector::at]). *)

Inductive error : Type :=
| InvalidArgument
| OutOfRange.

Inductive result (A : Type) : Type :=
| Ok (a : A)
| Err (e : error).
Arguments Ok {A} a.
Arguments Err {A} e.

Definition rbind {A B : Type} (m : result A) (k : A → result B) : result B :=
  match m with
  | Ok a => k a
  | Err e => Err e
  end.

#[global] Instance result_ret : MRet result := @Ok.
#[global] Instance result_bind : MBind result := fun A B k m => rbind m k.

(** ** Edges and graphs *)

(** Modelled from the spec: the class [Edge] (Edge.h is not among the
    sources), "Edge: (source, sink, capacity, cost), all integers", with
    the getters that GraphUtils.cpp calls. *)
Record Edge : Type := mkEdge {
  getSource : Z;
  getSink : Z;
  getCapacity : Z;
  getWeight : Z
}.

(** The three private members of [Graph] (Graph.h): the starting number
    of nodes, the adjacency lists [std::map<int, vector<Edge>>] and the
    map of artificial nodes [std::map<int, Edge>]. *)
Record Graph : Type := mkGraph {
  num_nodes : Z;
  g : gmap Z (list Edge);
  artificial_nodes : gmap Z Edge
}.

Module Graph.

(** Modelled from the spec: the constructor [Graph(int num_nodes)], whose
    body is in Graph.cpp; "Node: identified by a dense integer id in
    [0, num_nodes) at construction", with empty adjacency lists and an
    empty artificial-node map. *)
Definition new (n : Z) : Graph :=
  mkGraph n (list_to_map ((λ i, (i, @nil Edge)) <$> seqZ 0 n)) ∅.

(** Modelled from the spec: [getStartingNumNodes], "the number of nodes
    that the graph has when it is created" (Graph.h). *)
Definition getStartingNumNodes (gr : Graph) : Z := num_nodes gr.

(** Modelled from the spec: [getNumNodes], "the current number of nodes of
    the graph", the number of keys of the adjacency map. *)
Definition getNumNodes (gr : Graph) : Z := Z.of_nat (size (g gr)).

(** Modelled from the spec: [getNodeAdjList] ("@throws invalid_argument
    if the node does not exist", Graph.h). *)
Definition getNodeAdjList (gr : Graph) (node : Z) : result (list Edge) :=
  match g gr !! node with
  | Some l => Ok l
  | None => Err InvalidArgument
  end.

(** Modelled from the spec: [checkNodeExistence] ("@throws
    invalid_argument if the node does not exist", Graph.h). *)
Definition checkNodeExistence (gr : Graph) (node : Z) : result unit :=
  match g gr !! node with
  | Some _ => Ok tt
  | None => Err InvalidArgument
  end.

(** Modelled from the spec: the search of an adjacency list for the edge
    to [sink], which [getEdge], [hasEdge], [setEdgeCapacity],
    [setEdgeCost] and [removeEdge] share; the first match counts. *)
Definition to_sink (sink : Z) (e : Edge) : bool := getSink e =? sink.

Definition find_edge (sink : Z) (l : list Edge) : option Edge :=
  List.find (to_sink sink) l.
Arguments find_edge : simpl never.

(** Modelled from the spec: [getEdge] "fails with InvalidArgument if an
    endpoint does not exist or the edge does not exist". *)
Definition getEdge (gr : Graph) (source sink : Z) : result Edge :=
  _ ← checkNodeExistence gr source;
  _ ← checkNodeExistence gr sink;
  l ← getNodeAdjList gr source;
  match find_edge sink l with
  | Some e => Ok e
  | None => Err InvalidArgument
  end.

(** Modelled from the spec: [hasEdge] ("@throws invalid_argument if the
    node does not exist", Graph.h). *)
Definition hasEdge (gr : Graph) (source sink : Z) : result bool :=
  _ ← checkNodeExistence gr source;
  _ ← checkNodeExistence gr sink;
  l ← getNodeAdjList gr source;
  Ok (bool_decide (is_Some (find_edge sink l))).

(** Modelled from the spec: the adjacency list after [setEdgeCapacity],
    after [setEdgeCost] and after [removeEdge]. *)
Fixpoint set_capacity (sink capacity : Z) (l : list Edge) : list Edge :=
  match l with
  | [] => []
  | e :: l' =>
      if to_sink sink e
      then mkEdge (getSource e) (getSink e) capacity (getWeight e) :: l'
      else e :: set_capacity sink capacity l'
  end.

Fixpoint set_cost (sink cost : Z) (l : list Edge) : list Edge :=
  match l with
  | [] => []
  | e :: l' =>
      if to_sink sink e
      then mkEdge (getSource e) (getSink e) (getCapacity e) cost :: l'
      else e :: set_cost sink cost l'
  end.

Fixpoint erase (sink : Z) (l : list Edge) : list Edge :=
  match l with
  | [] => []
  | e :: l' => if to_sink sink e then l' else e :: erase sink l'
  end.

(** The graph with the adjacency list of [node] replaced. *)
Definition with_adj (gr : Graph) (node : Z) (l : list Edge) : Graph :=
  mkGraph (num_nodes gr) (<[node := l]> (g gr)) (artificial_nodes gr).

(** Modelled from the spec: [setEdgeCapacity] fails "if an endpoint does
    not exist or the edge does not exist" and "additionally fails on
    negative capacity"; otherwise the capacity of the edge is replaced. *)
Definition setEdgeCapacity (gr : Graph) (source sink capacity : Z) : result Graph :=
  _ ← getEdge gr source sink;
  if capacity <? 0 then Err InvalidArgument
  else
    l ← getNodeAdjList gr source;
    Ok (with_adj gr source (set_capacity sink capacity l)).

(** Modelled from the spec: [setEdgeCost], same failures as [getEdge]. *)
Definition setEdgeCost (gr : Graph) (source sink cost : Z) : result Graph :=
  _ ← getEdge gr source sink;
  l ← getNodeAdjList gr source;
  Ok (with_adj gr source (set_cost sink cost l)).

(** Modelled from the spec: [removeEdge] fails "if an endpoint does not
    exist or the edge does not exist"; otherwise the edge is erased from
    the adjacency list of its source. *)
Definition removeEdge (gr : Graph) (source sink : Z) : result Graph :=
  _ ← getEdge gr source sink;
  l ← getNodeAdjList gr source;
  Ok (with_adj gr source (erase sink l)).

(** Modelled from the spec: an endpoint of a new edge that is not yet a
    node becomes one ("additional ids >= starting_num_nodes may be
    allocated later"). *)
Definition ensure_node (node : Z) (m : gmap Z (list Edge)) : gmap Z (list Edge) :=
  match m !! node with
  | Some _ => m
  | None => <[node := []]> m
  end.

(** Modelled from the spec: the test "the edge already exists" of
    [addEdge], which must not throw on an endpoint that is not yet a
    node. *)
Definition edge_exists (gr : Graph) (source sink : Z) : bool :=
  match g gr !! source with
  | Some l => bool_decide (is_Some (find_edge sink l))
  | None => false
  end.

(** Modelled from the spec: [addEdge] "fails with InvalidArgument if
    either endpoint is negative, either endpoint exceeds the current node
    count plus one (i.e., only contiguous growth is allowed for new
    nodes), the edge already exists, or capacity is negative"; otherwise
    missing endpoints become nodes and the edge is appended to the
    adjacency list of its source (insertion order is significant). *)
Definition addEdge (gr : Graph) (source sink capacity cost : Z) : result Graph :=
  if (source <? 0) || (sink <? 0) then Err InvalidArgument
  else if (getNumNodes gr + 1 <? source) || (getNumNodes gr + 1 <? sink)
  then Err InvalidArgument
  else if edge_exists gr source sink then Err InvalidArgument
  else if capacity <? 0 then Err InvalidArgument
  else
    let m := ensure_node sink (ensure_node source (g gr)) in
    let l := default [] (m !! source) in
    Ok (mkGraph (num_nodes gr)
          (<[source := l ++ [mkEdge source sink capacity cost]]> m)
          (artificial_nodes gr)).

(** Modelled from the spec: [addArtificialNodes] records the edge an
    artificial node stands for; [getArtificialNodesMap] reads the map. *)
Definition addArtificialNodes (gr : Graph) (node : Z) (e : Edge) : Graph :=
  mkGraph (num_nodes gr) (g gr) (<[node := e]> (artificial_nodes gr)).

Definition getArtificialNodesMap (gr : Graph) : gmap Z Edge := artificial_nodes gr.

End Graph.

(** ** Loops and vectors *)

(** A [for] loop over a container whose body may throw. *)
Fixpoint foldM {A S : Type} (f : S → A → result S) (s : S) (l : list A) : result S :=
  match l with
  | [] => Ok s
  | a :: l' => s' ← f s a; foldM f s' l'
  end.

(** [std::vector::at]: bounds-checked access.  An [int] index is converted
    to [size_t], so a negative index is out of range as well. *)
Definition at_ {A : Type} (v : list A) (i : Z) : result A :=
  if i <? 0 then Err OutOfRange
  else match v !! Z.to_nat i with
       | Some x => Ok x
       | None => Err OutOfRange
       end.

(** ** In-place mutation of a shared graph

    [SendFlowInPath] mutates the residual graph it is handed; when one of
    its calls throws, the mutations done so far stay.  A computation is a
    function from the graph before to the graph after and an outcome. *)

Definition M (A : Type) : Type := Graph → Graph * result A.

Definition M_ret {A : Type} (a : A) : M A := λ s, (s, Ok a).

Definition M_bind {A B : Type} (m : M A) (k : A → M B) : M B :=
  λ s, match m s with
       | (s', Ok a) => k a s'
       | (s', Err e) => (s', Err e)
       end.

Definition throw {A : Type} (e : error) : M A := λ s, (s, Err e).

(** A [const] member function: the graph is read, not changed. *)
Definition read {A : Type} (f : Graph → result A) : M A := λ s, (s, f s).

(** A mutating member function: it either throws before changing the
    graph or changes it. *)
Definition update (f : Graph → result Graph) : M unit :=
  λ s, match f s with
       | Ok s' => (s', Ok tt)
       | Err e => (s, Err e)
       end.

#[global] Instance M_mret : MRet M := @M_ret.
#[global] Instance M_mbind : MBind M := λ A B k m, M_bind m k.

(** ** Strings *)

(** [std::string::npos], the largest [size_t]. *)
Definition npos : Z := 2 ^ 64 - 1.

Fixpoint last_index (c : ascii) (s : string) : option nat :=
  match s with
  | EmptyString => None
  | String x s' =>
      match last_index c s' with
      | Some i => Some (S i)
      | None => if Ascii.eqb x c then Some 0%nat else None
      end
  end.

(** [std::string::find_last_of(char)]: the position of the last
    occurrence of the character, [npos] when there is none. *)
Definition find_last_of (s : string) (c : ascii) : Z :=
  match last_index c s with
  | Some i => Z.of_nat i
  | None => npos
  end.

Fixpoint drop_chars (n : nat) (s : string) : string :=
  match n, s with
  | O, _ => s
  | S n', String _ s' => drop_chars n' s'
  | S _, EmptyString => EmptyString
  end.

(** [std::string::substr(pos)]: the characters from position [pos] on;
    out_of_range when [pos] is beyond the size. *)
Definition substr (s : string) (pos : Z) : result string :=
  if Z.of_nat (String.length s) <? pos then Err OutOfRange
  else Ok (drop_chars (Z.to_nat pos) s).

(** ** GraphUtils *)

Module GraphUtils.

Import Graph.

(** One element of the array "Edges" of the JSON file, as lines 35-38 of
    GraphUtils.cpp read it. *)
Record JsonEdge : Type := mkJsonEdge {
  Source : Z;
  Sink : Z;
  Capacity : Z;
  Weight : Z
}.

Section CreateGraphFromJSON.

(** The file system and the JSON library are not part of the sources.
    [opens filename] tells whether the stream on the file is good (line 17);
    [read_json filename] is what [json::parse] and the reads of
    "Num_nodes", "Edges", "Source", "Sink", "Capacity" and "Weight" yield
    on its contents: the number of nodes and the edges, or an exception.
    Whatever is thrown inside the [try] block is rethrown as
    invalid_argument and the graph under construction is dropped, so it
    does not matter at which point of the block a read fails. *)
Variable opens : string → bool.
Variable read_json : string → result (Z * list JsonEdge).

(** Lines 32-42: the graph and the loop over the edges. *)
Definition add_edges (num_nodes : Z) (edges : list JsonEdge) : result Graph :=
  foldM (λ graph e, addEdge graph (Source e) (Sink e) (Capacity e) (Weight e))
    (Graph.new num_nodes) edges.

Definition CreateGraphFromJSON (filename : string) : result Graph :=
  if opens filename then
    extension ← substr filename ((find_last_of filename "."%char + 1) mod 2 ^ 64);
    if bool_decide (extension ≠ "json") then Err InvalidArgument
    else
      match (data ← read_json filename; add_edges data.1 data.2) with
      | Ok graph => Ok graph
      | Err _ => Err InvalidArgument
      end
  else Err InvalidArgument.

End CreateGraphFromJSON.

(** Body of the inner loop of [GetResidualGraph] (GraphUtils.cpp, lines
    58-82), for one edge [e] of the adjacency list of [source]. *)
Definition residual_edge (graph : Graph) (source : Z) (residual_graph : Graph)
    (e : Edge) : result Graph :=
  let sink := getSink e in
  let capacity := getCapacity e in
  let weight := getWeight e in
  if capacity <=? 0 then Ok residual_graph
  else
    anti ← (if source <? sink then hasEdge graph sink source else Ok false);
    if (anti : bool) then
      let artificial_node := getNumNodes residual_graph in
      rg1 ← addEdge residual_graph source artificial_node capacity weight;
      addEdge rg1 artificial_node sink capacity weight
    else
      addEdge residual_graph source sink capacity weight.

Definition residual_node (graph : Graph) (residual_graph : Graph) (source : Z)
    : result Graph :=
  adj ← getNodeAdjList graph source;
  foldM (residual_edge graph source) residual_graph adj.

Definition GetResidualGraph (graph : Graph) : result Graph :=
  foldM (residual_node graph) (Graph.new (getNumNodes graph))
    (seqZ 0 (getNumNodes graph)).

(** Body of the first inner loop of [GetOptimalGraph] (lines 93-113). *)
Definition optimal_edge (residual_graph : Graph) (source : Z)
    (optimal_graph : Graph) (e : Edge) : result Graph :=
  if 0 <=? getWeight e then Ok optimal_graph
  else
    let sink := getSink e in
    let capacity := getCapacity e in
    let weight := getWeight e in
    if getStartingNumNodes residual_graph <=? sink then
      adj ← getNodeAdjList residual_graph sink;
      first ← at_ adj 0;
      let start_source := getSink first in
      addEdge optimal_graph start_source source capacity (Int.neg weight)
    else
      addEdge optimal_graph sink source capacity (Int.neg weight).

Definition optimal_node (residual_graph : Graph) (optimal_graph : Graph)
    (source : Z) : result Graph :=
  adj ← getNodeAdjList residual_graph source;
  foldM (optimal_edge residual_graph source) optimal_graph adj.

(** Body of the second inner loop of [GetOptimalGraph] (lines 118-123). *)
Definition zero_flow_edge (source : Z) (optimal_graph : Graph) (e : Edge)
    : result Graph :=
  present ← hasEdge optimal_graph source (getSink e);
  if (present : bool) then Ok optimal_graph
  else addEdge optimal_graph source (getSink e) 0 (getWeight e).

Definition zero_flow_node (graph : Graph) (optimal_graph : Graph) (source : Z)
    : result Graph :=
  adj ← getNodeAdjList graph source;
  foldM (zero_flow_edge source) optimal_graph adj.

Definition GetOptimalGraph (residual_graph graph : Graph) : result Graph :=
  og ← foldM (optimal_node residual_graph)
         (Graph.new (getStartingNumNodes residual_graph))
         (seqZ 0 (getStartingNumNodes residual_graph));
  foldM (zero_flow_node graph) og (seqZ 0 (getNumNodes graph)).

(** The [while] loop of [RetrievePath] (lines 136-139).  [None] stands
    for an exhausted iteration budget. *)
Fixpoint retrieve_loop (fuel : nat) (parent : list Z) (path : list Z) (tmp : Z)
    : option (result (list Z)) :=
  if negb (tmp =? -1) && negb (bool_decide (tmp ∈ path)) then
    match fuel with
    | O => None
    | S fuel' =>
        match at_ parent tmp with
        | Ok tmp' => retrieve_loop fuel' parent (path ++ [tmp]) tmp'
        | Err e => Some (Err e)
        end
    end
  else Some (Ok path).

Definition RetrievePath_fuel (fuel : nat) (parent : list Z) (start_node : Z)
    : option (result (list Z)) :=
  match at_ parent start_node with
  | Err e => Some (Err e)
  | Ok tmp =>
      match retrieve_loop fuel parent [start_node] tmp with
      | Some (Ok path) => Some (Ok (reverse path))
      | Some (Err e) => Some (Err e)
      | None => None
      end
  end.

(** The loop pushes pairwise distinct indices of [parent], so it runs at
    most [length parent] times. *)
Definition RetrievePath (parent : list Z) (start_node : Z) : option (result (list Z)) :=
  RetrievePath_fuel (length parent) parent start_node.

(** The [for] loop of [GetResidualCapacity] (lines 153-158), from index
    [u] up to [bound = path->size() - 1]; [u] is an [unsigned] and [v] is
    [u + 1] converted to [int]. *)
Fixpoint capacity_loop (fuel : nat) (residual_graph : Graph) (path : list Z)
    (bound u : Z) (path_flow : Z) : option (result Z) :=
  if u <? bound then
    match fuel with
    | O => None
    | S fuel' =>
        let v := Int.wrap (u + 1) in
        match
          (source ← at_ path u;
           sink ← at_ path v;
           e ← getEdge residual_graph source sink;
           Ok (Z.min path_flow (getCapacity e)))
        with
        | Ok path_flow' =>
            capacity_loop fuel' residual_graph path bound (Int.uwrap (u + 1)) path_flow'
        | Err e => Some (Err e)
        end
    end
  else Some (Ok path_flow).

Definition GetResidualCapacity (residual_graph : Graph) (path : list Z)
    : option (result Z) :=
  let path_flow := Int.max_int in
  if (length path <=? 1)%nat then Some (Ok 0)
  else capacity_loop (S (length path)) residual_graph path
         (Int.size_sub1 (length path)) 0 path_flow.

(** Body of the loop of [SendFlowInPath] (lines 165-198) for the pair
    [(source, sink) = (path[u], path[u+1])]. *)
Definition send_edge (source sink flow : Z) : M unit :=
  edge ← read (λ rg, getEdge rg source sink);
  let weight := getWeight edge in
  capacity ←
    (if weight <? 0 then
       e1 ← read (λ rg, getEdge rg source sink);
       mret (Int.add (getCapacity e1) flow)
     else
       e1 ← read (λ rg, getEdge rg source sink);
       if getCapacity e1 <? flow then throw InvalidArgument
       else
         e2 ← read (λ rg, getEdge rg source sink);
         mret (Int.sub (getCapacity e2) flow));
  _ ← update (λ rg, setEdgeCapacity rg source sink capacity);
  e3 ← read (λ rg, getEdge rg source sink);
  _ ← (if getCapacity e3 =? 0
       then update (λ rg, removeEdge rg source sink)
       else mret tt);
  present ← read (λ rg, hasEdge rg sink source);
  if negb present then
    update (λ rg, addEdge rg sink source flow (Int.neg weight))
  else
    e4 ← read (λ rg, getEdge rg sink source);
    update (λ rg, setEdgeCapacity rg sink source (Int.add (getCapacity e4) flow)).

Definition send_at (path : list Z) (flow : Z) (u : Z) : M unit :=
  let v := Int.wrap (u + 1) in
  source ← read (λ _, at_ path u);
  sink ← read (λ _, at_ path v);
  send_edge source sink flow.

(** The [for] loop of [SendFlowInPath], from index [u] up to
    [bound = path->size() - 1], the subtraction being unsigned. *)
Fixpoint send_loop (fuel : nat) (path : list Z) (flow : Z) (bound u : Z)
    (rg : Graph) : option (Graph * result unit) :=
  if u <? bound then
    match fuel with
    | O => None
    | S fuel' =>
        match send_at path flow u rg with
        | (rg', Ok _) => send_loop fuel' path flow bound (Int.uwrap (u + 1)) rg'
        | (rg', Err e) => Some (rg', Err e)
        end
    end
  else Some (rg, Ok tt).

Definition SendFlowInPath (residual_graph : Graph) (path : list Z) (flow : Z)
    : option (Graph * result unit) :=
  send_loop (S (length path)) path flow (Int.size_sub1 (length path)) 0
    residual_graph.

End GraphUtils.

(** ** Results handed between the algorithms *)

(** Modelled from the spec: [dto::FlowResult] (not among the sources),
    built by [CycleCancelling] from a residual graph and an integer and
    read through [getGraph]. *)
Record FlowResult : Type := mkFlowResult {
  getGraph : Graph;
  getValue : Z
}.

(** Modelled from the spec: the result of [BellmanFord] (not among the
    sources), read by [CycleCancelling] through [hasNegativeCycle] and
    [getNegativeCycle]: "distances, hasNegativeCycle, cycle?". *)
Record BellmanFordResult : Type := mkBellmanFordResult {
  hasNegativeCycle : bool;
  getNegativeCycle : list Z
}.

(** A call that may not return ([None]), may throw or may return. *)
Definition call_bind {A B : Type} (m : option (result A))
    (k : A → option (result B)) : option (result B) :=
  match m with
  | None => None
  | Some (Err e) => Some (Err e)
  | Some (Ok a) => k a
  end.

(** An exception leaving [SendFlowInPath] ends the caller as well; the
    graph is then out of reach. *)
Definition commit (m : option (Graph * result unit)) : option (result Graph) :=
  match m with
  | None => None
  | Some (_, Err e) => Some (Err e)
  | Some (rg, Ok _) => Some (Ok rg)
  end.

(** ** MinimumCostFlowAlgorithms *)

Module MinimumCostFlowAlgorithms.

Import Graph GraphUtils.

(** Lines 36-42 of MinimumCostFlowAlgorithms.cpp. *)
Definition cost_edge (minimum_cost : Z) (edge : Edge) : Z :=
  if getWeight edge <? 0
  then Int.add minimum_cost (Int.mul (Int.neg (getWeight edge)) (getCapacity edge))
  else minimum_cost.

Definition cost_node (residual_graph : Graph) (minimum_cost : Z) (u : Z) : result Z :=
  adj ← getNodeAdjList residual_graph u;
  Ok (fold_left cost_edge adj minimum_cost).

Definition minimum_cost_of (residual_graph : Graph) : result Z :=
  foldM (cost_node residual_graph) 0 (seqZ 0 (getNumNodes residual_graph)).

Section CycleCancelling.

(** [MaximumFlowAlgorithms::EdmondsKarp] (declared in
    MaximumFlowAlgorithms.h) and [GraphBaseAlgorithms::BellmanFord] are
    called by [CycleCancelling]; what is proved about [CycleCancelling]
    holds whatever they compute. *)
Variable EdmondsKarp : Graph → Z → Z → option (result FlowResult).
Variable BellmanFord : Graph → Z → option (result BellmanFordResult).

(** The [while] loop of lines 22-30. *)
Fixpoint cancel_loop (fuel : nat) (source : Z) (residual_graph : Graph)
    (bellman_ford_result : BellmanFordResult) : option (result Graph) :=
  if hasNegativeCycle bellman_ford_result then
    match fuel with
    | O => None
    | S fuel' =>
        let negative_cycle := getNegativeCycle bellman_ford_result in
        call_bind (GetResidualCapacity residual_graph negative_cycle)
          (λ residual_capacity,
        call_bind (commit (SendFlowInPath residual_graph negative_cycle residual_capacity))
          (λ residual_graph',
        call_bind (BellmanFord residual_graph' source)
          (λ bellman_ford_result',
        cancel_loop fuel' source residual_graph' bellman_ford_result')))
    end
  else Some (Ok residual_graph).

Definition CycleCancelling (fuel : nat) (graph : Graph) : option (result FlowResult) :=
  let source := 0 in
  let sink := getNumNodes graph - 1 in
  call_bind (EdmondsKarp graph source sink) (λ edmonds_karps_result,
  let residual_graph := getGraph edmonds_karps_result in
  call_bind (BellmanFord residual_graph source) (λ bellman_ford_result,
  call_bind (cancel_loop fuel source residual_graph bellman_ford_result)
    (λ residual_graph',
  call_bind (Some (minimum_cost_of residual_graph')) (λ minimum_cost,
  Some (Ok (mkFlowResult residual_graph' minimum_cost)))))).

End CycleCancelling.

End MinimumCostFlowAlgorithms.

(** ** The two collaborators, from their description *)

Module Collaborators.

Import Graph GraphUtils.

(** Modelled from the spec: [vector[i] = x], for the parent and distance
    vectors of the two searches. *)
Definition store {A : Type} (v : list A) (i : Z) (x : A) : list A :=
  if i <? 0 then v else <[Z.to_nat i := x]> v.

(** Modelled from the spec: the search of [EdmondsKarp] at one edge of the
    node [u] taken from the queue: a sink not seen yet, over an edge of
    positive capacity, is queued with [u] as its parent. *)
Definition visit_edge (u : Z) (st : list Z * list bool * list Z) (e : Edge)
    : list Z * list bool * list Z :=
  let '(queue, visited, parent) := st in
  let v := getSink e in
  if (0 <? getCapacity e) && negb (default true (visited !! Z.to_nat v)) && (0 <=? v)
  then (queue ++ [v], store visited v true, store parent v u)
  else st.

(** Modelled from the spec: the search of [EdmondsKarp], whose body is not
    in the sources at hand: "breadth-first search from source over edges
    with positive capacity, recording a parent pointer per discovered
    node". *)
Fixpoint bfs (fuel : nat) (rg : Graph) (queue : list Z) (visited : list bool)
    (parent : list Z) : option (result (list bool * list Z)) :=
  match queue with
  | [] => Some (Ok (visited, parent))
  | u :: queue' =>
      match fuel with
      | O => None
      | S fuel' =>
          match getNodeAdjList rg u with
          | Err e => Some (Err e)
          | Ok adj =>
              let '(queue'', visited', parent') :=
                fold_left (visit_edge u) adj (queue', visited, parent) in
              bfs fuel' rg queue'' visited' parent'
          end
      end
  end.

(** Modelled from the spec: the loop of [EdmondsKarp]: "if sink is
    unreached, stop.  Otherwise reconstruct the path via retrievePath,
    compute its bottleneck via bottleneckCapacity, augment via augment,
    add the bottleneck to the running total flow, and repeat". *)
Fixpoint augment_loop (fuel : nat) (rg : Graph) (source sink : Z) (max_flow : Z)
    : option (result FlowResult) :=
  match fuel with
  | O => None
  | S fuel' =>
      let n := Z.to_nat (getNumNodes rg) in
      call_bind (bfs (S n) rg [source]
                   (store (replicate n false) source true) (replicate n (-1)))
        (λ '(visited, parent),
      if negb (default false (visited !! Z.to_nat sink)) || (sink <? 0)
      then Some (Ok (mkFlowResult rg max_flow))
      else
        call_bind (RetrievePath parent sink) (λ path,
        call_bind (GetResidualCapacity rg path) (λ path_flow,
        call_bind (commit (SendFlowInPath rg path path_flow)) (λ rg',
        augment_loop fuel' rg' source sink (Int.add max_flow path_flow)))))
  end.

(** Modelled from the spec: [EdmondsKarp], "Build the residual graph via
    4.2", then the loop above. *)
Definition EdmondsKarp (fuel : nat) (graph : Graph) (source sink : Z)
    : option (result FlowResult) :=
  call_bind (Some (GetResidualGraph graph)) (λ rg,
  augment_loop fuel rg source sink 0).

(** Modelled from the spec: the relaxation of one edge by [BellmanFord];
    the distance [None] is the infinite one ("nodes unreachable from
    source keep infinite distance and never relax"); the last component is
    a node whose distance has improved in the round. *)
Definition relax_edge (u : Z) (st : list (option Z) * list Z * option Z) (e : Edge)
    : list (option Z) * list Z * option Z :=
  let '(dist, parent, improved) := st in
  let v := getSink e in
  match default None (dist !! Z.to_nat u) with
  | None => st
  | Some du =>
      let d := Int.add du (getWeight e) in
      match default None (dist !! Z.to_nat v) with
      | Some dv =>
          if d <? dv then (store dist v (Some d), store parent v u, Some v) else st
      | None => (store dist v (Some d), store parent v u, Some v)
      end
  end.

(** Modelled from the spec: one round of relaxation "over all edges", and
    the rounds one after the other. *)
Definition relax_node (rg : Graph) (st : list (option Z) * list Z * option Z) (u : Z)
    : result (list (option Z) * list Z * option Z) :=
  adj ← getNodeAdjList rg u;
  Ok (fold_left (relax_edge u) adj st).

Definition relax_round (rg : Graph) (dist : list (option Z)) (parent : list Z)
    : result (list (option Z) * list Z * option Z) :=
  foldM (relax_node rg) (dist, parent, None) (seqZ 0 (getNumNodes rg)).

Fixpoint relax_rounds (rounds : nat) (rg : Graph) (dist : list (option Z))
    (parent : list Z) : result (list (option Z) * list Z) :=
  match rounds with
  | O => Ok (dist, parent)
  | S rounds' =>
      '(dist', parent', _) ← relax_round rg dist parent;
      relax_rounds rounds' rg dist' parent'
  end.

(** Modelled from the spec: [BellmanFord], whose body is not in the
    sources at hand: "Standard relaxation over all edges for |V|-1 rounds
    from source ...  A further relaxation round that still improves some
    distance indicates a negative cycle; ... walk its parent chain via
    retrievePath until a repeated node closes the cycle". *)
Definition BellmanFord (rg : Graph) (source : Z) : option (result BellmanFordResult) :=
  let n := Z.to_nat (getNumNodes rg) in
  call_bind (Some (relax_rounds (n - 1) rg
                     (store (replicate n None) source (Some 0)) (replicate n (-1))))
    (λ '(dist, parent),
  call_bind (Some (relax_round rg dist parent)) (λ '(_, parent', improved),
  match improved with
  | None => Some (Ok (mkBellmanFordResult false []))
  | Some v =>
      call_bind (RetrievePath parent' v) (λ cycle,
      Some (Ok (mkBellmanFordResult true cycle)))
  end)).

(** [CycleCancelling] with these two collaborators. *)
Definition CycleCancelling (fuel : nat) (graph : Graph) : option (result FlowResult) :=
  MinimumCostFlowAlgorithms.CycleCancelling (EdmondsKarp fuel) BellmanFord fuel graph.

End Collaborators.

(** * Vocabulary of the properties *)

Section Vocabulary.

Import Graph GraphUtils.

Definition with_capacity (c : Z) (e : Edge) : Edge :=
  mkEdge (getSource e) (getSink e) c (getWeight e).

(** The graph as seen through [getEdge]: the edge stored for an ordered
    pair, and the nodes. *)
Definition is_node (gr : Graph) (n : Z) : Prop := is_Some (g gr !! n).

Definition edge_at (gr : Graph) (s t : Z) : option Edge :=
  g gr !! s ≫= find_edge t.

Definition capacity_of_view (o : option Edge) : Z := from_option getCapacity 0 o.

(** The capacity of the pair [(s, t)]; 0 when there is no edge. *)
Definition capacity_of (gr : Graph) (s t : Z) : Z :=
  capacity_of_view (edge_at gr s t).

Definition adj_of (gr : Graph) (x : Z) : list Edge := default [] (g gr !! x).

(** Every stored edge satisfies [P]. *)
Definition all_edges (P : Edge → Prop) (gr : Graph) : Prop :=
  ∀ s l e, g gr !! s = Some l → e ∈ l → P e.

(** "At most one edge per ordered pair (source, sink)". *)
Definition unique_edges (gr : Graph) : Prop :=
  ∀ s l, g gr !! s = Some l → NoDup (getSink <$> l).

(** The capacity [SendFlowInPath] computes for the traversed edge. *)
Definition forward_capacity (e : Edge) (flow : Z) : Z :=
  if getWeight e <? 0 then Int.add (getCapacity e) flow
  else Int.sub (getCapacity e) flow.

(** Lines 193-198: the update of the edge [b -> a]. *)
Definition reverse_edge (b a flow cost : Z) (rg : Graph) : Graph * result unit :=
  match edge_at rg b a with
  | None => update (λ rg, addEdge rg b a flow cost) rg
  | Some e4 => update (λ rg, setEdgeCapacity rg b a (Int.add (getCapacity e4) flow)) rg
  end.

(** The ways one iteration of the loop can go. *)
Inductive send_edge_run (a b flow : Z) (rg : Graph) : Graph → result unit → Prop :=
| run_no_edge err :
    getEdge rg a b = Err err →
    send_edge_run a b flow rg rg (Err err)
| run_exceeds e :
    getEdge rg a b = Ok e → 0 <= getWeight e → getCapacity e < flow →
    send_edge_run a b flow rg rg (Err InvalidArgument)
| run_refused e :
    getEdge rg a b = Ok e → getWeight e < 0 ∨ flow <= getCapacity e →
    forward_capacity e flow < 0 →
    send_edge_run a b flow rg rg (Err InvalidArgument)
| run_reverse e rg1 rg2 rg' out :
    getEdge rg a b = Ok e → getWeight e < 0 ∨ flow <= getCapacity e →
    setEdgeCapacity rg a b (forward_capacity e flow) = Ok rg1 →
    (if forward_capacity e flow =? 0 then removeEdge rg1 a b = Ok rg2 else rg2 = rg1) →
    reverse_edge b a flow (Int.neg (getWeight e)) rg2 = (rg', out) →
    send_edge_run a b flow rg rg' out.

(** The two halves of an iteration: the traversed edge, then the edge in
    the other direction. *)
Definition forward_view (a b c : Z) (e : Edge) (rg : Graph) (x y : Z) : option Edge :=
  if decide (x = a ∧ y = b)
  then (if c =? 0 then None else Some (with_capacity c e))
  else edge_at rg x y.

Definition reversed (b a flow cost : Z) (old : option Edge) : Edge :=
  match old with
  | None => mkEdge b a flow cost
  | Some r => with_capacity (Int.add (getCapacity r) flow) r
  end.

(** Capacities that [SendFlowInPath] stores did not wrap around. *)
Definition int_capacity (e : Edge) : Prop := 0 <= getCapacity e <= Int.max_int.

(** The consecutive pairs of a node sequence. *)
Fixpoint pairs (path : list Z) : list (Z * Z) :=
  match path with
  | [] => []
  | a :: tl => match tl with
               | [] => []
               | b :: _ => (a, b) :: pairs tl
               end
  end.

(** The iterations of [SendFlowInPath] one after the other, stopping at
    the first exception. *)
Fixpoint send_pairs (ps : list (Z * Z)) (flow : Z) (rg : Graph) : Graph * result unit :=
  match ps with
  | [] => (rg, Ok tt)
  | (a, b) :: ps' =>
      match send_edge a b flow rg with
      | (rg', Ok _) => send_pairs ps' flow rg'
      | (rg', Err e) => (rg', Err e)
      end
  end.

Definition sum_list (l : list Z) : Z := foldr Z.add 0 l.

(** The node ids of a graph are dense: 0, ..., [getNumNodes] - 1. *)
Definition dense (gr : Graph) : Prop :=
  ∀ k, is_node gr k ↔ 0 <= k < getNumNodes gr.

(** The sink of every edge is a node of the graph. *)
Definition closed (gr : Graph) : Prop :=
  ∀ s l e, g gr !! s = Some l → e ∈ l → is_node gr (getSink e).

(** The edges of a graph in the order in which the nested loops of
    [GetResidualGraph] and of [CycleCancelling] meet them, each with the
    node whose adjacency list holds it. *)
Definition entries (gr : Graph) : list (Z * Edge) :=
  s ← seqZ 0 (getNumNodes gr); (λ e, (s, e)) <$> adj_of gr s.

Definition edges_of (gr : Graph) : list Edge := (entries gr).*2.

Definition residual_entry (graph rg : Graph) (p : Z * Edge) : result Graph :=
  residual_edge graph p.1 rg p.2.

(** The edge [e] of [source] is one [GetResidualGraph] splits: its sink
    has the larger id and the edge back exists in the input graph. *)
Definition is_split (graph : Graph) (p : Z * Edge) : Prop :=
  0 < getCapacity p.2 ∧ p.1 < getSink p.2 ∧ is_Some (edge_at graph (getSink p.2) p.1).

#[global] Instance is_split_dec graph p : Decision (is_split graph p).
Proof. unfold is_split. apply _. Defined.

(** What holds of the residual graph under construction once the edges
    [done] of the input graph have been treated; [n] is the number of
    nodes of the input graph. *)
Record residual_inv (graph rg : Graph) (done : list (Z * Edge)) : Prop := {
  inv_nodes : ∃ m, getNumNodes graph <= m ∧ ∀ k, is_node rg k ↔ 0 <= k < m;
  inv_count :
    getNumNodes rg = getNumNodes graph + Z.of_nat (length (filter (is_split graph) done));
  inv_ends : ∀ s t, is_Some (edge_at rg s t) → is_node rg t;
  inv_direct : ∀ s t e',
    s < getNumNodes graph → t < getNumNodes graph → edge_at rg s t = Some e' →
    ∃ e, (s, e) ∈ done ∧ getSink e = t ∧ 0 < getCapacity e ∧ ¬ is_split graph (s, e) ∧
         e' = mkEdge s t (getCapacity e) (getWeight e);
  inv_placed : ∀ s e, (s, e) ∈ done → 0 < getCapacity e →
    if decide (is_split graph (s, e))
    then ∃ w, getNumNodes graph <= w ∧
              edge_at rg s w = Some (mkEdge s w (getCapacity e) (getWeight e)) ∧
              edge_at rg w (getSink e) =
                Some (mkEdge w (getSink e) (getCapacity e) (getWeight e))
    else edge_at rg s (getSink e) =
           Some (mkEdge s (getSink e) (getCapacity e) (getWeight e));
  inv_bridge : ∀ s w t,
    getNumNodes graph <= w → is_Some (edge_at rg s w) → is_Some (edge_at rg w t) →
    ∃ e, (s, e) ∈ done ∧ getSink e = t ∧ is_split graph (s, e);
  inv_once : ∀ s t w w',
    getNumNodes graph <= w → getNumNodes graph <= w' →
    is_Some (edge_at rg s w) → is_Some (edge_at rg w t) →
    is_Some (edge_at rg s w') → is_Some (edge_at rg w' t) → w = w'
}.

(** The same graph with another artificial-node map. *)
Definition with_artificial_nodes (gr : Graph) (m : gmap Z Edge) : Graph :=
  mkGraph (num_nodes gr) (g gr) m.

(** The sum, over the negative-cost edges of a list, of (-cost) * capacity. *)
Definition negative_cost_total (l : list Edge) : Z :=
  sum_list ((λ e, (- getWeight e) * getCapacity e) <$> filter (λ e, getWeight e < 0) l).

(** The sum over the edges of [graph] of flow * cost, the flow of an edge
    being the capacity of that edge in [optimal_graph]. *)
Definition flow_cost (graph optimal_graph : Graph) : Z :=
  sum_list ((λ p, capacity_of optimal_graph p.1 (getSink p.2) * getWeight p.2)
           <$> entries graph).

(** The nodes [RetrievePath] has collected, in the order of the walk:
    pairwise distinct indices of [parent], each one followed by its
    parent. *)
Definition walk (parent : list Z) (w : list Z) : Prop :=
  NoDup w ∧
  (∀ x, x ∈ w → 0 <= x < Z.of_nat (length parent)) ∧
  (∀ i x y, w !! i = Some x → w !! S i = Some y → at_ parent x = Ok y).

(** The minimum [GetResidualCapacity] accumulates over the consecutive
    pairs, from the value [path_flow]. *)
Fixpoint min_capacity (ps : list (Z * Z)) (rg : Graph) (path_flow : Z) : result Z :=
  match ps with
  | [] => Ok path_flow
  | (a, b) :: ps' =>
      match getEdge rg a b with
      | Ok e => min_capacity ps' rg (Z.min path_flow (getCapacity e))
      | Err err => Err err
      end
  end.

(** A vector short enough for its indices to be [int]s, as the loops of
    [GetResidualCapacity] and [SendFlowInPath] take them to be. *)
Definition indexable {A : Type} (v : list A) : Prop := Z.of_nat (length v) <= Int.max_int.

(** The graph a call has produced, for the sample runs below. *)
Definition graph_of (r : result Graph) : Graph :=
  match r with
  | Ok gr => gr
  | Err _ => Graph.new 0
  end.

Definition graph_after (m : option (Graph * result unit)) : Graph :=
  match m with
  | Some (gr, _) => gr
  | None => Graph.new 0
  end.

#[global] Instance unique_edges_dec (gr : Graph) : Decision (unique_edges gr) :=
  map_Forall_dec (λ _ l, NoDup (getSink <$> l)) (g gr).

#[global] Instance int_capacity_dec (e : Edge) : Decision (int_capacity e).
Proof. unfold int_capacity. apply _. Defined.

(** Whether the loop of [SendFlowInPath] treats [a -> b] as a forward
    edge: the edge is there and its cost is not negative. *)
Definition is_forward (rg : Graph) (a b : Z) : bool :=
  match edge_at rg a b with
  | Some e => 0 <=? getWeight e
  | None => false
  end.

Definition forward_pairs (rg : Graph) (ps : list (Z * Z)) : list (Z * Z) :=
  List.filter (λ p, is_forward rg p.1 p.2) ps.

(** Capacity the forward edges of a path have lost, and capacity their
    reverse edges have gained, between the graph before and the graph
    after a call. *)
Definition capacity_removed (rg rg' : Graph) (ps : list (Z * Z)) : Z :=
  sum_list ((λ p, capacity_of rg p.1 p.2 - capacity_of rg' p.1 p.2) <$> forward_pairs rg ps).

Definition capacity_added (rg rg' : Graph) (ps : list (Z * Z)) : Z :=
  sum_list ((λ p, capacity_of rg' p.2 p.1 - capacity_of rg p.2 p.1) <$> forward_pairs rg ps).

(** No pair of nodes is traversed twice, in either direction, and no node
    is followed by itself: a simple path, or a simple cycle through at
    least three nodes. *)
Fixpoint edge_disjoint (ps : list (Z * Z)) : Prop :=
  match ps with
  | [] => True
  | p :: ps' =>
      (p.1 ≠ p.2) ∧ ((p.1, p.2) ∉ ps') ∧ ((p.2, p.1) ∉ ps') ∧ edge_disjoint ps'
  end.

#[global] Instance edge_disjoint_dec (ps : list (Z * Z)) : Decision (edge_disjoint ps).
Proof. induction ps as [| p ps IH]; cbn; apply _. Defined.

(** A capacity a residual edge may carry: positive, and an [int]. *)
Definition residual_capacity (e : Edge) : Prop := 0 < getCapacity e <= Int.max_int.

#[global] Instance residual_capacity_dec (e : Edge) : Decision (residual_capacity e).
Proof. unfold residual_capacity. apply _. Defined.

(** Sample graphs on which the statements are exercised. *)
Definition sample_two_way : Graph :=
  mkGraph 2 (list_to_map [(0, [mkEdge 0 1 5 1]); (1, [mkEdge 1 0 2 (-1)])]) ∅.

(** An edge and an edge back of a cost that is not the negated one. *)
Definition sample_costly_reverse : Graph :=
  mkGraph 2 (list_to_map [(0, [mkEdge 0 1 5 1]); (1, [mkEdge 1 0 2 7])]) ∅.

Definition sample_full_reverse : Graph :=
  mkGraph 2
    (list_to_map [(0, [mkEdge 0 1 1 1]); (1, [mkEdge 1 0 Int.max_int (-1)])]) ∅.

(** The network of the end-to-end example: 0->1 (2,1), 0->2 (1,2),
    1->3 (1,2), 2->3 (2,1). *)
Definition sample_network : Graph :=
  mkGraph 4
    (list_to_map
       [(0, [mkEdge 0 1 2 1; mkEdge 0 2 1 2]); (1, [mkEdge 1 3 1 2]);
        (2, [mkEdge 2 3 2 1]); (3, [])])
    ∅.

Definition sample_antiparallel : Graph :=
  mkGraph 3
    (list_to_map
       [(0, [mkEdge 0 1 1 1]); (1, [mkEdge 1 0 1 1; mkEdge 1 2 1 1]); (2, [])])
    ∅.

(** An anti-parallel pair whose edge from the lower id has no capacity. *)
Definition sample_zero_capacity : Graph :=
  mkGraph 2 (list_to_map [(0, [mkEdge 0 1 0 1]); (1, [mkEdge 1 0 1 1])]) ∅.

Definition sample_residual : Graph :=
  mkGraph 3
    (list_to_map
       [(0, [mkEdge 0 1 2 1]); (1, [mkEdge 1 2 3 1; mkEdge 1 0 1 (-1)]); (2, [])])
    ∅.

(** The residual graph of [sample_antiparallel], that graph after one
    unit of flow along 0,3,1,2, and the flows [GetOptimalGraph] reads off
    it. *)
Definition sample_antiparallel_residual : Graph :=
  Eval vm_compute in graph_of (GetResidualGraph sample_antiparallel).

Definition sample_antiparallel_final : Graph :=
  Eval vm_compute in
    graph_after (SendFlowInPath sample_antiparallel_residual [0; 3; 1; 2] 1).

Definition sample_antiparallel_optimal : Graph :=
  Eval vm_compute in
    graph_of (GetOptimalGraph
                (addArtificialNodes sample_antiparallel_final 3 (mkEdge 2 1 1 1))
                sample_antiparallel).

(** The same network with capacity 2 on 0 -> 1: after one unit of flow
    along 0,3,1,2 the artificial node 3 keeps its edge to 1. *)
Definition sample_unsaturated : Graph :=
  mkGraph 3
    (list_to_map
       [(0, [mkEdge 0 1 2 1]); (1, [mkEdge 1 0 1 1; mkEdge 1 2 1 1]); (2, [])])
    ∅.

Definition sample_unsaturated_final : Graph :=
  Eval vm_compute in
    graph_after (SendFlowInPath (graph_of (GetResidualGraph sample_unsaturated))
                   [0; 3; 1; 2] 1).

Definition sample_unsaturated_flows : Graph :=
  Eval vm_compute in
    graph_of (GetOptimalGraph sample_unsaturated_final sample_unsaturated).

Definition sample_antiparallel_flows : Graph :=
  Eval vm_compute in
    graph_of (GetOptimalGraph sample_antiparallel_final sample_antiparallel).

Definition flow_result_of (m : option (result FlowResult)) : FlowResult :=
  match m with
  | Some (Ok r) => r
  | _ => mkFlowResult (Graph.new 0) 0
  end.

(** What [CycleCancelling] returns on the two sample networks, with the
    collaborators as described. *)
Definition sample_network_result : FlowResult :=
  Eval vm_compute in flow_result_of (Collaborators.CycleCancelling 10 sample_network).

Definition sample_antiparallel_result : FlowResult :=
  Eval vm_compute in flow_result_of (Collaborators.CycleCancelling 10 sample_antiparallel).

(** A network on which the shortest augmenting path 0,1,2,4 is not the
    cheapest one: the maximum flow leaves the cycle 1,3,2 of negative cost
    in the residual graph; and what [CycleCancelling] returns on it. *)
Definition sample_detour : Graph :=
  mkGraph 5
    (list_to_map
       [(0, [mkEdge 0 1 2 1]); (1, [mkEdge 1 2 1 10; mkEdge 1 3 1 1]);
        (2, [mkEdge 2 4 1 1]); (3, [mkEdge 3 2 1 1]); (4, [])])
    ∅.

Definition sample_detour_result : FlowResult :=
  Eval vm_compute in flow_result_of (Collaborators.CycleCancelling 10 sample_detour).

(** Vocabulary of the further properties. *)
(** [rg'] has the nodes, the starting number of nodes and the
    artificial-node map of [rg]. *)
Definition same_nodes (rg rg' : Graph) : Prop :=
  (∀ x, is_node rg' x ↔ is_node rg x) ∧
  getStartingNumNodes rg' = getStartingNumNodes rg ∧
  getArtificialNodesMap rg' = getArtificialNodesMap rg.

(** [SendFlowInPath] can send [flow] over the pair (a, b): the edge is
    there, it can carry the flow if its cost is not negative, and no
    capacity leaves the range of [int]. *)
Definition sendable (rg : Graph) (flow a b : Z) : Prop :=
  ∃ e, getEdge rg a b = Ok e ∧
       (if getWeight e <? 0 then getCapacity e + flow <= Int.max_int
        else flow <= getCapacity e) ∧
       capacity_of rg b a + flow <= Int.max_int.

(** A positive capacity of at most half the largest [int]: the sum of two
    of them is an [int]. *)
Definition half_capacity (e : Edge) : Prop :=
  0 < getCapacity e ∧ 2 * getCapacity e <= Int.max_int.

#[global] Instance half_capacity_dec (e : Edge) : Decision (half_capacity e).
Proof. unfold half_capacity. apply _. Defined.

(** Every entry of [parent] is the sentinel -1 or an index of [parent]. *)
Definition valid_parents (parent : list Z) : Prop :=
  ∀ x, x ∈ parent → x = -1 ∨ 0 <= x < Z.of_nat (length parent).

(** The edge that [GetResidualGraph] adds for an edge [e] of the node [s]
    that it does not split: none when [e] has no capacity. *)
Definition positive_edge (s : Z) (e : Edge) : option Edge :=
  if 0 <? getCapacity e
  then Some (mkEdge s (getSink e) (getCapacity e) (getWeight e))
  else None.

(** No edge s -> t with s < t of the graph has an edge t -> s back. *)
Definition no_antiparallel (graph : Graph) : Prop :=
  Forall (λ p, p.1 < getSink p.2 → ¬ is_Some (edge_at graph (getSink p.2) p.1))
    (entries graph).

#[global] Instance no_antiparallel_dec (graph : Graph) : Decision (no_antiparallel graph).
Proof. unfold no_antiparallel. apply _. Defined.

(** A graph whose node ids are 0, 1 and 3. *)
Definition sample_gap : Graph :=
  mkGraph 2 (list_to_map [(0, [mkEdge 0 3 1 1]); (1, []); (3, [])]) ∅.

(** Every edge of [og] is an edge of [og']. *)
Definition grows (og og' : Graph) : Prop :=
  ∀ x y e, edge_at og x y = Some e → edge_at og' x y = Some e.

(** The edge that the second loop of [GetOptimalGraph] adds for the edge
    [e] of the node [s]: flow 0, the cost of [e]. *)
Definition zero_flow (s : Z) (e : Edge) : Edge := mkEdge s (getSink e) 0 (getWeight e).

(** Costs as the flow algorithms expect them. *)
Definition nonnegative_cost (e : Edge) : Prop := 0 <= getWeight e.

#[global] Instance nonnegative_cost_dec (e : Edge) : Decision (nonnegative_cost e).
Proof. unfold nonnegative_cost. apply _. Defined.

(** What holds of the graph of flows while the second loop of
    [GetOptimalGraph] runs on an empty graph of flows, once the edges
    [done] of the original graph have been treated. *)
Record zero_flow_inv (graph og : Graph) (done : list (Z * Edge)) : Prop := {
  zf_nodes : ∀ k, is_node og k ↔ 0 <= k < getNumNodes graph;
  zf_placed : ∀ s e, (s, e) ∈ done → edge_at og s (getSink e) = Some (zero_flow s e);
  zf_only : ∀ s t, is_Some (edge_at og s t) → ∃ e, (s, e) ∈ done ∧ getSink e = t
}.

(** A file name that passes the extension test. *)
Definition json_name (filename : string) : Prop :=
  filename = "json" ∨ ∃ stem, filename = stem +:+ ".json".

(** The pair of nodes of an entry of "Edges", and the edge it stands for. *)
Definition endpoints (e : JsonEdge) : Z * Z := (Source e, Sink e).

Definition edge_of (e : JsonEdge) : Edge := mkEdge (Source e) (Sink e) (Capacity e) (Weight e).

(** What holds of the graph under construction once the entries [done]
    of "Edges" have been added. *)
Record loaded (num_nodes : Z) (graph : Graph) (done : list JsonEdge) : Prop := {
  loaded_start : getStartingNumNodes graph = num_nodes;
  loaded_map : getArtificialNodesMap graph = ∅;
  loaded_unique : unique_edges graph;
  loaded_distinct : NoDup (endpoints <$> done);
  loaded_edges : ∀ e, e ∈ done →
    0 <= Capacity e ∧ edge_at graph (Source e) (Sink e) = Some (edge_of e);
  loaded_only : ∀ s t, is_Some (edge_at graph s t) → (s, t) ∈ endpoints <$> done
}.

(** A file system in which every file holds the sample network. *)
Definition sample_file (filename : string) : result (Z * list JsonEdge) :=
  Ok (4, [mkJsonEdge 0 1 2 1; mkJsonEdge 0 2 1 2; mkJsonEdge 1 3 1 2; mkJsonEdge 2 3 2 1]).

(** The edges that the first loop of [GetOptimalGraph] meets: those of
    the nodes below [n], in the order of the loops. *)
Definition entries_upto (n : Z) (gr : Graph) : list (Z * Edge) :=
  s ← seqZ 0 n; (λ e, (s, e)) <$> adj_of gr s.

(** The nodes 0, ..., n - 1 are nodes of the graph. *)
Definition has_nodes (n : Z) (gr : Graph) : Prop :=
  Forall (is_node gr) (seqZ 0 n).

#[global] Instance has_nodes_dec (n : Z) (gr : Graph) : Decision (has_nodes n gr).
Proof. unfold has_nodes, is_node. apply _. Defined.

(** Every negative-cost edge of an original node ends in an original
    node (not in an artificial one) and has a capacity that [addEdge]
    accepts. *)
Definition flows_inside (rg : Graph) : Prop :=
  Forall (λ p, getWeight p.2 < 0 →
               0 <= getSink p.2 < getStartingNumNodes rg ∧ 0 <= getCapacity p.2)
    (entries_upto (getStartingNumNodes rg) rg).

#[global] Instance flows_inside_dec (rg : Graph) : Decision (flows_inside rg).
Proof. unfold flows_inside. apply _. Defined.

(** The flow that the residual graph [rg] shows on the pair (a, b): the
    capacity of its negative-cost edge b -> a, if b is an original node
    and there is such an edge. *)
Definition flow_edge (rg : Graph) (a b : Z) : option Edge :=
  r ← edge_at rg b a;
  if decide (getWeight r < 0 ∧ 0 <= b < getStartingNumNodes rg)
  then Some (mkEdge a b (getCapacity r) (Int.neg (getWeight r)))
  else None.

(** The edge that [GetOptimalGraph] reports for the pair (a, b). *)
Definition reported (rg graph : Graph) (a b : Z) : option Edge :=
  match flow_edge rg a b with
  | Some f => Some f
  | None => zero_flow a <$> edge_at graph a b
  end.

(** What holds of the graph of flows in the first loop of
    [GetOptimalGraph], once the edges [done] of the residual graph have
    been treated. *)
Record flow_inv (rg og : Graph) (done : list (Z * Edge)) : Prop := {
  fl_nodes : ∀ k, is_node og k ↔ 0 <= k < getStartingNumNodes rg;
  fl_placed : ∀ s e, (s, e) ∈ done → getWeight e < 0 →
    edge_at og (getSink e) s =
      Some (mkEdge (getSink e) s (getCapacity e) (Int.neg (getWeight e)));
  fl_only : ∀ a b, is_Some (edge_at og a b) →
    ∃ e, (b, e) ∈ done ∧ getSink e = a ∧ getWeight e < 0
}.

(** What holds of it in the second loop, once the edges [done] of the
    original graph have been treated. *)
Record report_inv (rg graph og : Graph) (done : list (Z * Edge)) : Prop := {
  rp_nodes : ∀ k, is_node og k ↔ 0 <= k < getStartingNumNodes rg;
  rp_flow : ∀ a b f, flow_edge rg a b = Some f → edge_at og a b = Some f;
  rp_zero : ∀ a e, (a, e) ∈ done → flow_edge rg a (getSink e) = None →
    edge_at og a (getSink e) = Some (zero_flow a e);
  rp_only : ∀ a b, is_Some (edge_at og a b) →
    is_Some (flow_edge rg a b) ∨ ∃ e, (a, e) ∈ done ∧ getSink e = b
}.

(** A network without costs. *)
Definition zero_cost (e : Edge) : Prop := getWeight e = 0.

#[global] Instance zero_cost_dec (e : Edge) : Decision (zero_cost e).
Proof. unfold zero_cost. apply _. Defined.

(** The flow that [GetOptimalGraph] shows on a pair: the capacity of the
    edge it reports. *)
Definition shown_flow (rg : Graph) (a b : Z) : Z :=
  from_option getCapacity 0 (flow_edge rg a b).

(** More sample graphs: a line 0 -> 1 -> 2, of which [sample_residual] is
    a residual graph; one edge of cost 0; one edge of negative cost. *)
Definition sample_line : Graph :=
  mkGraph 3 (list_to_map [(0, [mkEdge 0 1 3 1]); (1, [mkEdge 1 2 3 1]); (2, [])]) ∅.

Definition sample_free : Graph :=
  mkGraph 2 (list_to_map [(0, [mkEdge 0 1 2 0]); (1, [])]) ∅.

(** Costs that make a reverse edge recognisable: positive, and an [int]
    whose negation is an [int]. *)
Definition positive_cost (e : Edge) : Prop := 0 < getWeight e <= Int.max_int.

#[global] Instance positive_cost_dec (e : Edge) : Decision (positive_cost e).
Proof. unfold positive_cost. apply _. Defined.

(** The flow of one augmentation along [path]. *)
Definition path_flow (path : list Z) (flow : Z) (a b : Z) : Z :=
  if decide ((a, b) ∈ pairs path) then flow else 0.

Definition sample_negative : Graph :=
  mkGraph 2 (list_to_map [(0, []); (1, [mkEdge 1 0 5 (-2)])]) ∅.

(** The sum of [F s t] over the pairs of nodes below [n]. *)
Definition grid_sum (n : Z) (F : Z → Z → Z) : Z :=
  sum_list ((λ s, sum_list (F s <$> seqZ 0 n)) <$> seqZ 0 n).

(** What a negative-cost edge contributes to the cost that
    [CycleCancelling] reports. *)
Definition negative_cost (e : Edge) : Z :=
  if decide (getWeight e < 0) then - getWeight e * getCapacity e else 0.

(** The edge [r] of the node [b] of the residual graph is the reverse of
    an edge of [graph], with the cost negated. *)
Definition mirror_of (graph : Graph) (b : Z) (r : Edge) : Prop :=
  match edge_at graph (getSink r) b with
  | Some e => getWeight e = - getWeight r
  | None => False
  end.

#[global] Instance mirror_of_dec graph b r : Decision (mirror_of graph b r).
Proof. unfold mirror_of. destruct (edge_at graph (getSink r) b); apply _. Defined.

(** Every negative-cost edge of the residual graph is the reverse of an
    edge of the graph. *)
Definition mirrors (rg graph : Graph) : Prop :=
  Forall (λ p, getWeight p.2 < 0 → mirror_of graph p.1 p.2) (entries rg).

#[global] Instance mirrors_dec rg graph : Decision (mirrors rg graph).
Proof. unfold mirrors. apply _. Defined.

(** A capacity that [addEdge] accepts. *)
Definition nonnegative_capacity (e : Edge) : Prop := 0 <= getCapacity e.

#[global] Instance nonnegative_capacity_dec (e : Edge) : Decision (nonnegative_capacity e).
Proof. unfold nonnegative_capacity. apply _. Defined.

End Vocabulary.

(** * Properties *)

(** ** Facts on machine integers *)

Section IntFacts.

Lemma wrap_in_range (z : Z) : Int.in_range (Int.wrap z).
Proof.
  unfold Int.in_range, Int.wrap, Int.min_int, Int.max_int.
  pose proof (Z.mod_pos_bound (z + 2 ^ 31) (2 ^ 32) eq_refl). lia.
Qed.

Lemma wrap_id (z : Z) : Int.in_range z → Int.wrap z = z.
Proof.
  unfold Int.in_range, Int.wrap, Int.min_int, Int.max_int. intros Hz.
  rewrite Z.mod_small; lia.
Qed.

Lemma wrap_mod (z : Z) : Int.wrap z mod 2 ^ 32 = z mod 2 ^ 32.
Proof.
  unfold Int.wrap.
  rewrite <- Zminus_mod_idemp_l, Z.mod_mod by lia.
  rewrite Zminus_mod_idemp_l. f_equal. lia.
Qed.

Lemma wrap_eq_mod (a b : Z) : a mod 2 ^ 32 = b mod 2 ^ 32 → Int.wrap a = Int.wrap b.
Proof.
  intros H. unfold Int.wrap.
  rewrite <- (Zplus_mod_idemp_l a), <- (Zplus_mod_idemp_l b), H. done.
Qed.

Lemma wrap_wrap (z : Z) : Int.wrap (Int.wrap z) = Int.wrap z.
Proof. apply wrap_id, wrap_in_range. Qed.

Lemma wrap_add_l (a b : Z) : Int.wrap (Int.wrap a + b) = Int.wrap (a + b).
Proof.
  apply wrap_eq_mod. rewrite <- Zplus_mod_idemp_l, wrap_mod, Zplus_mod_idemp_l. done.
Qed.

Lemma wrap_add_r (a b : Z) : Int.wrap (a + Int.wrap b) = Int.wrap (a + b).
Proof. rewrite (Z.add_comm a), wrap_add_l. f_equal. lia. Qed.

Lemma wrap_mul_l (a b : Z) : Int.wrap (Int.wrap a * b) = Int.wrap (a * b).
Proof.
  apply wrap_eq_mod. rewrite <- Zmult_mod_idemp_l, wrap_mod, Zmult_mod_idemp_l. done.
Qed.

(** A sum of a capacity and a flow that an edge accepts did not wrap. *)
Lemma add_exact (c f : Z) :
  0 <= c <= Int.max_int → Int.in_range f → 0 <= Int.add c f → Int.add c f = c + f.
Proof.
  unfold Int.add, Int.wrap, Int.in_range, Int.min_int, Int.max_int.
  intros Hc Hf H.
  destruct (Z_lt_le_dec (c + f) (2 ^ 31)) as [Hlt | Hge].
  - rewrite Z.mod_small; lia.
  - exfalso. revert H.
    replace (c + f + 2 ^ 31) with ((c + f - 2 ^ 31) + 1 * 2 ^ 32) by lia.
    rewrite Z_mod_plus_full, Z.mod_small; lia.
Qed.

Lemma sub_exact (c f : Z) :
  0 <= c <= Int.max_int → Int.in_range f → f <= c → 0 <= Int.sub c f →
  Int.sub c f = c - f.
Proof.
  unfold Int.sub, Int.wrap, Int.in_range, Int.min_int, Int.max_int.
  intros Hc Hf Hle H.
  destruct (Z_lt_le_dec (c - f) (2 ^ 31)) as [Hlt | Hge].
  - rewrite Z.mod_small; lia.
  - exfalso. revert H.
    replace (c - f + 2 ^ 31) with ((c - f - 2 ^ 31) + 1 * 2 ^ 32) by lia.
    rewrite Z_mod_plus_full, Z.mod_small; lia.
Qed.

End IntFacts.

(** ** Facts on adjacency lists *)

Section AdjacencyLists.

Import Graph.

Implicit Types (l : list Edge) (e : Edge) (t c : Z).

Lemma find_edge_sink t l e : find_edge t l = Some e → getSink e = t.
Proof.
  unfold find_edge. intros H. apply find_some in H as [_ H].
  unfold to_sink in H. lia.
Qed.

Lemma find_edge_elem t l e : find_edge t l = Some e → e ∈ l.
Proof.
  unfold find_edge. intros H. apply find_some in H as [H _].
  by apply list_elem_of_In.
Qed.

Lemma find_edge_None t l : find_edge t l = None ↔ t ∉ getSink <$> l.
Proof.
  unfold find_edge. induction l as [| e l IH]; simpl.
  - split; [intros _; apply not_elem_of_nil | done].
  - unfold to_sink at 1. rewrite not_elem_of_cons.
    destruct (Z.eqb_spec (getSink e) t) as [-> | Hne].
    + split; [done | intros [? _]; done].
    + rewrite IH. split; [intros ?; split; [congruence | done] | by intros [_ ?]].
Qed.

Lemma find_edge_app t l l' :
  find_edge t (l ++ l') =
    match find_edge t l with Some e => Some e | None => find_edge t l' end.
Proof.
  unfold find_edge. induction l as [| e l IH]; simpl; [done |].
  destruct (to_sink t e); done.
Qed.

Lemma find_edge_snoc t l e :
  find_edge t (l ++ [e]) =
    match find_edge t l with
    | Some e' => Some e'
    | None => if decide (t = getSink e) then Some e else None
    end.
Proof.
  rewrite find_edge_app. destruct (find_edge t l); [done |].
  unfold find_edge, to_sink; cbn.
  destruct (Z.eqb_spec (getSink e) t); case_decide; congruence.
Qed.

Lemma find_edge_set_capacity_eq t c l :
  find_edge t (set_capacity t c l) = with_capacity c <$> find_edge t l.
Proof.
  unfold find_edge. induction l as [| e l IH]; simpl; [done |].
  destruct (to_sink t e) eqn:He; simpl.
  - unfold to_sink in *. simpl. by rewrite He.
  - by rewrite He.
Qed.

Lemma find_edge_set_capacity_ne t t' c l :
  t ≠ t' → find_edge t' (set_capacity t c l) = find_edge t' l.
Proof.
  intros Hne. unfold find_edge. induction l as [| e l IH]; simpl; [done |].
  destruct (to_sink t e) eqn:He; simpl.
  - unfold to_sink in *. simpl.
    destruct (Z.eqb_spec (getSink e) t'); [lia | done].
  - destruct (to_sink t' e); done.
Qed.

Lemma find_edge_erase_ne t t' l :
  t ≠ t' → find_edge t' (erase t l) = find_edge t' l.
Proof.
  intros Hne. unfold find_edge. induction l as [| e l IH]; simpl; [done |].
  destruct (to_sink t e) eqn:He; simpl.
  - unfold to_sink in *. destruct (Z.eqb_spec (getSink e) t'); [lia | done].
  - destruct (to_sink t' e); done.
Qed.

Lemma sinks_set_capacity t c l : getSink <$> set_capacity t c l = getSink <$> l.
Proof.
  induction l as [| e l IH]; csimpl; [done |].
  destruct (to_sink t e); csimpl; [done | by rewrite IH].
Qed.

Lemma erase_sublist t l : erase t l `sublist_of` l.
Proof.
  induction l as [| e l IH]; simpl; [done |].
  destruct (to_sink t e); [by apply sublist_cons | by apply sublist_skip].
Qed.

Lemma find_edge_erase_eq t l :
  NoDup (getSink <$> l) → find_edge t (erase t l) = None.
Proof.
  intros Hnd. apply find_edge_None.
  induction l as [| e l IH]; simpl; [apply not_elem_of_nil |].
  rewrite fmap_cons in Hnd. apply NoDup_cons in Hnd as [Hin Hnd].
  unfold to_sink at 1. destruct (Z.eqb_spec (getSink e) t) as [<- | Hne]; [done |].
  rewrite fmap_cons, not_elem_of_cons. split; [congruence | by apply IH].
Qed.

Lemma NoDup_sinks_erase t l : NoDup (getSink <$> l) → NoDup (getSink <$> erase t l).
Proof.
  intros H. eapply sublist_NoDup; [exact H |].
  apply fmap_sublist, erase_sublist.
Qed.

Lemma elem_of_set_capacity t c l e :
  e ∈ set_capacity t c l → e ∈ l ∨ ∃ e0, e0 ∈ l ∧ getSink e0 = t ∧ e = with_capacity c e0.
Proof.
  induction l as [| e0 l IH]; simpl; [by left |].
  unfold to_sink at 1. destruct (Z.eqb_spec (getSink e0) t) as [Heq | Hne].
  - rewrite !elem_of_cons. intros [-> | Hin]; [right | left; by right].
    exists e0. split; [by left | done].
  - rewrite elem_of_cons. intros [-> | Hin]; [left; by left |].
    destruct (IH Hin) as [? | (e1 & ? & ? & ?)]; [left; by right | right].
    exists e1. split; [by right | done].
Qed.

End AdjacencyLists.

(** ** Facts on the graph operations *)

Section GraphFacts.

Import Graph.

Implicit Types (gr : Graph) (e : Edge) (s t c w : Z).

Lemma getEdge_Ok gr s t e :
  getEdge gr s t = Ok e ↔ is_node gr s ∧ is_node gr t ∧ edge_at gr s t = Some e.
Proof.
  unfold getEdge, checkNodeExistence, getNodeAdjList, is_node, edge_at.
  destruct (g gr !! s) as [l |] eqn:Hs; cbn.
  - destruct (g gr !! t) as [l' |] eqn:Ht; cbn.
    + destruct (find_edge t l) eqn:Hf; split.
      * intros [= ->]. eauto.
      * intros (_ & _ & [= ->]). done.
      * done.
      * intros (_ & _ & ?). done.
    + split; [done | intros (_ & [? ?] & _); done].
  - split; [done | intros ([? ?] & _); done].
Qed.

Lemma getEdge_Err gr s t err : getEdge gr s t = Err err → err = InvalidArgument.
Proof.
  unfold getEdge, checkNodeExistence, getNodeAdjList.
  destruct (g gr !! s); cbn; [| congruence].
  destruct (g gr !! t); cbn; [| congruence].
  destruct (find_edge t l); congruence.
Qed.

Lemma hasEdge_Ok gr s t b :
  hasEdge gr s t = Ok b ↔
  is_node gr s ∧ is_node gr t ∧ b = bool_decide (is_Some (edge_at gr s t)).
Proof.
  unfold hasEdge, checkNodeExistence, getNodeAdjList, is_node, edge_at.
  destruct (g gr !! s) as [l |] eqn:Hs; cbn.
  - destruct (g gr !! t) as [l' |] eqn:Ht; cbn.
    + split; [intros [= <-]; eauto | intros (_ & _ & ->); done].
    + split; [done | intros (_ & [? ?] & _); done].
  - split; [done | intros ([? ?] & _); done].
Qed.

Lemma hasEdge_nodes gr s t :
  is_node gr s → is_node gr t →
  hasEdge gr s t = Ok (bool_decide (is_Some (edge_at gr s t))).
Proof. intros. apply hasEdge_Ok. done. Qed.

Lemma edge_at_sink gr s t e : edge_at gr s t = Some e → getSink e = t.
Proof.
  unfold edge_at. destruct (g gr !! s); cbn; [apply find_edge_sink | done].
Qed.

Lemma edge_at_node gr s t e : edge_at gr s t = Some e → is_node gr s.
Proof. unfold edge_at, is_node. destruct (g gr !! s); cbn; [eauto | done]. Qed.

Lemma edge_at_elem gr s t e :
  edge_at gr s t = Some e → ∃ l, g gr !! s = Some l ∧ e ∈ l.
Proof.
  unfold edge_at. destruct (g gr !! s) as [l |]; cbn; [| done].
  intros H. exists l. split; [done | by eapply find_edge_elem].
Qed.

(** Replacing one adjacency list. *)
Lemma edge_at_with_adj gr s l x y :
  edge_at (with_adj gr s l) x y =
    if decide (x = s) then find_edge y l else edge_at gr x y.
Proof.
  unfold edge_at, with_adj; cbn. case_decide as Hx.
  - subst. by rewrite lookup_insert_eq.
  - by rewrite lookup_insert_ne.
Qed.

Lemma is_node_with_adj gr s l x :
  is_node gr s → is_node (with_adj gr s l) x ↔ is_node gr x.
Proof.
  unfold is_node, with_adj; cbn. intros Hs.
  destruct (decide (x = s)) as [-> | Hne].
  - rewrite lookup_insert_eq. split; eauto.
  - by rewrite lookup_insert_ne.
Qed.

Lemma size_with_adj gr s l :
  is_node gr s → getNumNodes (with_adj gr s l) = getNumNodes gr.
Proof.
  unfold is_node, with_adj, getNumNodes; cbn. intros [l0 Hs].
  f_equal. rewrite <- (insert_delete_id (g gr) s l0) at 2 by done.
  rewrite <- insert_delete_eq.
  rewrite !map_size_insert_None by apply lookup_delete_eq. done.
Qed.

(** [setEdgeCapacity] *)
Lemma setEdgeCapacity_Ok gr s t c gr' :
  setEdgeCapacity gr s t c = Ok gr' ↔
  ∃ l e, g gr !! s = Some l ∧ is_node gr t ∧ find_edge t l = Some e ∧ 0 <= c ∧
         gr' = with_adj gr s (set_capacity t c l).
Proof.
  unfold setEdgeCapacity. destruct (getEdge gr s t) as [e | err] eqn:He; cbn.
  - apply getEdge_Ok in He as ([l Hl] & Ht & He).
    unfold edge_at in He. rewrite Hl in He. cbn in He.
    unfold getNodeAdjList. rewrite Hl. cbn.
    destruct (Z.ltb_spec c 0).
    + split; [done | intros (? & ? & _ & _ & _ & ? & _); lia].
    + split.
      * intros [= <-]. exists l, e. done.
      * intros (l' & e' & [= <-] & _ & _ & _ & ->). done.
  - split; [done |]. intros (l & e & Hl & Ht & Hf & _).
    assert (getEdge gr s t = Ok e) as Hok; [| congruence].
    apply getEdge_Ok. unfold is_node, edge_at. rewrite Hl. cbn. eauto.
Qed.

Lemma setEdgeCapacity_Err_inv gr s t c err :
  setEdgeCapacity gr s t c = Err err → err = InvalidArgument.
Proof.
  unfold setEdgeCapacity. destruct (getEdge gr s t) eqn:He; cbn.
  - destruct (c <? 0); [congruence |].
    unfold getNodeAdjList. destruct (g gr !! s); cbn; congruence.
  - intros [= <-]. by eapply getEdge_Err.
Qed.

(** [removeEdge] *)
Lemma removeEdge_Ok gr s t gr' :
  removeEdge gr s t = Ok gr' ↔
  ∃ l e, g gr !! s = Some l ∧ is_node gr t ∧ find_edge t l = Some e ∧
         gr' = with_adj gr s (erase t l).
Proof.
  unfold removeEdge. destruct (getEdge gr s t) as [e | err] eqn:He; cbn.
  - apply getEdge_Ok in He as ([l Hl] & Ht & He).
    unfold edge_at in He. rewrite Hl in He. cbn in He.
    unfold getNodeAdjList. rewrite Hl. cbn. split.
    + intros [= <-]. exists l, e. done.
    + intros (l' & e' & [= <-] & _ & _ & ->). done.
  - split; [done |]. intros (l & e & Hl & Ht & Hf & _).
    assert (getEdge gr s t = Ok e) as Hok; [| congruence].
    apply getEdge_Ok. unfold is_node, edge_at. rewrite Hl. cbn. eauto.
Qed.

(** [addEdge] *)
Lemma lookup_ensure_node n (m : gmap Z (list Edge)) x :
  ensure_node n m !! x = if decide (x = n) then Some (default [] (m !! n)) else m !! x.
Proof.
  unfold ensure_node. destruct (m !! n) as [l |] eqn:Hn; case_decide; subst; cbn.
  - done.
  - done.
  - by rewrite lookup_insert_eq.
  - by rewrite lookup_insert_ne.
Qed.

Lemma edge_exists_edge_at gr s t :
  edge_exists gr s t = bool_decide (is_Some (edge_at gr s t)).
Proof.
  unfold edge_exists, edge_at. destruct (g gr !! s); done.
Qed.

Lemma addEdge_Ok gr s t c w gr' :
  addEdge gr s t c w = Ok gr' ↔
  0 <= s ∧ 0 <= t ∧ s <= getNumNodes gr + 1 ∧ t <= getNumNodes gr + 1 ∧
  edge_at gr s t = None ∧ 0 <= c ∧
  gr' = mkGraph (num_nodes gr)
          (<[s := adj_of gr s ++ [mkEdge s t c w]]>
             (ensure_node t (ensure_node s (g gr))))
          (artificial_nodes gr).
Proof.
  unfold addEdge. rewrite edge_exists_edge_at.
  assert (default [] (ensure_node t (ensure_node s (g gr)) !! s) = adj_of gr s) as ->.
  { rewrite !lookup_ensure_node. unfold adj_of.
    repeat case_decide; subst; cbn; done. }
  destruct (Z.ltb_spec s 0); cbn; [split; [done | lia] |].
  destruct (Z.ltb_spec t 0); cbn; [split; [done | lia] |].
  destruct (Z.ltb_spec (getNumNodes gr + 1) s); cbn; [split; [done | lia] |].
  destruct (Z.ltb_spec (getNumNodes gr + 1) t); cbn; [split; [done | lia] |].
  destruct (edge_at gr s t) as [e |] eqn:He.
  - rewrite bool_decide_eq_true_2 by eauto. split; [done |].
    intros (_ & _ & _ & _ & ? & _). done.
  - rewrite bool_decide_eq_false_2 by (by intros [? ?]).
    destruct (Z.ltb_spec c 0); [split; [done | lia] |].
    split; [intros [= <-]; done | intros (_ & _ & _ & _ & _ & _ & ->); done].
Qed.

Lemma addEdge_lookup gr s t c w gr' x :
  addEdge gr s t c w = Ok gr' →
  g gr' !! x =
    if decide (x = s) then Some (adj_of gr s ++ [mkEdge s t c w])
    else if decide (x = t) then Some (adj_of gr t)
    else g gr !! x.
Proof.
  intros (_ & _ & _ & _ & _ & _ & ->)%addEdge_Ok. cbn.
  case_decide as Hs; subst.
  - by rewrite lookup_insert_eq.
  - rewrite lookup_insert_ne by done. rewrite !lookup_ensure_node.
    unfold adj_of. repeat case_decide; subst; done.
Qed.

Lemma addEdge_fields gr s t c w gr' :
  addEdge gr s t c w = Ok gr' →
  num_nodes gr' = num_nodes gr ∧ artificial_nodes gr' = artificial_nodes gr.
Proof. intros (_ & _ & _ & _ & _ & _ & ->)%addEdge_Ok. done. Qed.

Lemma addEdge_is_node gr s t c w gr' x :
  addEdge gr s t c w = Ok gr' →
  is_node gr' x ↔ is_node gr x ∨ x = s ∨ x = t.
Proof.
  intros H. unfold is_node. rewrite (addEdge_lookup _ _ _ _ _ _ x H).
  repeat case_decide; subst; split; eauto.
  intros [? | [? | ?]]; done.
Qed.

Lemma addEdge_edge_at gr s t c w gr' x y :
  addEdge gr s t c w = Ok gr' →
  edge_at gr' x y =
    if decide (x = s ∧ y = t) then Some (mkEdge s t c w) else edge_at gr x y.
Proof.
  intros H. pose proof H as (_ & _ & _ & _ & Hnone & _)%addEdge_Ok.
  unfold edge_at in *. rewrite (addEdge_lookup _ _ _ _ _ _ x H).
  destruct (decide (x = s)) as [-> | Hxs]; cbn.
  - rewrite find_edge_snoc. unfold adj_of.
    destruct (g gr !! s) as [l |] eqn:Hl; cbn in *.
    + destruct (decide (y = t)) as [-> | Hyt].
      * rewrite Hnone. by rewrite decide_True.
      * rewrite (decide_False (P := s = s ∧ y = t)) by (intros [_ ?]; done).
        destruct (find_edge y l); done.
    + destruct (decide (y = t)) as [-> | Hyt].
      * by rewrite decide_True.
      * rewrite (decide_False (P := s = s ∧ y = t)); [done | intros [_ ?]; congruence].
  - rewrite (decide_False (P := x = s ∧ y = t)) by (intros [? _]; done).
    destruct (decide (x = t)) as [-> | Hxt]; [| done].
    unfold adj_of. destruct (g gr !! t); done.
Qed.

Lemma addEdge_elem gr s t c w gr' x l' e :
  addEdge gr s t c w = Ok gr' → g gr' !! x = Some l' → e ∈ l' →
  (∃ l, g gr !! x = Some l ∧ e ∈ l) ∨ (x = s ∧ e = mkEdge s t c w).
Proof.
  intros H. rewrite (addEdge_lookup _ _ _ _ _ _ x H). unfold adj_of.
  destruct (decide (x = s)) as [-> | Hxs].
  - intros [= <-]. rewrite elem_of_app, list_elem_of_singleton.
    intros [Hin | ->]; [left | by right].
    destruct (g gr !! s) as [l |]; cbn in *; [eauto | by apply not_elem_of_nil in Hin].
  - destruct (decide (x = t)) as [-> | Hxt].
    + intros [= <-] Hin. left.
      destruct (g gr !! t) as [l |]; cbn in *; [eauto | by apply not_elem_of_nil in Hin].
    + intros Hl Hin. left. eauto.
Qed.

(** [setEdgeCapacity] and [removeEdge], seen through [edge_at] *)
Lemma setEdgeCapacity_edge_at gr s t c gr' x y :
  setEdgeCapacity gr s t c = Ok gr' →
  edge_at gr' x y =
    if decide (x = s ∧ y = t) then with_capacity c <$> edge_at gr s t
    else edge_at gr x y.
Proof.
  intros (l & e & Hl & _ & Hf & _ & ->)%setEdgeCapacity_Ok.
  rewrite edge_at_with_adj. unfold edge_at. rewrite Hl. cbn.
  destruct (decide (x = s)) as [-> | Hxs].
  - rewrite Hl. cbn. destruct (decide (y = t)) as [-> | Hyt].
    + rewrite decide_True by done. apply find_edge_set_capacity_eq.
    + rewrite (decide_False (P := s = s ∧ y = t)) by (intros [_ ?]; done).
      by apply find_edge_set_capacity_ne.
  - rewrite (decide_False (P := x = s ∧ y = t)) by (intros [? _]; done). done.
Qed.

Lemma setEdgeCapacity_is_node gr s t c gr' x :
  setEdgeCapacity gr s t c = Ok gr' → is_node gr' x ↔ is_node gr x.
Proof.
  intros (l & e & Hl & _ & _ & _ & ->)%setEdgeCapacity_Ok.
  apply is_node_with_adj. unfold is_node. eauto.
Qed.

Lemma setEdgeCapacity_size gr s t c gr' :
  setEdgeCapacity gr s t c = Ok gr' → getNumNodes gr' = getNumNodes gr.
Proof.
  intros (l & e & Hl & _ & _ & _ & ->)%setEdgeCapacity_Ok.
  apply size_with_adj. unfold is_node. eauto.
Qed.

Lemma removeEdge_edge_at gr s t gr' x y :
  NoDup (getSink <$> adj_of gr s) →
  removeEdge gr s t = Ok gr' →
  edge_at gr' x y = if decide (x = s ∧ y = t) then None else edge_at gr x y.
Proof.
  intros Hnd (l & e & Hl & _ & Hf & ->)%removeEdge_Ok.
  unfold adj_of in Hnd. rewrite Hl in Hnd. cbn in Hnd.
  rewrite edge_at_with_adj. unfold edge_at.
  destruct (decide (x = s)) as [-> | Hxs].
  - rewrite Hl. cbn. destruct (decide (y = t)) as [-> | Hyt].
    + rewrite decide_True by done. by apply find_edge_erase_eq.
    + rewrite (decide_False (P := s = s ∧ y = t)) by (intros [_ ?]; done).
      by apply find_edge_erase_ne.
  - rewrite (decide_False (P := x = s ∧ y = t)) by (intros [? _]; done). done.
Qed.

Lemma removeEdge_is_node gr s t gr' x :
  removeEdge gr s t = Ok gr' → is_node gr' x ↔ is_node gr x.
Proof.
  intros (l & e & Hl & _ & _ & ->)%removeEdge_Ok.
  apply is_node_with_adj. unfold is_node. eauto.
Qed.

Lemma removeEdge_size gr s t gr' :
  removeEdge gr s t = Ok gr' → getNumNodes gr' = getNumNodes gr.
Proof.
  intros (l & e & Hl & _ & _ & ->)%removeEdge_Ok.
  apply size_with_adj. unfold is_node. eauto.
Qed.

(** ** Invariants of the edge lists *)

Lemma all_edges_edge_at P gr s t e : all_edges P gr → edge_at gr s t = Some e → P e.
Proof. intros HP (l & Hl & Hin)%edge_at_elem. eauto. Qed.

Lemma all_edges_with_adj P gr s l :
  all_edges P gr → Forall P l → all_edges P (with_adj gr s l).
Proof.
  intros HP Hl x l' e. unfold with_adj; cbn.
  destruct (decide (x = s)) as [-> | Hne].
  - rewrite lookup_insert_eq. intros [= <-] Hin.
    by eapply Forall_forall in Hl.
  - rewrite lookup_insert_ne by done. apply HP.
Qed.

Lemma all_edges_addEdge P gr s t c w gr' :
  addEdge gr s t c w = Ok gr' → all_edges P gr → P (mkEdge s t c w) →
  all_edges P gr'.
Proof.
  intros H HP Hnew x l' e Hl Hin.
  destruct (addEdge_elem _ _ _ _ _ _ _ _ _ H Hl Hin) as [(l & ? & ?) | [_ ->]]; eauto.
Qed.

Lemma all_edges_setEdgeCapacity P gr s t c gr' :
  setEdgeCapacity gr s t c = Ok gr' → all_edges P gr →
  (∀ e, edge_at gr s t = Some e → P (with_capacity c e)) →
  all_edges P gr'.
Proof.
  intros (l & e & Hl & _ & Hf & _ & ->)%setEdgeCapacity_Ok HP Hc.
  apply all_edges_with_adj; [done |]. apply Forall_forall. intros e' Hin.
  assert (P (with_capacity c e)) as Hce.
  { apply Hc. unfold edge_at. by rewrite Hl. }
  clear Hc. revert e' Hin Hf.
  assert (Forall P l) as Hall by (apply Forall_forall; eauto).
  clear Hl. induction Hall as [| e0 l H0 Hall IH]; cbn; intros e'.
  - by intros ?%not_elem_of_nil.
  - unfold find_edge; cbn. destruct (to_sink t e0) eqn:H0t.
    + intros Hin [= <-]. apply elem_of_cons in Hin as [-> | Hin]; [done |].
      by eapply Forall_forall in Hall.
    + intros Hin Hf. apply elem_of_cons in Hin as [-> | Hin]; [done |].
      by apply IH.
Qed.

Lemma all_edges_removeEdge P gr s t gr' :
  removeEdge gr s t = Ok gr' → all_edges P gr → all_edges P gr'.
Proof.
  intros (l & e & Hl & _ & _ & ->)%removeEdge_Ok HP.
  apply all_edges_with_adj; [done |]. apply Forall_forall. intros e' Hin.
  eapply HP; [exact Hl |]. eapply elem_of_sublist; [exact Hin | apply erase_sublist].
Qed.

(** Removing an edge whose capacity was just overwritten: the edge that
    goes is the one that was overwritten. *)
Lemma erase_set_capacity t c (l : list Edge) : erase t (set_capacity t c l) = erase t l.
Proof.
  induction l as [| e l IH]; cbn; [done |].
  destruct (to_sink t e) eqn:He; cbn.
  - unfold to_sink in *; cbn. by rewrite He.
  - by rewrite He, IH.
Qed.

Lemma all_edges_set_then_remove P gr s t c gr1 gr2 :
  setEdgeCapacity gr s t c = Ok gr1 → removeEdge gr1 s t = Ok gr2 →
  all_edges P gr → all_edges P gr2.
Proof.
  intros (l & e & Hl & _ & _ & _ & ->)%setEdgeCapacity_Ok.
  intros (l1 & e1 & Hl1 & _ & _ & ->)%removeEdge_Ok HP.
  unfold with_adj in *; cbn in *. rewrite lookup_insert_eq in Hl1.
  injection Hl1 as <-. rewrite erase_set_capacity.
  intros x l' e'. cbn. rewrite insert_insert_eq.
  destruct (decide (x = s)) as [-> | Hne].
  - rewrite lookup_insert_eq. intros [= <-] Hin.
    eapply HP; [exact Hl |]. eapply elem_of_sublist; [exact Hin | apply erase_sublist].
  - rewrite lookup_insert_ne by done. apply HP.
Qed.

Lemma unique_edges_addEdge gr s t c w gr' :
  addEdge gr s t c w = Ok gr' → unique_edges gr → unique_edges gr'.
Proof.
  intros H Hu x l'. rewrite (addEdge_lookup _ _ _ _ _ _ x H).
  pose proof H as (_ & _ & _ & _ & Hnone & _)%addEdge_Ok.
  unfold adj_of, edge_at in *.
  destruct (decide (x = s)) as [-> | Hxs].
  - intros [= <-]. rewrite fmap_app. cbn.
    destruct (g gr !! s) as [l |] eqn:Hl; cbn in *.
    + apply NoDup_app. split; [eauto |]. split; [| apply NoDup_singleton].
      intros y Hy ->%list_elem_of_singleton. by apply find_edge_None in Hnone.
    + apply NoDup_singleton.
  - destruct (decide (x = t)) as [-> | Hxt]; [| apply Hu].
    intros [= <-]. destruct (g gr !! t) as [l |] eqn:Hl; cbn; [eauto | apply NoDup_nil_2].
Qed.

Lemma unique_edges_with_adj gr s l :
  unique_edges gr → NoDup (getSink <$> l) → unique_edges (with_adj gr s l).
Proof.
  intros Hu Hl x l'. unfold with_adj; cbn.
  destruct (decide (x = s)) as [-> | Hne].
  - rewrite lookup_insert_eq. by intros [= <-].
  - rewrite lookup_insert_ne by done. apply Hu.
Qed.

Lemma unique_edges_setEdgeCapacity gr s t c gr' :
  setEdgeCapacity gr s t c = Ok gr' → unique_edges gr → unique_edges gr'.
Proof.
  intros (l & e & Hl & _ & _ & _ & ->)%setEdgeCapacity_Ok Hu.
  apply unique_edges_with_adj; [done |]. rewrite sinks_set_capacity. eauto.
Qed.

Lemma unique_edges_removeEdge gr s t gr' :
  removeEdge gr s t = Ok gr' → unique_edges gr → unique_edges gr'.
Proof.
  intros (l & e & Hl & _ & _ & ->)%removeEdge_Ok Hu.
  apply unique_edges_with_adj; [done |]. apply NoDup_sinks_erase. eauto.
Qed.

Lemma unique_edges_adj_of gr s : unique_edges gr → NoDup (getSink <$> adj_of gr s).
Proof.
  intros Hu. unfold adj_of. destruct (g gr !! s) eqn:Hl; cbn; [eauto | apply NoDup_nil_2].
Qed.

End GraphFacts.

(** ** One step of [SendFlowInPath] *)

Section SendEdge.

Import Graph GraphUtils.

Implicit Types (rg : Graph) (e : Edge) (a b flow : Z).

Lemma getEdge_after_set rg a b c rg1 e :
  getEdge rg a b = Ok e → setEdgeCapacity rg a b c = Ok rg1 →
  getEdge rg1 a b = Ok (with_capacity c e).
Proof.
  intros (Ha & Hb & He)%getEdge_Ok Hset. apply getEdge_Ok.
  rewrite !(setEdgeCapacity_is_node _ _ _ _ _ _ Hset).
  rewrite (setEdgeCapacity_edge_at _ _ _ _ _ a b Hset).
  rewrite decide_True by done. rewrite He. done.
Qed.

Lemma removeEdge_after_get rg a b e : getEdge rg a b = Ok e → ∃ rg', removeEdge rg a b = Ok rg'.
Proof.
  intros ([l Hl] & Hb & He)%getEdge_Ok. unfold edge_at in He. rewrite Hl in He.
  eexists. apply removeEdge_Ok. exists l, e. done.
Qed.

Lemma M_bind_inv {A B : Type} (m : M A) (k : A → M B) s s' out :
  (x ← m; k x) s = (s', out) →
  (∃ err, m s = (s', Err err) ∧ out = Err err) ∨
  (∃ x s1, m s = (s1, Ok x) ∧ k x s1 = (s', out)).
Proof.
  unfold mbind, M_mbind, M_bind. destruct (m s) as [s1 [x | err]].
  - intros H. right. eauto.
  - intros [= <- <-]. left. eauto.
Qed.

Lemma read_inv {A : Type} (f : Graph → result A) s s' r :
  read f s = (s', r) → s' = s ∧ r = f s.
Proof. unfold read. by intros [= <- <-]. Qed.

Lemma update_inv (f : Graph → result Graph) s s' r :
  update f s = (s', r) →
  (f s = Ok s' ∧ r = Ok tt) ∨ (∃ err, f s = Err err ∧ s' = s ∧ r = Err err).
Proof.
  unfold update. destruct (f s) as [s1 | err]; intros [= <- <-]; [by left | right; eauto].
Qed.

Lemma send_edge_inv a b flow rg rg' out :
  send_edge a b flow rg = (rg', out) → send_edge_run a b flow rg rg' out.
Proof.
  unfold send_edge. intros H.
  apply M_bind_inv in H as [(err & [-> Hr]%read_inv & ->) | (e & s1 & [-> Hget]%read_inv & H)].
  { symmetry in Hr. by constructor. }
  symmetry in Hget.
  (* the capacity of the traversed edge *)
  apply M_bind_inv in H as [(err & Hc & ->) | (c & s1 & Hc & H)].
  { destruct (Z.ltb_spec (getWeight e) 0) as [Hw | Hw].
    - apply M_bind_inv in Hc as [(err' & [-> Hr]%read_inv & _) | (e1 & s1 & [-> Hr]%read_inv & Hc)];
        [congruence | done].
    - apply M_bind_inv in Hc as [(err' & [-> Hr]%read_inv & _) | (e1 & s1 & [-> Hr]%read_inv & Hc)];
        [congruence |].
      assert (e1 = e) as -> by congruence.
      destruct (Z.ltb_spec (getCapacity e) flow) as [Hlt | Hge].
      + injection Hc as <- <-. by eapply run_exceeds.
      + apply M_bind_inv in Hc as [(err' & [-> Hr']%read_inv & _) | (e2 & s2 & _ & Hc)];
          [congruence | done]. }
  assert (s1 = rg ∧ c = forward_capacity e flow ∧
          (getWeight e < 0 ∨ flow <= getCapacity e)) as (-> & -> & Hguard).
  { unfold forward_capacity.
    destruct (Z.ltb_spec (getWeight e) 0) as [Hw | Hw].
    - apply M_bind_inv in Hc as [(err' & _ & ?) | (e1 & s2 & [-> Hr]%read_inv & Hc)]; [done |].
      assert (e1 = e) as -> by congruence. injection Hc as <- <-. auto.
    - apply M_bind_inv in Hc as [(err' & _ & ?) | (e1 & s2 & [-> Hr]%read_inv & Hc)]; [done |].
      assert (e1 = e) as -> by congruence.
      destruct (Z.ltb_spec (getCapacity e) flow) as [Hlt | Hge]; [done |].
      apply M_bind_inv in Hc as [(err' & _ & ?) | (e2 & s3 & [-> Hr']%read_inv & Hc)]; [done |].
      assert (e2 = e) as -> by congruence. injection Hc as <- <-. auto. }
  set (c := forward_capacity e flow) in *.
  (* the capacity is stored *)
  apply M_bind_inv in H as [(err & Hu & ->) | ([] & rg1 & Hu & H)].
  { apply update_inv in Hu as [[_ ?] | (err' & Hset & -> & [= <-])]; [done |].
    pose proof (setEdgeCapacity_Err_inv _ _ _ _ _ Hset) as ->.
    eapply run_refused; [done.. |].
    destruct (Z_lt_le_dec c 0) as [? | Hc0]; [done | exfalso].
    apply getEdge_Ok in Hget as ([l Hl] & Hb & He).
    unfold edge_at in He. rewrite Hl in He. cbn in He.
    assert (setEdgeCapacity rg a b c = Ok (with_adj rg a (set_capacity b c l))) as Hok;
      [| congruence].
    apply setEdgeCapacity_Ok. exists l, e. done. }
  apply update_inv in Hu as [[Hset _] | (? & _ & _ & ?)]; [| done].
  pose proof (getEdge_after_set _ _ _ _ _ _ Hget Hset) as Hget1.
  (* the edge is read again and removed when empty *)
  apply M_bind_inv in H as [(err & [_ Hr]%read_inv & _) | (e3 & s1 & [-> Hr]%read_inv & H)];
    [congruence |].
  assert (e3 = with_capacity c e) as -> by congruence. cbn in H.
  apply M_bind_inv in H as [(err & Hrm & ->) | ([] & rg2 & Hrm & H)].
  { destruct (c =? 0); [| done].
    apply update_inv in Hrm as [[_ ?] | (err' & Hrm & _)]; [done |].
    destruct (removeEdge_after_get _ _ _ _ Hget1) as [? ?]. congruence. }
  assert (if c =? 0 then removeEdge rg1 a b = Ok rg2 else rg2 = rg1) as Hrm'.
  { destruct (c =? 0).
    - by apply update_inv in Hrm as [[? _] | (? & _ & _ & ?)].
    - by injection Hrm as ->. }
  assert (is_node rg2 a ∧ is_node rg2 b) as [Ha Hb].
  { apply getEdge_Ok in Hget1 as (Ha & Hb & _).
    destruct (c =? 0); [| by subst].
    by rewrite !(removeEdge_is_node _ _ _ _ _ Hrm'). }
  (* the edge in the other direction *)
  apply M_bind_inv in H as [(err & [_ Hr']%read_inv & _) | (present & s1 & [-> Hr']%read_inv & H)].
  { rewrite (hasEdge_nodes _ _ _ Hb Ha) in Hr'. done. }
  rewrite (hasEdge_nodes _ _ _ Hb Ha) in Hr'. injection Hr' as ->.
  eapply run_reverse; [done.. |]. unfold reverse_edge.
  destruct (edge_at rg2 b a) as [e4 |] eqn:He4.
  - rewrite bool_decide_eq_true_2 in H by eauto. cbn in H.
    apply M_bind_inv in H as [(err & [_ Hr']%read_inv & _) | (e4' & s1 & [-> Hr']%read_inv & H)].
    + assert (getEdge rg2 b a = Ok e4) by (by apply getEdge_Ok). congruence.
    + assert (getEdge rg2 b a = Ok e4) by (by apply getEdge_Ok).
      assert (e4' = e4) as -> by congruence. done.
  - rewrite bool_decide_eq_false_2 in H by (by intros [? ?]). done.
Qed.

Lemma forward_update a b c e rg rg1 rg2 :
  getEdge rg a b = Ok e →
  setEdgeCapacity rg a b c = Ok rg1 →
  (if c =? 0 then removeEdge rg1 a b = Ok rg2 else rg2 = rg1) →
  0 <= c ∧
  (∀ x, is_node rg2 x ↔ is_node rg x) ∧
  getNumNodes rg2 = getNumNodes rg ∧
  (unique_edges rg → unique_edges rg2) ∧
  (∀ P, all_edges P rg → (c ≠ 0 → P (with_capacity c e)) → all_edges P rg2) ∧
  (unique_edges rg → ∀ x y, edge_at rg2 x y = forward_view a b c e rg x y).
Proof.
  intros Hget Hset Hrm.
  pose proof Hget as (Ha & Hb & He)%getEdge_Ok.
  assert (0 <= c) as Hc.
  { apply setEdgeCapacity_Ok in Hset as (? & ? & _ & _ & _ & ? & _). done. }
  split; [done |].
  destruct (Z.eqb_spec c 0) as [-> | Hc0].
  - repeat split.
    + rewrite (removeEdge_is_node _ _ _ _ _ Hrm).
      by rewrite (setEdgeCapacity_is_node _ _ _ _ _ _ Hset).
    + rewrite (removeEdge_is_node _ _ _ _ _ Hrm).
      by rewrite (setEdgeCapacity_is_node _ _ _ _ _ _ Hset).
    + rewrite (removeEdge_size _ _ _ _ Hrm).
      by rewrite (setEdgeCapacity_size _ _ _ _ _ Hset).
    + intros Hu. eapply unique_edges_removeEdge; [done |].
      by eapply unique_edges_setEdgeCapacity.
    + intros P HP _. by eapply all_edges_set_then_remove.
    + intros Hu x y. unfold forward_view. cbn.
      rewrite (removeEdge_edge_at _ _ _ _ x y
                 (unique_edges_adj_of _ _ (unique_edges_setEdgeCapacity _ _ _ _ _ Hset Hu)) Hrm).
      case_decide; [done |].
      rewrite (setEdgeCapacity_edge_at _ _ _ _ _ x y Hset). by rewrite decide_False.
  - subst rg2. repeat split.
    + by rewrite (setEdgeCapacity_is_node _ _ _ _ _ _ Hset).
    + by rewrite (setEdgeCapacity_is_node _ _ _ _ _ _ Hset).
    + by rewrite (setEdgeCapacity_size _ _ _ _ _ Hset).
    + intros Hu. by eapply unique_edges_setEdgeCapacity.
    + intros P HP HPc. eapply all_edges_setEdgeCapacity; [done.. |].
      intros e' He'. assert (e' = e) as -> by congruence. auto.
    + intros Hu x y. unfold forward_view.
      rewrite (setEdgeCapacity_edge_at _ _ _ _ _ x y Hset).
      case_decide; [| done]. rewrite He. cbn.
      destruct (Z.eqb_spec c 0); done.
Qed.

Lemma reverse_edge_Err b a flow cost rg rg' err :
  reverse_edge b a flow cost rg = (rg', Err err) → rg' = rg.
Proof.
  unfold reverse_edge.
  destruct (edge_at rg b a); intros [[_ ?] | (? & _ & ? & _)]%update_inv; done.
Qed.

Lemma reverse_edge_Ok b a flow cost rg rg' :
  reverse_edge b a flow cost rg = (rg', Ok tt) →
  let r := reversed b a flow cost (edge_at rg b a) in
  0 <= getCapacity r ∧
  (∀ x, is_node rg x → is_node rg' x) ∧
  (unique_edges rg → unique_edges rg') ∧
  (∀ P, all_edges P rg → P r → all_edges P rg') ∧
  (∀ x y, edge_at rg' x y = if decide (x = b ∧ y = a) then Some r else edge_at rg x y).
Proof.
  unfold reverse_edge, reversed.
  destruct (edge_at rg b a) as [e4 |] eqn:He4; cbn.
  - intros [[Hset _] | (? & _ & _ & ?)]%update_inv; [| done].
    pose proof Hset as (l0 & e0 & _ & _ & _ & ? & _)%setEdgeCapacity_Ok.
    repeat split.
    + done.
    + intros x. by rewrite (setEdgeCapacity_is_node _ _ _ _ _ _ Hset).
    + by eapply unique_edges_setEdgeCapacity.
    + intros P HP Hr. eapply all_edges_setEdgeCapacity; [done.. |].
      intros e' He'. assert (e' = e4) as -> by congruence. done.
    + intros x y. rewrite (setEdgeCapacity_edge_at _ _ _ _ _ x y Hset).
      case_decide; [by rewrite He4 | done].
  - intros [[Hadd _] | (? & _ & _ & ?)]%update_inv; [| done].
    pose proof Hadd as (_ & _ & _ & _ & _ & ? & _)%addEdge_Ok.
    repeat split.
    + done.
    + intros x ?. rewrite (addEdge_is_node _ _ _ _ _ _ _ Hadd). by left.
    + by eapply unique_edges_addEdge.
    + intros P HP Hr. by eapply all_edges_addEdge.
    + intros x y. by rewrite (addEdge_edge_at _ _ _ _ _ _ x y Hadd).
Qed.

Lemma add_max (x y : Z) : Int.add x y <= Int.max_int.
Proof. apply wrap_in_range. Qed.

Lemma forward_capacity_max e flow : forward_capacity e flow <= Int.max_int.
Proof. unfold forward_capacity. destruct (_ <? _); apply wrap_in_range. Qed.

Lemma forward_capacity_exact e flow :
  int_capacity e → Int.in_range flow →
  getWeight e < 0 ∨ flow <= getCapacity e →
  0 <= forward_capacity e flow →
  forward_capacity e flow =
    if getWeight e <? 0 then getCapacity e + flow else getCapacity e - flow.
Proof.
  unfold forward_capacity, int_capacity. intros Hc Hf Hguard.
  destruct (Z.ltb_spec (getWeight e) 0) as [Hw | Hw].
  - by apply add_exact.
  - destruct Hguard as [? | Hle]; [lia |]. by apply sub_exact.
Qed.

End SendEdge.

(** ** The loop of [SendFlowInPath] *)

Section SendLoop.

Import Graph GraphUtils.

Implicit Types (rg : Graph) (path : list Z) (flow : Z).

Lemma size_sub1_pos {A : Type} (v : list A) :
  v ≠ [] → indexable v → Int.size_sub1 (length v) = Z.of_nat (length v) - 1.
Proof.
  intros Hne Hfit. unfold Int.size_sub1, indexable, Int.max_int in *.
  destruct v; [done |]. cbn [length] in *. apply Z.mod_small. lia.
Qed.

Lemma at_app {A : Type} (pre : list A) (x : A) (rest : list A) :
  at_ (pre ++ x :: rest) (Z.of_nat (length pre)) = Ok x.
Proof.
  unfold at_. destruct (Z.ltb_spec (Z.of_nat (length pre)) 0); [lia |].
  rewrite Nat2Z.id, list_lookup_middle; done.
Qed.

Lemma at_Ok {A : Type} (v : list A) (i : Z) (x : A) :
  at_ v i = Ok x → 0 <= i < Z.of_nat (length v).
Proof.
  unfold at_. destruct (Z.ltb_spec i 0); [done |].
  destruct (v !! Z.to_nat i) eqn:Hl; [| done].
  apply lookup_lt_Some in Hl. lia.
Qed.

Lemma index_next (n : nat) :
  Z.of_nat n + 1 <= Int.max_int →
  Int.wrap (Z.of_nat n + 1) = Z.of_nat (S n) ∧ Int.uwrap (Z.of_nat n + 1) = Z.of_nat (S n).
Proof.
  intros Hn. unfold Int.max_int in Hn. split.
  - rewrite wrap_id; [lia |]. unfold Int.in_range, Int.min_int, Int.max_int. lia.
  - unfold Int.uwrap. rewrite Z.mod_small; lia.
Qed.

Lemma send_at_app pre a b rest flow rg :
  indexable (pre ++ a :: b :: rest) →
  send_at (pre ++ a :: b :: rest) flow (Z.of_nat (length pre)) rg = send_edge a b flow rg.
Proof.
  intros Hfit. unfold send_at, mbind, M_mbind, M_bind, read.
  rewrite at_app.
  destruct (index_next (length pre)) as [-> _].
  { unfold indexable in Hfit. rewrite length_app in Hfit. cbn in Hfit. lia. }
  replace (S (length pre)) with (length (pre ++ [a])) by (rewrite length_app; cbn; lia).
  replace (pre ++ a :: b :: rest) with ((pre ++ [a]) ++ b :: rest) by
    (by rewrite <- app_assoc).
  by rewrite at_app.
Qed.

Lemma send_loop_pairs rest : ∀ pre fuel flow rg,
  rest ≠ [] → (length rest ≤ fuel)%nat → indexable (pre ++ rest) →
  send_loop fuel (pre ++ rest) flow (Z.of_nat (length (pre ++ rest)) - 1)
    (Z.of_nat (length pre)) rg
  = Some (send_pairs (pairs rest) flow rg).
Proof.
  induction rest as [| a rest IH]; [done |]. intros pre fuel flow rg _ Hfuel Hfit.
  destruct rest as [| b rest].
  - destruct fuel; cbn [send_loop pairs send_pairs];
      (destruct (Z.ltb_spec (Z.of_nat (length pre))
                  (Z.of_nat (length (pre ++ [a])) - 1)) as [Hlt | _];
       [rewrite length_app in Hlt; cbn in Hlt; lia | done]).
  - destruct fuel as [| fuel]; [cbn in Hfuel; lia |].
    cbn [send_loop]. cbn [pairs send_pairs].
    destruct (Z.ltb_spec (Z.of_nat (length pre))
                (Z.of_nat (length (pre ++ a :: b :: rest)) - 1)) as [_ | Hge];
      [| rewrite length_app in Hge; cbn in Hge; lia].
    rewrite send_at_app by done.
    destruct (send_edge a b flow rg) as [rg' [[] | err]]; [| done].
    destruct (index_next (length pre)) as [_ ->].
    { unfold indexable in Hfit. rewrite length_app in Hfit. cbn in Hfit. lia. }
    specialize (IH (pre ++ [a]) fuel flow rg').
    rewrite <- app_assoc in IH. cbn [app] in IH.
    replace (length (pre ++ [a])) with (S (length pre)) in IH by
      (rewrite length_app; cbn; lia).
    apply IH; [done | cbn in *; lia | done].
Qed.

(** On a path with at least one node the loop visits the consecutive
    pairs in order. *)
Lemma SendFlowInPath_pairs rg path flow :
  path ≠ [] → indexable path →
  SendFlowInPath rg path flow = Some (send_pairs (pairs path) flow rg).
Proof.
  intros Hne Hfit. unfold SendFlowInPath.
  rewrite size_sub1_pos by done.
  apply (send_loop_pairs path [] (S (length path)) flow rg Hne); [lia | done].
Qed.

(** The iteration budget of the model is never exhausted: an iteration
    that goes through has read [path[u]] and [path[(int)(u + 1)]], so
    neither the [int] nor the [unsigned] index has wrapped. *)
Lemma index_step {A : Type} (path : list A) (u : Z) (a b : A) :
  0 <= u <= Int.max_int → at_ path u = Ok a → at_ path (Int.wrap (u + 1)) = Ok b →
  Int.uwrap (u + 1) = u + 1 ∧ u + 1 < Z.of_nat (length path) ∧ u + 1 <= Int.max_int.
Proof.
  intros Hu Ha Hb. apply at_Ok in Hb.
  assert (u + 1 <= Int.max_int) as Hmax.
  { destruct (Z_le_gt_dec (u + 1) Int.max_int) as [? | Hgt]; [done | exfalso].
    assert (u + 1 = 2 ^ 31) as Heq by (unfold Int.max_int in *; lia).
    assert (Int.wrap (2 ^ 31) = - 2 ^ 31) as Hwrap by (vm_compute; reflexivity).
    rewrite Heq, Hwrap in Hb. lia. }
  rewrite wrap_id in Hb by (unfold Int.in_range, Int.min_int, Int.max_int in *; lia).
  split_and!; [| lia | done].
  unfold Int.uwrap. rewrite Z.mod_small; [done |]. unfold Int.max_int in *. lia.
Qed.

Lemma send_loop_total fuel : ∀ path flow bound u rg,
  0 <= u <= Z.of_nat (length path) → u <= Int.max_int →
  Z.of_nat (length path) + 1 <= u + Z.of_nat fuel →
  is_Some (send_loop fuel path flow bound u rg).
Proof.
  induction fuel as [| fuel IH]; intros path flow bound u rg Hu Hmax Hfuel; [lia |].
  cbn [send_loop]. destruct (u <? bound); [| eauto].
  destruct (send_at path flow u rg) as [rg' [[] | err]] eqn:Hat; [| eauto].
  unfold send_at in Hat.
  apply M_bind_inv in Hat as [(? & _ & ?) | (a & s1 & [-> Ha]%read_inv & Hat)]; [done |].
  apply M_bind_inv in Hat as [(? & _ & ?) | (b & s2 & [-> Hb]%read_inv & Hat)]; [done |].
  destruct (index_step path u a b) as (-> & ? & ?); [lia | done.. |].
  apply IH; lia.
Qed.

Lemma SendFlowInPath_total rg path flow : is_Some (SendFlowInPath rg path flow).
Proof. apply send_loop_total; unfold Int.max_int; lia. Qed.

End SendLoop.


(** ** Loops over containers, fresh graphs *)

Section Loops.

Import Graph.

Lemma foldM_invariant {A S : Type} (I : S → Prop) (f : S → A → result S) (l : list A) :
  (∀ s a s', a ∈ l → I s → f s a = Ok s' → I s') →
  ∀ s s', I s → foldM f s l = Ok s' → I s'.
Proof.
  induction l as [| a l IH]; intros Hstep s s' Hs; cbn.
  - by intros [= <-].
  - destruct (f s a) as [s1 |] eqn:Hf; cbn; [| done].
    apply IH.
    + intros s0 a0 s0' Hin. apply Hstep. by right.
    + eapply Hstep; [by left | done..].
Qed.

Lemma foldM_app {A S : Type} (f : S → A → result S) (l1 l2 : list A) (s : S) :
  foldM f s (l1 ++ l2) = (s1 ← foldM f s l1; foldM f s1 l2).
Proof.
  revert s. induction l1 as [| a l1 IH]; intros s; cbn; [done |].
  destruct (f s a); cbn; [apply IH | done].
Qed.

Lemma all_edges_Forall (P : Edge → Prop) (gr : Graph) :
  all_edges P gr ↔ map_Forall (λ _ l, Forall P l) (g gr).
Proof.
  unfold all_edges, map_Forall. split.
  - intros H s l Hl. apply Forall_forall. eauto.
  - intros H s l e Hl Hin. specialize (H s l Hl). by eapply Forall_forall in H.
Qed.

Lemma all_edges_check (P : Edge → Prop) `{!∀ e, Decision (P e)} (gr : Graph) :
  bool_decide (map_Forall (λ _ l, Forall P l) (g gr)) = true → all_edges P gr.
Proof. intros Hb%bool_decide_eq_true. by apply all_edges_Forall. Qed.

Lemma unique_edges_check (gr : Graph) : bool_decide (unique_edges gr) = true → unique_edges gr.
Proof. by intros Hb%bool_decide_eq_true. Qed.

Lemma dense_check (gr : Graph) :
  bool_decide (dom (g gr) = list_to_set (C := gset Z) (seqZ 0 (getNumNodes gr))) = true →
  dense gr.
Proof.
  intros Hdom%bool_decide_eq_true k. unfold is_node.
  rewrite <- elem_of_dom, Hdom, elem_of_list_to_set, elem_of_seqZ. lia.
Qed.

Lemma new_keys (l : list Z) : ((λ i : Z, (i, @nil Edge)) <$> l).*1 = l.
Proof. induction l as [| k l IH]; csimpl; [done | by rewrite IH]. Qed.

Lemma new_lookup (n k : Z) :
  g (Graph.new n) !! k = if decide (0 <= k < n) then Some [] else None.
Proof.
  unfold Graph.new; cbn. case_decide as Hk.
  - apply elem_of_list_to_map.
    + rewrite new_keys. apply NoDup_seqZ.
    + apply list_elem_of_fmap. exists k. split; [done |]. apply elem_of_seqZ. lia.
  - apply not_elem_of_list_to_map. rewrite new_keys, elem_of_seqZ. lia.
Qed.

Lemma new_size (n : Z) : 0 <= n → getNumNodes (Graph.new n) = n.
Proof.
  intros Hn. unfold getNumNodes, Graph.new; cbn.
  rewrite map_size_list_to_map.
  - rewrite length_fmap, length_seqZ. lia.
  - rewrite new_keys. apply NoDup_seqZ.
Qed.

Lemma new_all_edges (P : Edge → Prop) (n : Z) : all_edges P (Graph.new n).
Proof.
  intros s l e. rewrite new_lookup. case_decide; [| done].
  intros [= <-]. by intros ?%not_elem_of_nil.
Qed.

Lemma new_unique_edges (n : Z) : unique_edges (Graph.new n).
Proof.
  intros s l. rewrite new_lookup. case_decide; [| done].
  intros [= <-]. apply NoDup_nil_2.
Qed.

Lemma new_edge_at (n s t : Z) : edge_at (Graph.new n) s t = None.
Proof. unfold edge_at. rewrite new_lookup. by case_decide. Qed.

End Loops.

(** ** Capacities stay positive *)

Section PositiveCapacities.

Import Graph GraphUtils.

Lemma residual_edge_all_edges (P : Edge → Prop) graph source rg e rg' :
  (0 < getCapacity e → ∀ s t, P (mkEdge s t (getCapacity e) (getWeight e))) →
  all_edges P rg → residual_edge graph source rg e = Ok rg' → all_edges P rg'.
Proof.
  intros HP Hrg. unfold residual_edge.
  destruct (Z.leb_spec (getCapacity e) 0) as [? | Hpos]; [by intros [= <-] |].
  destruct (if source <? getSink e then hasEdge graph (getSink e) source else Ok false)
    as [[] |]; cbn; [| | done].
  - destruct (addEdge rg source (getNumNodes rg) (getCapacity e) (getWeight e))
      as [rg1 |] eqn:H1; cbn; [| done].
    intros H2. eapply all_edges_addEdge; [exact H2 | | by apply HP].
    eapply all_edges_addEdge; [exact H1 | done | by apply HP].
  - intros H1. eapply all_edges_addEdge; [exact H1 | done | by apply HP].
Qed.

Lemma GetResidualGraph_all_edges (Q : Z → Prop) graph rg :
  all_edges (λ e, Q (getCapacity e)) graph →
  GetResidualGraph graph = Ok rg →
  all_edges (λ e, 0 < getCapacity e ∧ Q (getCapacity e)) rg.
Proof.
  intros HQ. unfold GetResidualGraph.
  apply foldM_invariant; [| apply new_all_edges].
  intros rg0 source rg1 _ Hrg0. unfold residual_node, getNodeAdjList.
  destruct (g graph !! source) as [adj |] eqn:Hadj; cbn; [| done].
  revert rg0 rg1 Hrg0. apply foldM_invariant.
  intros rg0 e rg1 Hin Hrg0. apply residual_edge_all_edges; [| done].
  intros Hpos s t; cbn. split; [done |]. by apply (HQ source adj e).
Qed.

Lemma send_edge_residual_capacity a b flow rg rg' out :
  all_edges residual_capacity rg → 0 < flow <= Int.max_int →
  send_edge a b flow rg = (rg', out) → all_edges residual_capacity rg'.
Proof.
  intros Hrg Hflow Hrun%send_edge_inv.
  inversion Hrun as [| | | e rg1 rg2 rg'' out' Hget Hguard Hset Hrm Hrev]; subst; try done.
  pose proof (forward_update _ _ _ _ _ _ _ Hget Hset Hrm) as (Hc0 & _ & _ & _ & Hall2 & _).
  assert (all_edges residual_capacity rg2) as Hrg2.
  { apply Hall2; [done |]. intros Hne. unfold residual_capacity; cbn.
    pose proof (forward_capacity_max e flow). lia. }
  destruct out as [[] | err]; [| by apply reverse_edge_Err in Hrev as ->].
  apply reverse_edge_Ok in Hrev as (Hr0 & _ & _ & Hall' & _).
  apply Hall'; [done |]. unfold reversed, residual_capacity in *.
  destruct (edge_at rg2 b a) as [r |] eqn:Hr; cbn in *; [| done].
  pose proof (all_edges_edge_at _ _ _ _ _ Hrg2 Hr) as Hcr. cbn in Hcr.
  assert (Int.add (getCapacity r) flow = getCapacity r + flow) as Hex.
  { apply add_exact; [lia | | done].
    unfold Int.in_range, Int.min_int, Int.max_int in *; lia. }
  split; [lia | apply add_max].
Qed.

Lemma send_loop_residual_capacity fuel : ∀ path flow bound u rg rg' out,
  all_edges residual_capacity rg → 0 < flow <= Int.max_int →
  send_loop fuel path flow bound u rg = Some (rg', out) →
  all_edges residual_capacity rg'.
Proof.
  induction fuel as [| fuel IH]; intros path flow bound u rg rg' out Hrg Hflow; cbn.
  - destruct (u <? bound); [done | by intros [= <- <-]].
  - destruct (u <? bound); [| by intros [= <- <-]].
    destruct (send_at path flow u rg) as [rg1 r] eqn:Hat.
    assert (all_edges residual_capacity rg1) as Hrg1.
    { unfold send_at in Hat.
      apply M_bind_inv in Hat as [(? & [-> _]%read_inv & _) | (a & s1 & [-> _]%read_inv & Hat)];
        [done |].
      apply M_bind_inv in Hat as [(? & [-> _]%read_inv & _) | (b & s2 & [-> _]%read_inv & Hat)];
        [done |].
      by eapply send_edge_residual_capacity. }
    destruct r as [[] | err]; [by apply IH | by intros [= <- <-]].
Qed.

(** C8: every edge of the graph [GetResidualGraph] builds has a positive
    capacity, and a call of [SendFlowInPath] with a positive flow, however
    it ends, hands back a graph in which every edge still has one: an
    edge whose capacity reaches 0 is gone. *)
Theorem residual_capacities_positive :
  (∀ graph rg, GetResidualGraph graph = Ok rg →
     all_edges (λ e, 0 < getCapacity e) rg) ∧
  (∀ graph rg, all_edges int_capacity graph → GetResidualGraph graph = Ok rg →
     all_edges residual_capacity rg) ∧
  (∀ rg path flow,
     all_edges residual_capacity rg → 0 < flow <= Int.max_int →
     ∃ rg' out, SendFlowInPath rg path flow = Some (rg', out) ∧
                all_edges residual_capacity rg').
Proof.
  split_and!.
  - intros graph rg H s l e Hl Hin.
    by apply (GetResidualGraph_all_edges (λ _, True) graph rg (λ _ _ _ _ _, I) H s l e Hl Hin).
  - intros graph rg Hgraph H s l e Hl Hin.
    destruct (GetResidualGraph_all_edges (λ c, 0 <= c <= Int.max_int) graph rg Hgraph H
                s l e Hl Hin) as [? [? ?]].
    done.
  - intros rg path flow Hrg Hflow.
    destruct (SendFlowInPath_total rg path flow) as [[rg' out] Hrun].
    exists rg', out. split; [done |].
    by eapply send_loop_residual_capacity.
Qed.

Lemma residual_capacities_positive_witness :
  (∃ rg, GetResidualGraph sample_antiparallel = Ok rg ∧
         all_edges residual_capacity rg) ∧
  (∃ rg' out, SendFlowInPath sample_residual [0; 1; 2] 2 = Some (rg', out) ∧
              all_edges residual_capacity rg').
Proof.
  destruct residual_capacities_positive as (_ & Hbuild & Hsend). split.
  - destruct (GetResidualGraph sample_antiparallel) as [rg |] eqn:Hrg;
      [| by vm_compute in Hrg].
    exists rg. split; [done |]. apply (Hbuild sample_antiparallel); [| done].
    apply (all_edges_check int_capacity). by vm_compute.
  - apply Hsend; [| by vm_compute].
    apply (all_edges_check residual_capacity). by vm_compute.
Defined.

End PositiveCapacities.

(** ** Statements on [SendFlowInPath] *)

Section SendFlowClaims.

Import Graph GraphUtils.

Lemma send_edge_exceeds a b flow rg e :
  getEdge rg a b = Ok e → 0 <= getWeight e → getCapacity e < flow →
  send_edge a b flow rg = (rg, Err InvalidArgument).
Proof.
  intros Hget Hw Hc.
  unfold send_edge, mbind, M_mbind, M_bind, read, throw. rewrite Hget.
  destruct (Z.ltb_spec (getWeight e) 0); [lia |]. rewrite Hget.
  destruct (Z.ltb_spec (getCapacity e) flow); [done | lia].
Qed.

Lemma send_edge_Ok_view a b flow rg rg' e :
  getEdge rg a b = Ok e → unique_edges rg → all_edges int_capacity rg →
  Int.in_range flow →
  send_edge a b flow rg = (rg', Ok tt) →
  let c' := if getWeight e <? 0 then getCapacity e + flow else getCapacity e - flow in
  (getWeight e < 0 ∨ flow <= getCapacity e) ∧ 0 <= c' ∧
  (∀ x, is_node rg x → is_node rg' x) ∧
  unique_edges rg' ∧ all_edges int_capacity rg' ∧
  (∀ x y, edge_at rg' x y =
     if decide (x = b ∧ y = a)
     then Some match forward_view a b c' e rg b a with
               | None => mkEdge b a flow (Int.neg (getWeight e))
               | Some r => with_capacity (getCapacity r + flow) r
               end
     else forward_view a b c' e rg x y).
Proof.
  intros Hget Hu Hcap Hflow Hrun%send_edge_inv.
  inversion Hrun as [| | | e' rg1 rg2 rg'' out' Hget' Hguard Hset Hrm Hrev]; subst.
  assert (e' = e) as -> by congruence.
  pose proof (forward_update _ _ _ _ _ _ _ Hget Hset Hrm)
    as (Hc0 & Hnodes & _ & Hu2 & Hall2 & Hview).
  specialize (Hu2 Hu). specialize (Hview Hu).
  assert (int_capacity e) as Hie.
  { apply getEdge_Ok in Hget as (_ & _ & He). by eapply all_edges_edge_at. }
  pose proof (forward_capacity_exact e flow Hie Hflow Hguard Hc0) as Hexact.
  assert (all_edges int_capacity rg2) as Hcap2.
  { apply Hall2; [done |]. intros _. unfold int_capacity, with_capacity; cbn.
    split; [done |]. apply forward_capacity_max. }
  apply reverse_edge_Ok in Hrev as (Hr0 & Hnodes' & Hu' & Hall' & Hview').
  set (old := edge_at rg2 b a) in *.
  assert (int_capacity (reversed b a flow (Int.neg (getWeight e)) old)) as Hir.
  { unfold int_capacity. split; [done |].
    unfold reversed. destruct old; cbn; [apply add_max |].
    apply Hflow. }
  assert (reversed b a flow (Int.neg (getWeight e)) old =
          match old with
          | None => mkEdge b a flow (Int.neg (getWeight e))
          | Some r => with_capacity (getCapacity r + flow) r
          end) as Hreq.
  { unfold reversed in *. destruct old as [r |] eqn:Hold; [| done].
    cbn in Hr0. rewrite add_exact; [done | | done | done].
    eapply (all_edges_edge_at int_capacity rg2 b a); done. }
  cbn zeta. rewrite <- Hexact. split_and!; try done.
  - intros x Hx. apply Hnodes', Hnodes, Hx.
  - by apply Hu'.
  - by apply Hall'.
  - intros x y. rewrite Hview'. rewrite <- !Hview. fold old. by rewrite Hreq.
Qed.

Lemma capacity_of_nonneg (rg : Graph) a b : all_edges int_capacity rg → 0 <= capacity_of rg a b.
Proof.
  intros Hcap. unfold capacity_of, capacity_of_view.
  destruct (edge_at rg a b) as [e |] eqn:He; cbn; [| done].
  by destruct (all_edges_edge_at _ _ _ _ _ Hcap He).
Qed.

(** When one iteration goes through. *)
Lemma send_edge_succeeds a b flow (rg : Graph) :
  dense rg → unique_edges rg → all_edges int_capacity rg → 0 <= flow → a ≠ b →
  sendable rg flow a b → ∃ rg', send_edge a b flow rg = (rg', Ok tt).
Proof.
  intros Hdense Hu Hcap Hflow Hab (e & Hget & Hfwd & Hrev).
  destruct (send_edge a b flow rg) as [rg' [[] | err]] eqn:Hrun; [eauto | exfalso].
  pose proof Hget as (Ha & Hb & He)%getEdge_Ok.
  pose proof (all_edges_edge_at _ _ _ _ _ Hcap He) as [Hc0 Hcmax].
  pose proof (capacity_of_nonneg rg b a Hcap) as Hba0.
  assert (forward_capacity e flow =
          if getWeight e <? 0 then getCapacity e + flow else getCapacity e - flow) as Hexact.
  { unfold forward_capacity, Int.add, Int.sub.
    destruct (getWeight e <? 0); apply wrap_id;
      unfold Int.in_range, Int.min_int, Int.max_int in *; lia. }
  apply send_edge_inv in Hrun.
  inversion Hrun as [err' Hget' | e' Hget' Hw Hlt | e' Hget' Hguard Hneg
                     | e' rg1 rg2 rg'' out' Hget' Hguard Hset Hrm Hrev']; subst.
  - congruence.
  - assert (e' = e) as -> by congruence.
    destruct (Z.ltb_spec (getWeight e) 0); lia.
  - assert (e' = e) as -> by congruence.
    rewrite Hexact in Hneg. destruct (Z.ltb_spec (getWeight e) 0); lia.
  - assert (e' = e) as -> by congruence.
    pose proof (forward_update _ _ _ _ _ _ _ Hget Hset Hrm)
      as (_ & Hnodes & Hsize & _ & _ & Hview).
    specialize (Hview Hu).
    assert (edge_at rg2 b a = edge_at rg b a) as Hsame.
    { rewrite Hview. unfold forward_view. rewrite decide_False; [done |].
      intros [-> _]. done. }
    unfold reverse_edge in Hrev'. rewrite Hsame in Hrev'.
    destruct (edge_at rg b a) as [e4 |] eqn:He4.
    + apply update_inv in Hrev' as [[_ ?] | (err' & Hfail & _)]; [done |].
      assert (∃ rg3, setEdgeCapacity rg2 b a (Int.add (getCapacity e4) flow) = Ok rg3)
        as [rg3 Hok]; [| congruence].
      assert (is_Some (g rg2 !! b)) as [l Hl] by (by apply Hnodes).
      eexists. apply setEdgeCapacity_Ok. exists l, e4. split_and!; [done | | | | done].
      * by apply Hnodes.
      * unfold edge_at in Hsame, He4. rewrite Hl in Hsame. cbn in Hsame. congruence.
      * unfold capacity_of in Hrev. rewrite He4 in Hrev. cbn in Hrev.
        pose proof (all_edges_edge_at _ _ _ _ _ Hcap He4) as [? ?].
        unfold Int.add. rewrite wrap_id; [lia |].
        unfold Int.in_range, Int.min_int, Int.max_int in *. lia.
    + apply update_inv in Hrev' as [[_ ?] | (err' & Hfail & _)]; [done |].
      assert (∃ rg3, addEdge rg2 b a flow (Int.neg (getWeight e)) = Ok rg3)
        as [rg3 Hok]; [| congruence].
      apply Hdense in Ha, Hb.
      eexists. apply addEdge_Ok. rewrite Hsize, Hsame.
      split_and!; [lia.. | done | done | done].
Qed.

Lemma send_edge_no_edge a b flow rg err :
  getEdge rg a b = Err err → send_edge a b flow rg = (rg, Err err).
Proof.
  intros Hget. unfold send_edge, mbind, M_mbind, M_bind, read. by rewrite Hget.
Qed.

(** C4: on a non-empty path [SendFlowInPath] runs its loop body on the
    consecutive pairs in order.  On a graph with dense node ids, one edge
    per ordered pair and [int] capacities, for a flow between 0 and the
    largest [int] and a pair (a,b) of two nodes: when [getEdge] throws for
    (a,b), the call throws the same exception, the graph untouched; when
    the edge [e] from a to b has a non-negative cost and a capacity below
    [flow], the call fails with InvalidArgument, the graph untouched;
    otherwise, unless a capacity would leave the range of [int], the
    iteration goes through and leaves a->b with capacity [cap + flow]
    (negative cost) or [cap - flow], the edge removed when that is 0;
    b->a is created with capacity [flow] and the negated cost when it was
    absent, and has its capacity raised by [flow], its cost kept, when it
    was present; no other edge changes. *)
Theorem SendFlowInPath_pair_update (rg : Graph) (path : list Z) (flow : Z) :
  path ≠ [] → indexable path →
  SendFlowInPath rg path flow = Some (send_pairs (pairs path) flow rg) ∧
  ∀ a b rg0,
    dense rg0 → unique_edges rg0 → all_edges int_capacity rg0 →
    0 <= flow <= Int.max_int → a ≠ b →
    (∀ err, getEdge rg0 a b = Err err → send_edge a b flow rg0 = (rg0, Err err)) ∧
    ∀ e, getEdge rg0 a b = Ok e →
      (0 <= getWeight e → getCapacity e < flow →
       send_edge a b flow rg0 = (rg0, Err InvalidArgument)) ∧
      ((if getWeight e <? 0 then getCapacity e + flow <= Int.max_int
        else flow <= getCapacity e) →
       capacity_of rg0 b a + flow <= Int.max_int →
       let c' := if getWeight e <? 0 then getCapacity e + flow
                 else getCapacity e - flow in
       ∃ rg', send_edge a b flow rg0 = (rg', Ok tt) ∧
         ∀ x y, edge_at rg' x y =
           if decide (x = a ∧ y = b)
           then (if c' =? 0 then None else Some (with_capacity c' e))
           else if decide (x = b ∧ y = a)
           then Some match edge_at rg0 b a with
                     | None => mkEdge b a flow (Int.neg (getWeight e))
                     | Some r => with_capacity (getCapacity r + flow) r
                     end
           else edge_at rg0 x y).
Proof.
  intros Hne Hfit. split; [by apply SendFlowInPath_pairs |].
  intros a b rg0 Hdense Hu Hcap Hflow Hab.
  split; [intros err Hget; by apply send_edge_no_edge |].
  intros e Hget. split; [by apply send_edge_exceeds |].
  intros Hfwd Hrev. cbn zeta.
  destruct (send_edge_succeeds a b flow rg0) as [rg' Hrun]; [done | done | done | lia | done | |].
  { exists e. split_and!; done. }
  exists rg'. split; [done |].
  assert (Int.in_range flow) as Hrange.
  { unfold Int.in_range, Int.min_int, Int.max_int in *. lia. }
  pose proof (send_edge_Ok_view _ _ _ _ _ _ Hget Hu Hcap Hrange Hrun)
    as (_ & _ & _ & _ & _ & Hview).
  cbn zeta in Hview. intros x y. rewrite Hview. unfold forward_view.
  destruct (decide (x = a ∧ y = b)) as [[-> ->] | Hxy].
  - rewrite decide_False by (intros [? ?]; done). done.
  - destruct (decide (x = b ∧ y = a)) as [[-> ->] | Hyx]; [| done].
    rewrite decide_False by (intros [? ?]; done). done.
Qed.

Lemma SendFlowInPath_pair_update_witness :
  SendFlowInPath sample_residual [0; 1; 2] 2
  = Some (send_pairs [(0, 1); (1, 2)] 2 sample_residual) ∧
  ∃ rg', send_edge 0 1 2 sample_residual = (rg', Ok tt) ∧
    edge_at rg' 0 1 = None ∧ edge_at rg' 1 0 = Some (mkEdge 1 0 3 (-1)) ∧
    edge_at rg' 1 2 = Some (mkEdge 1 2 3 1).
Proof.
  destruct (SendFlowInPath_pair_update sample_residual [0; 1; 2] 2) as [Hloop Hstep];
    [done | by vm_compute |].
  split; [exact Hloop |].
  destruct (Hstep 0 1 sample_residual) as [_ Hedge].
  - apply dense_check. by vm_compute.
  - apply unique_edges_check. by vm_compute.
  - apply (all_edges_check int_capacity). by vm_compute.
  - by vm_compute.
  - done.
  - destruct (Hedge (mkEdge 0 1 2 1)) as [_ Hok]; [by vm_compute |].
    destruct Hok as (rg' & Hrun & Hview); [by vm_compute.. |].
    exists rg'. split; [exact Hrun |].
    rewrite !Hview. by vm_compute.
Defined.

(** C4 as stated fails.  On the graph built from 0->1 (capacity 5, cost 1)
    and 1->0 (capacity 2, cost 7), sending 1 along 0,1 returns normally
    and leaves the reverse edge 1->0 with capacity 3 and its cost 7, which
    is not the negation of the cost of the traversed edge. *)
Lemma SendFlowInPath_reverse_cost_kept :
  (rg0 ← addEdge (Graph.new 2) 0 1 5 1; addEdge rg0 1 0 2 7) = Ok sample_costly_reverse ∧
  ∃ rg', SendFlowInPath sample_costly_reverse [0; 1] 1 = Some (rg', Ok tt) ∧
         edge_at rg' 0 1 = Some (mkEdge 0 1 4 1) ∧
         edge_at rg' 1 0 = Some (mkEdge 1 0 3 7) ∧
         7 ≠ Int.neg 1.
Proof.
  split; [by vm_compute |].
  destruct (SendFlowInPath sample_costly_reverse [0; 1] 1) as [[rg' [[] | err]] |] eqn:Hrun;
    [| by vm_compute in Hrun..].
  exists rg'. split; [done |].
  vm_compute in Hrun. injection Hrun as <-. by vm_compute.
Qed.

Lemma capacity_of_forward_view a b c e rg x y :
  capacity_of_view (forward_view a b c e rg x y) =
    if decide (x = a ∧ y = b) then c else capacity_of rg x y.
Proof.
  unfold forward_view, capacity_of_view, capacity_of. case_decide; [| done].
  destruct (Z.eqb_spec c 0); cbn; done.
Qed.

(** What one successful iteration does to the capacities. *)
Lemma send_edge_capacities a b flow rg rg' :
  unique_edges rg → all_edges int_capacity rg → Int.in_range flow →
  send_edge a b flow rg = (rg', Ok tt) → a ≠ b →
  unique_edges rg' ∧ all_edges int_capacity rg' ∧
  (∀ x y, ¬ (x = a ∧ y = b) → ¬ (x = b ∧ y = a) → edge_at rg' x y = edge_at rg x y) ∧
  (is_forward rg a b = true →
   capacity_of rg' a b = capacity_of rg a b - flow ∧
   capacity_of rg' b a = capacity_of rg b a + flow).
Proof.
  intros Hu Hcap Hflow Hrun Hab.
  pose proof (send_edge_inv _ _ _ _ _ _ Hrun) as Hinv.
  assert (∃ e, getEdge rg a b = Ok e) as [e Hget].
  { inversion Hinv; eauto. }
  pose proof (send_edge_Ok_view _ _ _ _ _ _ Hget Hu Hcap Hflow Hrun)
    as (Hguard & Hc & _ & Hu' & Hcap' & Hview).
  cbn zeta in *. split_and!; try done.
  - intros x y Hxy Hyx. rewrite Hview. rewrite decide_False by done.
    unfold forward_view. by rewrite decide_False.
  - pose proof Hget as (_ & _ & He)%getEdge_Ok.
    unfold is_forward. rewrite He. intros Hw%Z.leb_le.
    destruct (Z.ltb_spec (getWeight e) 0) as [? | _]; [lia |].
    unfold capacity_of at 1 3. rewrite !Hview.
    rewrite (decide_False (P := a = b ∧ b = a)) by (intros [? _]; done).
    rewrite decide_True by done.
    fold (capacity_of_view (forward_view a b (getCapacity e - flow) e rg a b)).
    rewrite capacity_of_forward_view, decide_True by done.
    split; [unfold capacity_of; by rewrite He |].
    unfold forward_view. rewrite decide_False by (intros [? _]; done).
    unfold capacity_of. destruct (edge_at rg b a); cbn; lia.
Qed.

Lemma send_pairs_frame ps : ∀ flow rg rg',
  unique_edges rg → all_edges int_capacity rg → Int.in_range flow →
  send_pairs ps flow rg = (rg', Ok tt) → edge_disjoint ps →
  unique_edges rg' ∧ all_edges int_capacity rg' ∧
  ∀ x y, (x, y) ∉ ps → (y, x) ∉ ps → edge_at rg' x y = edge_at rg x y.
Proof.
  induction ps as [| [a b] ps IH]; intros flow rg rg' Hu Hcap Hflow; cbn.
  - by intros [= <-] _.
  - destruct (send_edge a b flow rg) as [rg1 [[] | err]] eqn:Hstep; [| done].
    intros Hrest (Hab & _ & _ & Hdis).
    destruct (send_edge_capacities _ _ _ _ _ Hu Hcap Hflow Hstep Hab)
      as (Hu1 & Hcap1 & Hframe & _).
    destruct (IH flow rg1 rg' Hu1 Hcap1 Hflow Hrest Hdis) as (Hu' & Hcap' & Hframe').
    split_and!; try done.
    intros x y Hxy%not_elem_of_cons Hyx%not_elem_of_cons.
    destruct Hxy as [Hxy ?], Hyx as [Hyx ?].
    rewrite Hframe' by done. apply Hframe; intros [-> ->]; done.
Qed.

Lemma send_pairs_capacities ps : ∀ flow rg rg',
  unique_edges rg → all_edges int_capacity rg → Int.in_range flow →
  send_pairs ps flow rg = (rg', Ok tt) → edge_disjoint ps →
  ∀ a b, (a, b) ∈ ps → is_forward rg a b = true →
    capacity_of rg' a b = capacity_of rg a b - flow ∧
    capacity_of rg' b a = capacity_of rg b a + flow.
Proof.
  induction ps as [| [a0 b0] ps IH]; intros flow rg rg' Hu Hcap Hflow; cbn.
  - intros _ _ a b Hin. by apply not_elem_of_nil in Hin.
  - destruct (send_edge a0 b0 flow rg) as [rg1 [[] | err]] eqn:Hstep; [| done].
    intros Hrest (Hab & Hn1 & Hn2 & Hdis) a b Hin Hfwd.
    destruct (send_edge_capacities _ _ _ _ _ Hu Hcap Hflow Hstep Hab)
      as (Hu1 & Hcap1 & Hframe & Hhead).
    destruct (send_pairs_frame _ _ _ _ Hu1 Hcap1 Hflow Hrest Hdis) as (_ & _ & Hframe').
    apply elem_of_cons in Hin as [[= -> ->] | Hin].
    + destruct (Hhead Hfwd) as [H1 H2].
      unfold capacity_of in *. rewrite !Hframe' by done. done.
    + assert (¬ (a = a0 ∧ b = b0)) as Hne1 by (intros [-> ->]; done).
      assert (¬ (a = b0 ∧ b = a0)) as Hne2 by (intros [-> ->]; done).
      assert (¬ (b = a0 ∧ a = b0)) as Hne3 by (intros [-> ->]; done).
      assert (¬ (b = b0 ∧ a = a0)) as Hne4 by (intros [-> ->]; done).
      assert (is_forward rg1 a b = true) as Hfwd1.
      { unfold is_forward in *. by rewrite Hframe. }
      destruct (IH flow rg1 rg' Hu1 Hcap1 Hflow Hrest Hdis a b Hin Hfwd1) as [H1 H2].
      unfold capacity_of in *. rewrite <- (Hframe a b), <- (Hframe b a) by done. done.
Qed.

(** C6, amended: when a call of [SendFlowInPath] returns normally and its
    path traverses no pair of nodes twice, every forward (non-negative
    cost) edge of the path has lost exactly [flow] and its reverse edge
    has gained exactly [flow]; so the capacity removed from the forward
    edges equals the capacity added to their reverse edges. *)
Theorem SendFlowInPath_conserves (rg rg' : Graph) (path : list Z) (flow : Z) :
  unique_edges rg → all_edges int_capacity rg → Int.in_range flow →
  indexable path → edge_disjoint (pairs path) →
  SendFlowInPath rg path flow = Some (rg', Ok tt) →
  (∀ a b, (a, b) ∈ pairs path → is_forward rg a b = true →
     capacity_of rg a b - capacity_of rg' a b = flow ∧
     capacity_of rg' b a - capacity_of rg b a = flow) ∧
  capacity_removed rg rg' (pairs path) = capacity_added rg rg' (pairs path).
Proof.
  intros Hu Hcap Hflow Hfit Hdis Hrun.
  assert (path ≠ []) as Hne by (intros ->; done).
  rewrite SendFlowInPath_pairs in Hrun by done. injection Hrun as Hrun.
  pose proof (send_pairs_capacities _ _ _ _ Hu Hcap Hflow Hrun Hdis) as Hall.
  assert (∀ a b, (a, b) ∈ pairs path → is_forward rg a b = true →
            capacity_of rg a b - capacity_of rg' a b = flow ∧
            capacity_of rg' b a - capacity_of rg b a = flow) as Heach.
  { intros a b Hin Hfwd. destruct (Hall a b Hin Hfwd). lia. }
  split; [done |].
  unfold capacity_removed, capacity_added, forward_pairs. f_equal.
  apply list_fmap_ext. intros i [a b] Hi. cbn.
  apply list_elem_of_lookup_2, list_elem_of_In, filter_In in Hi as [Hin Hfwd].
  apply list_elem_of_In in Hin. destruct (Heach a b Hin Hfwd). lia.
Qed.

Lemma SendFlowInPath_conserves_witness :
  ∃ rg', SendFlowInPath sample_residual [0; 1; 2] 2 = Some (rg', Ok tt) ∧
         capacity_removed sample_residual rg' [(0, 1); (1, 2)] = 4 ∧
         capacity_added sample_residual rg' [(0, 1); (1, 2)] = 4.
Proof.
  destruct (SendFlowInPath sample_residual [0; 1; 2] 2) as [[rg' [[] | err]] |] eqn:Hrun;
    [| by vm_compute in Hrun..].
  exists rg'. split; [done |].
  destruct (SendFlowInPath_conserves sample_residual rg' [0; 1; 2] 2) as [_ Heq].
  - apply unique_edges_check. by vm_compute.
  - apply (all_edges_check int_capacity). by vm_compute.
  - by vm_compute.
  - by vm_compute.
  - apply (bool_decide_eq_true_1 _). by vm_compute.
  - exact Hrun.
  - cbn [pairs] in Heq. rewrite <- Heq.
    vm_compute in Hrun. injection Hrun as <-. by vm_compute.
Defined.

(** C6 as stated fails.  On the path 0,1,0 through the edge 0->1 (cost 1)
    and its reverse 1->0 (cost -1) the call returns normally, the forward
    edge 0->1 ends with the capacity it had, and its reverse edge has
    gained 2.  And a call that throws while it raises the reverse edge
    (here 1->0 is at the largest [int]) has already emptied the forward
    edge. *)
Lemma SendFlowInPath_not_conserving :
  (∃ rg', SendFlowInPath sample_two_way [0; 1; 0] 1 = Some (rg', Ok tt) ∧
          capacity_removed sample_two_way rg' (pairs [0; 1; 0]) = 0 ∧
          capacity_added sample_two_way rg' (pairs [0; 1; 0]) = 2 ∧
          capacity_removed sample_two_way rg' (pairs [0; 1; 0])
          ≠ capacity_added sample_two_way rg' (pairs [0; 1; 0])) ∧
  (∃ rg', SendFlowInPath sample_full_reverse [0; 1] 1 = Some (rg', Err InvalidArgument) ∧
          capacity_removed sample_full_reverse rg' (pairs [0; 1]) = 1 ∧
          capacity_added sample_full_reverse rg' (pairs [0; 1]) = 0).
Proof.
  split.
  - destruct (SendFlowInPath sample_two_way [0; 1; 0] 1) as [[rg' [[] | err]] |] eqn:Hrun;
      [| by vm_compute in Hrun..].
    exists rg'. split; [done |].
    vm_compute in Hrun. injection Hrun as <-. by vm_compute.
  - destruct (SendFlowInPath sample_full_reverse [0; 1] 1) as [[rg' [[] | []]] |] eqn:Hrun;
      [by vm_compute in Hrun | | by vm_compute in Hrun..].
    exists rg'. split; [done |].
    vm_compute in Hrun. injection Hrun as <-. by vm_compute.
Qed.

Lemma capacity_loop_pairs rest : ∀ pre fuel rg path_flow,
  rest ≠ [] → (length rest ≤ fuel)%nat → indexable (pre ++ rest) →
  capacity_loop fuel rg (pre ++ rest) (Z.of_nat (length (pre ++ rest)) - 1)
    (Z.of_nat (length pre)) path_flow
  = Some (min_capacity (pairs rest) rg path_flow).
Proof.
  induction rest as [| a rest IH]; [done |]. intros pre fuel rg path_flow _ Hfuel Hfit.
  destruct rest as [| b rest].
  - destruct fuel; cbn [capacity_loop pairs min_capacity];
      (destruct (Z.ltb_spec (Z.of_nat (length pre))
                  (Z.of_nat (length (pre ++ [a])) - 1)) as [Hlt | _];
       [rewrite length_app in Hlt; cbn in Hlt; lia | done]).
  - destruct fuel as [| fuel]; [cbn in Hfuel; lia |].
    cbn [capacity_loop]. cbn [pairs min_capacity].
    destruct (Z.ltb_spec (Z.of_nat (length pre))
                (Z.of_nat (length (pre ++ a :: b :: rest)) - 1)) as [_ | Hge];
      [| rewrite length_app in Hge; cbn in Hge; lia].
    rewrite at_app.
    destruct (index_next (length pre)) as [-> ->].
    { unfold indexable in Hfit. rewrite length_app in Hfit. cbn in Hfit. lia. }
    replace (S (length pre)) with (length (pre ++ [a])) by (rewrite length_app; cbn; lia).
    replace (pre ++ a :: b :: rest) with ((pre ++ [a]) ++ b :: rest) by
      (by rewrite <- app_assoc).
    rewrite at_app. cbn.
    destruct (getEdge rg a b) as [e | err]; cbn; [| done].
    apply IH; [done | cbn in *; lia |].
    by rewrite <- app_assoc.
Qed.

Lemma capacity_loop_total fuel : ∀ rg path bound u path_flow,
  0 <= u <= Z.of_nat (length path) → u <= Int.max_int →
  Z.of_nat (length path) + 1 <= u + Z.of_nat fuel →
  is_Some (capacity_loop fuel rg path bound u path_flow).
Proof.
  induction fuel as [| fuel IH]; intros rg path bound u path_flow Hu Hmax Hfuel; [lia |].
  cbn [capacity_loop]. destruct (u <? bound); [| eauto].
  destruct (at_ path u) as [a |] eqn:Ha; cbn; [| eauto].
  destruct (at_ path (Int.wrap (u + 1))) as [b |] eqn:Hb; cbn; [| eauto].
  destruct (getEdge rg a b); cbn; [| eauto].
  destruct (index_step path u a b) as (-> & ? & ?); [lia | done.. |].
  apply IH; lia.
Qed.

Lemma min_capacity_spec ps : ∀ rg path_flow,
  (∀ a b, (a, b) ∈ ps → ∃ e, getEdge rg a b = Ok e) →
  ∃ m, min_capacity ps rg path_flow = Ok m ∧ m <= path_flow ∧
       (∀ a b, (a, b) ∈ ps → m <= capacity_of rg a b) ∧
       (m = path_flow ∨ ∃ a b, (a, b) ∈ ps ∧ m = capacity_of rg a b).
Proof.
  induction ps as [| [a b] ps IH]; intros rg path_flow Hedges; cbn.
  - exists path_flow. split_and!; [done | lia | | by left].
    intros a b Hin. by apply not_elem_of_nil in Hin.
  - destruct (Hedges a b) as [e He]; [by left |]. rewrite He.
    destruct (IH rg (Z.min path_flow (getCapacity e))) as (m & Hm & Hle & Hall & Hex).
    { intros a' b' Hin. apply Hedges. by right. }
    assert (capacity_of rg a b = getCapacity e) as Hcap.
    { apply getEdge_Ok in He as (_ & _ & He). unfold capacity_of. by rewrite He. }
    exists m. split_and!; [done | lia | |].
    + intros a' b' [[= -> ->] | Hin]%elem_of_cons; [lia | by apply Hall].
    + destruct Hex as [-> | (a' & b' & Hin & ->)].
      * destruct (Z.min_spec path_flow (getCapacity e)) as [[_ ->] | [_ ->]]; [by left |].
        right. exists a, b. split; [by left | done].
      * right. exists a', b'. split; [by right | done].
Qed.

(** C9: [GetResidualCapacity] returns 0 on a path of fewer than two
    nodes; on a longer path all of whose consecutive pairs are edges of
    the graph it returns the least capacity found on these pairs. *)
Theorem GetResidualCapacity_minimum (rg : Graph) (path : list Z) :
  ((length path < 2)%nat → GetResidualCapacity rg path = Some (Ok 0)) ∧
  ((2 ≤ length path)%nat → indexable path → all_edges int_capacity rg →
   (∀ a b, (a, b) ∈ pairs path → ∃ e, getEdge rg a b = Ok e) →
   ∃ m, GetResidualCapacity rg path = Some (Ok m) ∧
        (∀ a b, (a, b) ∈ pairs path → m <= capacity_of rg a b) ∧
        (∃ a b, (a, b) ∈ pairs path ∧ m = capacity_of rg a b)).
Proof.
  unfold GetResidualCapacity. split.
  - intros Hlen. destruct (Nat.leb_spec (length path) 1); [done | lia].
  - intros Hlen Hfit Hcap Hedges.
    destruct (Nat.leb_spec (length path) 1); [lia |].
    assert (path ≠ []) as Hne by (intros ->; cbn in *; lia).
    rewrite size_sub1_pos by done.
    pose proof (capacity_loop_pairs path [] (S (length path)) rg Int.max_int Hne) as Hloop.
    change ([] ++ path) with path in Hloop.
    change (Z.of_nat (length (@nil Z))) with 0 in Hloop.
    rewrite Hloop by (done || lia). clear Hloop.
    destruct (min_capacity_spec (pairs path) rg Int.max_int Hedges)
      as (m & -> & Hle & Hall & Hex).
    exists m. split_and!; [done.. |].
    destruct Hex as [-> | ?]; [| done].
    destruct path as [| a [| b rest]]; [cbn in *; lia.. |].
    exists a, b. split; [by left |].
    specialize (Hall a b (list_elem_of_here _ _)).
    destruct (Hedges a b) as [e He]; [by left |].
    apply getEdge_Ok in He as (_ & _ & He).
    pose proof (all_edges_edge_at _ _ _ _ _ Hcap He) as [_ Hmax].
    unfold capacity_of in *. rewrite He in *. cbn in *. lia.
Qed.

Lemma GetResidualCapacity_minimum_witness :
  GetResidualCapacity sample_residual [0] = Some (Ok 0) ∧
  GetResidualCapacity sample_residual [0; 1; 2] = Some (Ok 2).
Proof.
  split.
  - apply (GetResidualCapacity_minimum sample_residual [0]). cbn. lia.
  - destruct (GetResidualCapacity_minimum sample_residual [0; 1; 2]) as [_ Hmin].
    destruct Hmin as (m & Hm & _ & _).
    + cbn. lia.
    + by vm_compute.
    + apply (all_edges_check int_capacity). by vm_compute.
    + intros a b Hin. cbn in Hin.
      apply elem_of_cons in Hin as [[= -> ->] | Hin]; [eexists; by vm_compute |].
      apply elem_of_cons in Hin as [[= -> ->] | Hin]; [eexists; by vm_compute |].
      by apply not_elem_of_nil in Hin.
    + rewrite Hm. vm_compute in Hm. by injection Hm as <-.
Defined.

(** C10: an empty path makes the loop bound [size() - 1] wrap to
    2^64 - 1, so the first iteration reads [path.at(0)] out of range and
    the call ends with that exception, the graph untouched; a one-node
    path runs no iteration and leaves the graph as it is;
    [GetResidualCapacity] returns 0 in both cases. *)
Theorem SendFlowInPath_short_paths (rg : Graph) (flow x : Z) :
  Int.size_sub1 (length (@nil Z)) = 2 ^ 64 - 1 ∧
  SendFlowInPath rg [] flow = Some (rg, Err OutOfRange) ∧
  SendFlowInPath rg [x] flow = Some (rg, Ok tt) ∧
  GetResidualCapacity rg [] = Some (Ok 0) ∧
  GetResidualCapacity rg [x] = Some (Ok 0).
Proof. repeat split. Qed.

End SendFlowClaims.

(** ** [RetrievePath] *)

Section RetrievePath.

Import Graph GraphUtils.

Implicit Types (parent w p : list Z).

Lemma elem_of_pairs (l : list Z) a b :
  (a, b) ∈ pairs l ↔ ∃ i, l !! i = Some a ∧ l !! S i = Some b.
Proof.
  induction l as [| x l IH]; cbn.
  - split; [by intros ?%not_elem_of_nil | by intros (i & ? & _)].
  - destruct l as [| y l].
    + split; [by intros ?%not_elem_of_nil | by intros ([| i] & ? & ?)].
    + rewrite elem_of_cons, IH. split.
      * intros [[= -> ->] | (i & ? & ?)]; [by exists 0%nat | by exists (S i)].
      * intros ([| i] & Hi & Hi'); cbn in *; [left; congruence | right; eauto].
Qed.

Lemma NoDup_reverse_2 (l : list Z) : NoDup l → NoDup (reverse l).
Proof. by rewrite reverse_Permutation. Qed.

Lemma walk_length parent w : walk parent w → (length w ≤ length parent)%nat.
Proof.
  intros (Hnd & Hrange & _).
  assert (w ⊆+ seqZ 0 (Z.of_nat (length parent))) as Hsub.
  { apply NoDup_submseteq; [done |]. intros x Hx. apply elem_of_seqZ.
    specialize (Hrange x Hx). lia. }
  apply submseteq_length in Hsub. rewrite length_seqZ in Hsub. lia.
Qed.

Lemma walk_snoc parent w x tmp :
  walk parent w → last w = Some x → at_ parent x = Ok tmp → tmp ∉ w →
  0 <= tmp < Z.of_nat (length parent) → walk parent (w ++ [tmp]).
Proof.
  intros (Hnd & Hrange & Hchain) Hlast Hat Hnew Htmp. split_and!.
  - apply NoDup_app. split_and!; [done | | apply NoDup_singleton].
    intros y Hy ->%list_elem_of_singleton. done.
  - intros y [Hy | ->%list_elem_of_singleton]%elem_of_app; [by apply Hrange | done].
  - intros i y z Hy Hz.
    apply lookup_snoc_Some in Hz as [[Hi Hz] | [Hi <-]].
    + rewrite lookup_app_l in Hy by lia. eauto.
    + rewrite lookup_app_l in Hy by lia.
      rewrite last_lookup in Hlast. rewrite <- Hi in Hlast. cbn in Hlast.
      congruence.
Qed.

Lemma retrieve_loop_spec parent fuel : ∀ w x tmp,
  walk parent w → last w = Some x → at_ parent x = Ok tmp →
  (length parent + 1 ≤ fuel + length w)%nat →
  ∃ r, retrieve_loop fuel parent w tmp = Some r ∧
       match r with
       | Err e => e = OutOfRange
       | Ok w' =>
           walk parent w' ∧ w' !! 0%nat = w !! 0%nat ∧
           ∃ x' t, last w' = Some x' ∧ at_ parent x' = Ok t ∧ (t = -1 ∨ t ∈ w')
       end.
Proof.
  induction fuel as [| fuel IH]; intros w x tmp Hw Hlast Hat Hfuel.
  - pose proof (walk_length _ _ Hw). lia.
  - cbn [retrieve_loop].
    destruct (Z.eqb_spec tmp (-1)) as [-> | Hne]; cbn.
    { eexists. split; [done |]. split_and!; [done.. |]. exists x, (-1). auto. }
    destruct (decide (tmp ∈ w)) as [Hin | Hnin].
    { rewrite bool_decide_eq_true_2 by done. cbn.
      eexists. split; [done |]. split_and!; [done.. |]. exists x, tmp. auto. }
    rewrite bool_decide_eq_false_2 by done. cbn.
    destruct (at_ parent tmp) as [tmp' | err] eqn:Hat'.
    + pose proof (at_Ok _ _ _ Hat') as Htmp.
      pose proof (walk_snoc _ _ _ _ Hw Hlast Hat Hnin Htmp) as Hw'.
      destruct (IH (w ++ [tmp]) tmp tmp' Hw' (last_snoc _ _) Hat') as (r & -> & Hr).
      { rewrite length_app. cbn. lia. }
      exists r. split; [done |]. destruct r as [w' | e]; [| done].
      destruct Hr as (? & H0 & ?). split_and!; [done | | done].
      rewrite H0. apply lookup_app_l.
      destruct w; [done | cbn; lia].
    + eexists. split; [done |]. cbn.
      unfold at_ in Hat'. destruct (tmp <? 0); [congruence |].
      destruct (parent !! Z.to_nat tmp); congruence.
Qed.




End RetrievePath.

(** ** [GetResidualGraph] *)

Section ResidualGraph.

Import Graph GraphUtils.

Lemma foldM_fmap {A B S : Type} (f : S → B → result S) (h : A → B) (l : list A) (s : S) :
  foldM f s (h <$> l) = foldM (λ s a, f s (h a)) s l.
Proof.
  revert s. induction l as [| a l IH]; intros s; csimpl; [done |].
  destruct (f s (h a)); cbn; [apply IH | done].
Qed.

Lemma foldM_prefix_invariant {A S : Type} (I : S → list A → Prop)
    (f : S → A → result S) (l : list A) :
  (∀ s done a s', (done ++ [a]) `prefix_of` l → I s done → f s a = Ok s' →
                   I s' (done ++ [a])) →
  ∀ s s', I s [] → foldM f s l = Ok s' → I s' l.
Proof.
  intros Hstep.
  assert (∀ rest done s s', l = done ++ rest → I s done →
            foldM f s rest = Ok s' → I s' l) as Hgen.
  { induction rest as [| a rest IH]; intros done s s' Hl Hs; cbn.
    - intros [= <-]. by rewrite Hl, app_nil_r.
    - destruct (f s a) as [s1 |] eqn:Hf; cbn; [| done].
      apply (IH (done ++ [a])).
      + by rewrite <- app_assoc.
      + eapply Hstep; [| done..]. exists rest. by rewrite <- app_assoc. }
  intros s s'. by apply (Hgen l []).
Qed.

Lemma residual_node_entries graph rg0 s rg1 :
  residual_node graph rg0 s = Ok rg1 →
  foldM (residual_entry graph) rg0 ((λ e, (s, e)) <$> adj_of graph s) = Ok rg1.
Proof.
  unfold residual_node, getNodeAdjList, adj_of.
  destruct (g graph !! s) as [adj |]; cbn; [| done].
  by rewrite foldM_fmap.
Qed.

Lemma GetResidualGraph_entries graph rg :
  GetResidualGraph graph = Ok rg →
  foldM (residual_entry graph) (Graph.new (getNumNodes graph)) (entries graph) = Ok rg.
Proof.
  unfold GetResidualGraph, entries.
  generalize (Graph.new (getNumNodes graph)) as rg0.
  induction (seqZ 0 (getNumNodes graph)) as [| s l IH]; intros rg0; [done |].
  cbn [foldM]. rewrite bind_cons, foldM_app.
  destruct (residual_node graph rg0 s) as [rg1 |] eqn:Hnode; cbn; [| done].
  rewrite (residual_node_entries _ _ _ _ Hnode). cbn. apply IH.
Qed.

Lemma elem_of_entries graph s e :
  (s, e) ∈ entries graph ↔ 0 <= s < getNumNodes graph ∧ e ∈ adj_of graph s.
Proof.
  unfold entries. rewrite list_elem_of_bind. split.
  - intros (s' & (e' & [= -> ->] & He)%list_elem_of_fmap & Hs%elem_of_seqZ).
    split; [lia | done].
  - intros [Hs He]. exists s. split.
    + apply list_elem_of_fmap. eauto.
    + apply elem_of_seqZ. lia.
Qed.

Lemma fmap_bind_list {A B C : Type} (f : B → C) (h : A → list B) (l : list A) :
  f <$> (l ≫= h) = l ≫= (λ x, f <$> h x).
Proof.
  induction l as [| x l IH]; [done |].
  by rewrite !bind_cons, fmap_app, IH.
Qed.

Lemma entries_NoDup graph :
  unique_edges graph → NoDup ((λ p, (p.1, getSink p.2)) <$> entries graph).
Proof.
  intros Hu. unfold entries. rewrite fmap_bind_list.
  apply NoDup_bind; [| | apply NoDup_seqZ].
  - intros s1 s2 [s t] _ _.
    rewrite <- !list_fmap_compose.
    intros (e1 & [= -> _] & _)%list_elem_of_fmap (e2 & [= -> _] & _)%list_elem_of_fmap.
    done.
  - intros s _. rewrite <- list_fmap_compose.
    apply (NoDup_fmap_2_strong _).
    + intros e1 e2 H1 H2 [= Heq].
      pose proof (unique_edges_adj_of graph s Hu) as Hnd.
      apply list_elem_of_lookup in H1 as [i1 H1], H2 as [i2 H2].
      assert (i1 = i2); [| congruence].
      eapply NoDup_lookup; [exact Hnd | |];
        rewrite list_lookup_fmap; [by rewrite H1 | by rewrite H2, Heq].
    + pose proof (unique_edges_adj_of graph s Hu) as Hnd.
      by apply NoDup_fmap_1 in Hnd.
Qed.

Lemma dense_size gr m :
  0 <= m → (∀ k, is_node gr k ↔ 0 <= k < m) → getNumNodes gr = m.
Proof.
  intros Hm Hdense. unfold getNumNodes.
  rewrite <- size_dom.
  assert (dom (g gr) = list_to_set (C := gset Z) (seqZ 0 m)) as ->.
  { apply set_eq. intros k. rewrite elem_of_dom, elem_of_list_to_set, elem_of_seqZ.
    rewrite <- (Hdense k). done. }
  rewrite size_list_to_set by apply NoDup_seqZ.
  rewrite length_seqZ. lia.
Qed.

Lemma addEdge_edge_at_Some gr s t c w gr' x y :
  addEdge gr s t c w = Ok gr' → is_Some (edge_at gr' x y) →
  (x = s ∧ y = t) ∨ is_Some (edge_at gr x y).
Proof.
  intros H. rewrite (addEdge_edge_at _ _ _ _ _ _ x y H).
  case_decide; [by left | by right].
Qed.

Lemma addEdge_mono gr s t c w gr' x y e :
  addEdge gr s t c w = Ok gr' → edge_at gr x y = Some e → edge_at gr' x y = Some e.
Proof.
  intros H He. rewrite (addEdge_edge_at _ _ _ _ _ _ x y H).
  pose proof H as (_ & _ & _ & _ & Hnone & _)%addEdge_Ok.
  case_decide as Hxy; [| done]. destruct Hxy as [-> ->]. congruence.
Qed.

Lemma filter_snoc_split graph done p :
  filter (is_split graph) (done ++ [p]) =
    filter (is_split graph) done ++ (if decide (is_split graph p) then [p] else []).
Proof.
  rewrite filter_app. f_equal.
Qed.

Lemma residual_inv_new graph : residual_inv graph (Graph.new (getNumNodes graph)) [].
Proof.
  assert (0 <= getNumNodes graph) as Hn by (unfold getNumNodes; lia).
  split.
  - exists (getNumNodes graph). split; [lia |]. intros k.
    unfold is_node. rewrite new_lookup. case_decide; split; eauto; try lia.
    by intros [? ?].
  - rewrite new_size by done. cbn. lia.
  - intros s t. rewrite new_edge_at. by intros [? ?].
  - intros s t e' _ _. by rewrite new_edge_at.
  - intros s e Hin. by apply not_elem_of_nil in Hin.
  - intros s w t _. rewrite new_edge_at. by intros [? ?].
  - intros s t w w' _ _. rewrite new_edge_at. by intros [? ?].
Qed.

(** An edge that is added as it is. *)
Lemma residual_inv_direct graph rg done s0 e0 rg' :
  residual_inv graph rg done →
  addEdge rg s0 (getSink e0) (getCapacity e0) (getWeight e0) = Ok rg' →
  0 < getCapacity e0 → s0 < getNumNodes graph → getSink e0 < getNumNodes graph →
  ¬ is_split graph (s0, e0) →
  residual_inv graph rg' (done ++ [(s0, e0)]).
Proof.
  intros [(m & Hnm & Hnodes) Hcount Hends Hdirect Hplaced Hbridge Honce]
    Hadd Hc Hs0 Ht0 Hnsplit.
  pose proof Hadd as (Hs0' & Ht0' & _ & _ & Hnone & _)%addEdge_Ok.
  assert (∀ k, is_node rg' k ↔ 0 <= k < m) as Hnodes'.
  { intros k. rewrite (addEdge_is_node _ _ _ _ _ _ _ Hadd), Hnodes. lia. }
  assert (0 <= m) as Hm by (unfold getNumNodes in Hnm; lia).
  split.
  - by exists m.
  - rewrite (dense_size rg' m Hm Hnodes'), <- (dense_size rg m Hm Hnodes), Hcount.
    rewrite filter_snoc_split, decide_False, app_nil_r by done. done.
  - intros s t [(-> & ->) | Hold]%(addEdge_edge_at_Some _ _ _ _ _ _ _ _ Hadd).
    + apply (addEdge_is_node _ _ _ _ _ _ _ Hadd). auto.
    + apply (addEdge_is_node _ _ _ _ _ _ _ Hadd). left. by eapply Hends.
  - intros s t e' Hs Ht. rewrite (addEdge_edge_at _ _ _ _ _ _ s t Hadd).
    case_decide as Hst.
    + destruct Hst as [-> ->]. intros [= <-]. exists e0.
      split_and!; try done. apply elem_of_app. right. by left.
    + intros He'. destruct (Hdirect s t e' Hs Ht He') as (e & Hin & ?).
      exists e. split; [| done]. apply elem_of_app. by left.
  - intros s e [Hin | [= -> ->]%list_elem_of_singleton]%elem_of_app He.
    + specialize (Hplaced s e Hin He). case_decide.
      * destruct Hplaced as (w & Hw & H1 & H2). exists w.
        split_and!; [done | by eapply addEdge_mono..].
      * by eapply addEdge_mono.
    + rewrite decide_False by done.
      rewrite (addEdge_edge_at _ _ _ _ _ _ _ _ Hadd). by rewrite decide_True.
  - intros s w t Hw
      [[_ ->] | H1]%(addEdge_edge_at_Some _ _ _ _ _ _ _ _ Hadd); [lia |].
    intros [[-> _] | H2]%(addEdge_edge_at_Some _ _ _ _ _ _ _ _ Hadd); [lia |].
    destruct (Hbridge s w t Hw H1 H2) as (e & Hin & ?).
    exists e. split; [| done]. apply elem_of_app. by left.
  - intros s t w w' Hw Hw'
      [[_ ->] | H1]%(addEdge_edge_at_Some _ _ _ _ _ _ _ _ Hadd); [lia |].
    intros [[-> _] | H2]%(addEdge_edge_at_Some _ _ _ _ _ _ _ _ Hadd); [lia |].
    intros [[_ ->] | H3]%(addEdge_edge_at_Some _ _ _ _ _ _ _ _ Hadd); [lia |].
    intros [[-> _] | H4]%(addEdge_edge_at_Some _ _ _ _ _ _ _ _ Hadd); [lia |].
    by eapply Honce.
Qed.

(** An edge that is routed through a fresh artificial node. *)
Lemma residual_inv_split graph rg done s0 e0 rg1 rg' :
  residual_inv graph rg done →
  addEdge rg s0 (getNumNodes rg) (getCapacity e0) (getWeight e0) = Ok rg1 →
  addEdge rg1 (getNumNodes rg) (getSink e0) (getCapacity e0) (getWeight e0) = Ok rg' →
  s0 < getNumNodes graph → getSink e0 < getNumNodes graph →
  is_split graph (s0, e0) →
  (s0, getSink e0) ∉ ((λ q, (q.1, getSink q.2)) <$> done) →
  residual_inv graph rg' (done ++ [(s0, e0)]).
Proof.
  intros [(m & Hnm & Hnodes) Hcount Hends Hdirect Hplaced Hbridge Honce]
    Hadd1 Hadd2 Hs0 Ht0 Hsplit Hfresh.
  set (t0 := getSink e0) in *.
  assert (0 <= m) as Hm by (unfold getNumNodes in Hnm; lia).
  rewrite (dense_size rg m Hm Hnodes) in *.
  pose proof Hadd1 as (Hs0' & _)%addEdge_Ok.
  pose proof Hadd2 as (_ & Ht0' & _)%addEdge_Ok.
  assert (∀ k, is_node rg' k ↔ 0 <= k < m + 1) as Hnodes'.
  { intros k. rewrite (addEdge_is_node _ _ _ _ _ _ _ Hadd2).
    rewrite (addEdge_is_node _ _ _ _ _ _ _ Hadd1), Hnodes. lia. }
  assert (∀ x y e, edge_at rg x y = Some e → edge_at rg' x y = Some e) as Hmono.
  { intros x y e He. eapply addEdge_mono; [exact Hadd2 |].
    eapply addEdge_mono; [exact Hadd1 | exact He]. }
  assert (∀ x y, is_Some (edge_at rg x y) → 0 <= x < m ∧ 0 <= y < m) as Hold.
  { intros x y Hxy. split.
    - destruct Hxy as [e He]. apply edge_at_node in He. apply Hnodes in He. lia.
    - apply Hends, Hnodes in Hxy. lia. }
  assert (∀ x y, is_Some (edge_at rg' x y) →
            (x = s0 ∧ y = m) ∨ (x = m ∧ y = t0) ∨ is_Some (edge_at rg x y)) as Hcases.
  { intros x y [? | Hxy]%(addEdge_edge_at_Some _ _ _ _ _ _ _ _ Hadd2); [auto |].
    apply (addEdge_edge_at_Some _ _ _ _ _ _ _ _ Hadd1) in Hxy as [? | ?]; auto. }
  assert (∀ s w t, getNumNodes graph <= w →
            is_Some (edge_at rg' s w) → is_Some (edge_at rg' w t) →
            (w = m ∧ s = s0 ∧ t = t0) ∨
            (w ≠ m ∧ is_Some (edge_at rg s w) ∧ is_Some (edge_at rg w t))) as Hanalysis.
  { intros s w t Hw H1 H2.
    apply Hcases in H1 as [[-> ->] | [[-> ->] | H1]];
      apply Hcases in H2 as [[? ?] | [[? ?] | H2]]; try lia.
    - apply Hold in H2. lia.
    - apply Hold in H1. lia.
    - right. split_and!; [| done..]. apply Hold in H1. lia. }
  split.
  - exists (m + 1). split; [lia | done].
  - rewrite (dense_size rg' (m + 1)) by (done || lia). rewrite Hcount.
    rewrite filter_snoc_split, decide_True, length_app by done. cbn. lia.
  - intros s t Hst. apply Hnodes'.
    apply Hcases in Hst as [[-> ->] | [[-> ->] | Hst]]; [lia | lia |].
    apply Hold in Hst. lia.
  - intros s t e' Hs Ht He'.
    assert (edge_at rg s t = Some e') as He.
    { rewrite (addEdge_edge_at _ _ _ _ _ _ _ _ Hadd2) in He'.
      rewrite decide_False in He' by lia.
      rewrite (addEdge_edge_at _ _ _ _ _ _ _ _ Hadd1) in He'.
      by rewrite decide_False in He' by lia. }
    destruct (Hdirect s t e' Hs Ht He) as (e & Hin & ?).
    exists e. split; [| done]. apply elem_of_app. by left.
  - intros s e [Hin | [= -> ->]%list_elem_of_singleton]%elem_of_app He.
    + specialize (Hplaced s e Hin He). case_decide.
      * destruct Hplaced as (w & Hw & H1 & H2). exists w.
        split_and!; [done | by apply Hmono..].
      * by apply Hmono.
    + rewrite decide_True by done. exists m. split_and!; [done | |].
      * rewrite (addEdge_edge_at _ _ _ _ _ _ _ _ Hadd2).
        rewrite decide_False by lia.
        rewrite (addEdge_edge_at _ _ _ _ _ _ _ _ Hadd1). by rewrite decide_True.
      * rewrite (addEdge_edge_at _ _ _ _ _ _ _ _ Hadd2). by rewrite decide_True.
  - intros s w t Hw H1 H2.
    destruct (Hanalysis s w t Hw H1 H2) as [(-> & -> & ->) | (_ & H1' & H2')].
    + exists e0. split; [| done]. apply elem_of_app. right. by left.
    + destruct (Hbridge s w t Hw H1' H2') as (e & Hin & ?).
      exists e. split; [| done]. apply elem_of_app. by left.
  - intros s t w w' Hw Hw' H1 H2 H3 H4.
    destruct (Hanalysis s w t Hw H1 H2) as [(-> & -> & ->) | (? & H1' & H2')];
      destruct (Hanalysis _ w' _ Hw' H3 H4) as [(-> & ? & ?) | (? & H3' & H4')].
    + done.
    + exfalso. destruct (Hbridge _ _ _ Hw' H3' H4') as (e & Hin & He & _).
      apply Hfresh. apply list_elem_of_fmap. exists (s0, e). cbn. by rewrite He.
    + exfalso. subst. destruct (Hbridge _ _ _ Hw H1' H2') as (e & Hin & He & _).
      apply Hfresh. apply list_elem_of_fmap. exists (s0, e). cbn. by rewrite He.
    + by eapply Honce.
Qed.

Lemma residual_entry_inv graph rg done p rg' :
  dense graph → 0 <= p.1 < getNumNodes graph →
  (p.1, getSink p.2) ∉ ((λ q, (q.1, getSink q.2)) <$> done) →
  residual_inv graph rg done → residual_entry graph rg p = Ok rg' →
  residual_inv graph rg' (done ++ [p]).
Proof.
  destruct p as [s0 e0]. cbn. intros Hdense Hs0 Hfresh Hinv.
  unfold residual_entry, residual_edge. cbn.
  destruct (Z.leb_spec (getCapacity e0) 0) as [Hc | Hc].
  { intros [= <-]. destruct Hinv as [? Hcount ? Hdirect Hplaced Hbridge ?].
    assert (¬ is_split graph (s0, e0)) as Hns by (intros [? _]; cbn in *; lia).
    split; try done.
    - by rewrite filter_snoc_split, decide_False, app_nil_r.
    - intros s t e' Hs Ht He'. destruct (Hdirect s t e' Hs Ht He') as (e & Hin & ?).
      exists e. split; [| done]. apply elem_of_app. by left.
    - intros s e [Hin | [= -> ->]%list_elem_of_singleton]%elem_of_app He; [| lia].
      by apply Hplaced.
    - intros s w t Hw H1 H2. destruct (Hbridge s w t Hw H1 H2) as (e & Hin & ?).
      exists e. split; [| done]. apply elem_of_app. by left. }
  destruct (Z.ltb_spec s0 (getSink e0)) as [Hlt | Hge].
  - destruct (hasEdge graph (getSink e0) s0) as [b |] eqn:Hhas; cbn; [| done].
    apply hasEdge_Ok in Hhas as (Ht0 & _ & ->).
    apply Hdense in Ht0.
    destruct (decide (is_Some (edge_at graph (getSink e0) s0))) as [Hback | Hback].
    + rewrite bool_decide_eq_true_2 by done.
      destruct (addEdge rg s0 (getNumNodes rg) (getCapacity e0) (getWeight e0))
        as [rg1 |] eqn:Hadd1; cbn; [| done].
      intros Hadd2. eapply residual_inv_split; try done; try lia.
    + rewrite bool_decide_eq_false_2 by done.
      intros Hadd. eapply residual_inv_direct; try done; try lia.
      intros (_ & _ & ?). done.
  - cbn. intros Hadd. eapply residual_inv_direct; try done; try lia.
    intros (_ & ? & _). cbn in *. lia.
Qed.

Lemma GetResidualGraph_inv graph rg :
  dense graph → unique_edges graph → GetResidualGraph graph = Ok rg →
  residual_inv graph rg (entries graph).
Proof.
  intros Hdense Hu Hrg%GetResidualGraph_entries.
  revert Hrg. apply foldM_prefix_invariant; [| apply residual_inv_new].
  intros rg0 done p rg1 [rest Hpre] Hinv Hstep.
  pose proof (entries_NoDup graph Hu) as Hnd.
  rewrite Hpre, <- app_assoc, !fmap_app in Hnd.
  apply NoDup_app in Hnd as (_ & Hfresh & _).
  assert (p ∈ entries graph) as Hp.
  { rewrite Hpre. apply elem_of_app. left. apply elem_of_app. right. by left. }
  destruct p as [s0 e0]. apply elem_of_entries in Hp as [Hs0 _].
  eapply residual_entry_inv; try done.
  intros Hin. apply (Hfresh _ Hin). cbn. by left.
Qed.

Lemma find_edge_unique (l : list Edge) (e : Edge) :
  NoDup (getSink <$> l) → e ∈ l → find_edge (getSink e) l = Some e.
Proof.
  induction l as [| e0 l IH]; [by intros _ ?%not_elem_of_nil |].
  rewrite fmap_cons. intros [Hnotin Hnd]%NoDup_cons.
  unfold find_edge; cbn. unfold to_sink at 1.
  intros [-> | Hin]%elem_of_cons; [by rewrite Z.eqb_refl |].
  destruct (Z.eqb_spec (getSink e0) (getSink e)) as [Heq | _]; [| by apply IH].
  exfalso. apply Hnotin. rewrite Heq. apply list_elem_of_fmap. eauto.
Qed.

Lemma edge_at_entry graph s t e :
  dense graph → edge_at graph s t = Some e → (s, e) ∈ entries graph ∧ getSink e = t.
Proof.
  intros Hdense He. split; [| by eapply edge_at_sink].
  apply elem_of_entries. split.
  - apply Hdense. by eapply edge_at_node.
  - apply edge_at_elem in He as (l & Hl & Hin). unfold adj_of. by rewrite Hl.
Qed.

Lemma entry_edge_at graph s e :
  unique_edges graph → (s, e) ∈ entries graph → edge_at graph s (getSink e) = Some e.
Proof.
  intros Hu [_ Hin]%elem_of_entries. unfold edge_at, adj_of in *.
  destruct (g graph !! s) as [l |] eqn:Hl; cbn in *; [| by apply not_elem_of_nil in Hin].
  apply find_edge_unique; [by eapply Hu | done].
Qed.

(** The construction succeeds on a graph with dense node ids, at most
    one edge per ordered pair and no dangling sink. *)
Lemma foldM_prefix_progress {A S : Type} (I : S → list A → Prop)
    (f : S → A → result S) (l : list A) :
  (∀ s done a s', (done ++ [a]) `prefix_of` l → I s done → f s a = Ok s' →
                   I s' (done ++ [a])) →
  (∀ s done a, (done ++ [a]) `prefix_of` l → I s done → ∃ s', f s a = Ok s') →
  ∀ s, I s [] → ∃ s', foldM f s l = Ok s'.
Proof.
  intros Hstep Hprogress.
  assert (∀ rest done s, l = done ++ rest → I s done →
            ∃ s', foldM f s rest = Ok s') as Hgen.
  { induction rest as [| a rest IH]; intros done s Hl Hs; cbn; [eauto |].
    assert ((done ++ [a]) `prefix_of` l) as Hpre.
    { exists rest. by rewrite <- app_assoc. }
    destruct (Hprogress s done a Hpre Hs) as [s1 Hf]. rewrite Hf. cbn.
    apply (IH (done ++ [a])); [by rewrite <- app_assoc | by eapply Hstep]. }
  intros s. by apply (Hgen l []).
Qed.

Lemma residual_entry_progress graph rg done p :
  dense graph → 0 <= p.1 < getNumNodes graph → is_node graph (getSink p.2) →
  (p.1, getSink p.2) ∉ ((λ q, (q.1, getSink q.2)) <$> done) →
  residual_inv graph rg done → ∃ rg', residual_entry graph rg p = Ok rg'.
Proof.
  destruct p as [s0 e0]. cbn.
  intros Hdense Hs0 Ht0 Hfresh [(m & Hnm & Hnodes) _ Hends Hdirect _ _ _].
  assert (0 <= m) as Hm by (unfold getNumNodes in Hnm; lia).
  pose proof (dense_size rg m Hm Hnodes) as Hsize.
  pose proof Ht0 as Ht0'. apply Hdense in Ht0'.
  unfold residual_entry, residual_edge. cbn.
  destruct (Z.leb_spec (getCapacity e0) 0) as [Hc | Hc]; [eauto |].
  assert (edge_at rg s0 (getSink e0) = None) as Hnone.
  { destruct (edge_at rg s0 (getSink e0)) as [e' |] eqn:He'; [exfalso | done].
    destruct (Hdirect s0 (getSink e0) e') as (e & Hin & Hsink & _); [lia.. | done |].
    apply Hfresh. apply list_elem_of_fmap. exists (s0, e). cbn. by rewrite Hsink. }
  assert (∃ rg', addEdge rg s0 (getSink e0) (getCapacity e0) (getWeight e0) = Ok rg')
    as Hdirect_ok.
  { eexists. apply addEdge_Ok. split_and!; [lia.. | done | lia | done]. }
  assert (∀ y, edge_at rg m y = None) as Hfrom.
  { intros y. destruct (edge_at rg m y) as [e' |] eqn:He'; [exfalso | done].
    apply edge_at_node, Hnodes in He'. lia. }
  assert (∀ x, edge_at rg x m = None) as Hinto.
  { intros x. destruct (edge_at rg x m) as [e' |] eqn:He'; [exfalso | done].
    assert (is_node rg m) as Hnode by (eapply Hends; eauto).
    apply Hnodes in Hnode. lia. }
  assert (∃ rg', (rg1 ← addEdge rg s0 (getNumNodes rg) (getCapacity e0) (getWeight e0);
                  addEdge rg1 (getNumNodes rg) (getSink e0) (getCapacity e0) (getWeight e0))
                 = Ok rg') as Hsplit_ok.
  { rewrite Hsize.
    destruct (addEdge rg s0 m (getCapacity e0) (getWeight e0)) as [rg1 |] eqn:Hadd1.
    - cbn. eexists. apply addEdge_Ok.
      assert (∀ k, is_node rg1 k ↔ 0 <= k < m + 1) as Hnodes1.
      { intros k. rewrite (addEdge_is_node _ _ _ _ _ _ _ Hadd1), Hnodes. lia. }
      rewrite (dense_size rg1 (m + 1)) by (done || lia).
      split_and!; [lia.. | | lia | done].
      rewrite (addEdge_edge_at _ _ _ _ _ _ _ _ Hadd1).
      rewrite decide_False by lia. apply Hfrom.
    - exfalso.
      assert (addEdge rg s0 m (getCapacity e0) (getWeight e0) =
              Ok (mkGraph (num_nodes rg)
                    (<[s0 := adj_of rg s0 ++ [mkEdge s0 m (getCapacity e0) (getWeight e0)]]>
                       (ensure_node m (ensure_node s0 (g rg))))
                    (artificial_nodes rg))) as Hok; [| congruence].
      apply addEdge_Ok. split_and!; [lia.. | apply Hinto | lia | done]. }
  destruct (Z.ltb_spec s0 (getSink e0)) as [Hlt | Hge]; [| done].
  rewrite hasEdge_nodes by (done || apply Hdense; lia). cbn.
  destruct (bool_decide _); done.
Qed.

Lemma GetResidualGraph_fold graph :
  dense graph →
  GetResidualGraph graph =
    foldM (residual_entry graph) (Graph.new (getNumNodes graph)) (entries graph).
Proof.
  intros Hdense. unfold GetResidualGraph, entries.
  generalize (Graph.new (getNumNodes graph)) as rg0.
  assert (∀ s, s ∈ seqZ 0 (getNumNodes graph) → is_node graph s) as Hnodes.
  { intros s Hs%elem_of_seqZ. apply Hdense. lia. }
  induction (seqZ 0 (getNumNodes graph)) as [| s l IH]; intros rg0; [done |].
  cbn [foldM]. rewrite bind_cons, foldM_app.
  assert (residual_node graph rg0 s =
          foldM (residual_entry graph) rg0 ((λ e, (s, e)) <$> adj_of graph s)) as ->.
  { destruct (Hnodes s) as [adj Hadj]; [by left |].
    unfold residual_node, getNodeAdjList, adj_of. rewrite Hadj. cbn.
    by rewrite foldM_fmap. }
  destruct (foldM (residual_entry graph) rg0 _) as [rg1 |]; cbn; [| done].
  apply IH. intros s' Hs'. apply Hnodes. by right.
Qed.

Lemma GetResidualGraph_succeeds graph :
  dense graph → unique_edges graph → closed graph →
  ∃ rg, GetResidualGraph graph = Ok rg.
Proof.
  intros Hdense Hu Hclosed. rewrite GetResidualGraph_fold by done.
  pose proof (entries_NoDup graph Hu) as Hnd.
  assert (∀ done p, (done ++ [p]) `prefix_of` entries graph →
            0 <= p.1 < getNumNodes graph ∧ is_node graph (getSink p.2) ∧
            (p.1, getSink p.2) ∉ ((λ q, (q.1, getSink q.2)) <$> done)) as Hentry.
  { intros done [s0 e0] [rest Hpre]. cbn.
    assert ((s0, e0) ∈ entries graph) as Hp.
    { rewrite Hpre. apply elem_of_app. left. apply elem_of_app. right. by left. }
    apply elem_of_entries in Hp as [Hs0 Hin]. split_and!; [lia.. | |].
    - unfold adj_of in Hin.
      destruct (g graph !! s0) as [l |] eqn:Hl; cbn in Hin;
        [by eapply Hclosed | by apply not_elem_of_nil in Hin].
    - rewrite Hpre, <- app_assoc, !fmap_app in Hnd.
      apply NoDup_app in Hnd as (_ & Hfresh & _).
      intros Hin'. apply (Hfresh _ Hin'). cbn. by left. }
  apply (foldM_prefix_progress (residual_inv graph)); [| | apply residual_inv_new].
  - intros rg0 done p rg1 Hpre Hinv Hstep.
    destruct (Hentry done p Hpre) as (? & ? & ?). by eapply residual_entry_inv.
  - intros rg0 done p Hpre Hinv.
    destruct (Hentry done p Hpre) as (? & ? & ?). by eapply residual_entry_progress.
Qed.

Lemma closed_check (gr : Graph) :
  bool_decide (map_Forall (λ _ l, Forall (λ e, is_Some (g gr !! getSink e)) l) (g gr)) = true →
  closed gr.
Proof.
  intros Hall%bool_decide_eq_true s l e Hl Hin.
  specialize (Hall s l Hl). by eapply Forall_forall in Hall.
Qed.

(** C7: on an input graph with dense node ids, at most one edge per
    ordered pair and no dangling sink, [GetResidualGraph] returns a graph.
    For an anti-parallel pair u -> v, v -> u with u < v of the input, the
    graph it returns has no edge u -> v, so never both directions.  The
    edge v -> u is kept as it is when its capacity is positive and dropped
    otherwise, and no artificial node stands between v and u.  The edge
    u -> v, when its capacity is positive, goes through an artificial node
    w as u -> w, w -> v with the capacity and cost of u -> v, and w is the
    only artificial node between u and v; when its capacity is not
    positive it is dropped, and no artificial node stands between u and v.
    The residual graph has one node more than the input graph for each
    edge that is split. *)
Theorem GetResidualGraph_antiparallel (graph : Graph) (u v : Z) (e_uv e_vu : Edge) :
  dense graph → unique_edges graph →
  u < v → edge_at graph u v = Some e_uv → edge_at graph v u = Some e_vu →
  (closed graph → ∃ rg, GetResidualGraph graph = Ok rg) ∧
  ∀ rg, GetResidualGraph graph = Ok rg →
    edge_at rg u v = None ∧
    edge_at rg v u =
      (if decide (0 < getCapacity e_vu)
       then Some (mkEdge v u (getCapacity e_vu) (getWeight e_vu)) else None) ∧
    (∀ w, getNumNodes graph <= w →
          ¬ (is_Some (edge_at rg v w) ∧ is_Some (edge_at rg w u))) ∧
    (0 < getCapacity e_uv →
     ∃ w, getNumNodes graph <= w ∧
          edge_at rg u w = Some (mkEdge u w (getCapacity e_uv) (getWeight e_uv)) ∧
          edge_at rg w v = Some (mkEdge w v (getCapacity e_uv) (getWeight e_uv)) ∧
          ∀ w', getNumNodes graph <= w' →
                is_Some (edge_at rg u w') → is_Some (edge_at rg w' v) → w' = w) ∧
    (getCapacity e_uv <= 0 →
     ∀ w, getNumNodes graph <= w →
          ¬ (is_Some (edge_at rg u w) ∧ is_Some (edge_at rg w v))) ∧
    getNumNodes rg =
      getNumNodes graph + Z.of_nat (length (filter (is_split graph) (entries graph))).
Proof.
  intros Hdense Hu Huv Heuv Hevu.
  split; [by apply GetResidualGraph_succeeds |]. intros rg Hrg.
  destruct (GetResidualGraph_inv graph rg Hdense Hu Hrg)
    as [_ Hcount _ Hdirect Hplaced Hbridge Honce].
  destruct (edge_at_entry _ _ _ _ Hdense Heuv) as [Hin_uv Hsink_uv].
  destruct (edge_at_entry _ _ _ _ Hdense Hevu) as [Hin_vu Hsink_vu].
  assert (u < getNumNodes graph ∧ v < getNumNodes graph) as [Hun Hvn].
  { apply elem_of_entries in Hin_uv as [? _], Hin_vu as [? _]. lia. }
  split_and!; [| | | | | done].
  - destruct (edge_at rg u v) as [e' |] eqn:He'; [exfalso | done].
    destruct (Hdirect u v e' Hun Hvn He') as (e & _ & Hsink & Hc & Hns & _).
    apply Hns. split_and!; cbn; [done | lia |]. rewrite Hsink. eauto.
  - case_decide as Hc.
    + specialize (Hplaced v e_vu Hin_vu Hc).
      rewrite decide_False in Hplaced by (intros (_ & ? & _); cbn in *; lia).
      by rewrite Hsink_vu in Hplaced.
    + destruct (edge_at rg v u) as [e' |] eqn:He'; [exfalso | done].
      destruct (Hdirect v u e' Hvn Hun He') as (e & Hin & Hsink & Hce & _).
      apply (entry_edge_at _ _ _ Hu) in Hin. rewrite Hsink in Hin.
      assert (e = e_vu) as -> by congruence. lia.
  - intros w Hw [H1 H2].
    destruct (Hbridge v w u Hw H1 H2) as (e & _ & Hsink & _ & Hlt & _).
    cbn in Hlt. lia.
  - intros Hc. specialize (Hplaced u e_uv Hin_uv Hc).
    rewrite decide_True in Hplaced
      by (split_and!; cbn; [done | lia | rewrite Hsink_uv; eauto]).
    destruct Hplaced as (w & Hw & H1 & H2). rewrite Hsink_uv in H2.
    exists w. split_and!; [done.. |].
    intros w' Hw' H1' H2'. eapply Honce; eauto.
  - intros Hc w Hw [H1 H2].
    destruct (Hbridge u w v Hw H1 H2) as (e & Hin & Hsink & Hpos & _).
    apply (entry_edge_at _ _ _ Hu) in Hin. rewrite Hsink in Hin.
    assert (e = e_uv) as -> by congruence. cbn in Hpos. lia.
Qed.

Lemma GetResidualGraph_antiparallel_witness :
  ∃ rg, GetResidualGraph sample_antiparallel = Ok rg ∧
        edge_at rg 0 1 = None ∧
        edge_at rg 1 0 = Some (mkEdge 1 0 1 1) ∧
        (∃ w, 3 <= w ∧ edge_at rg 0 w = Some (mkEdge 0 w 1 1) ∧
              edge_at rg w 1 = Some (mkEdge w 1 1 1)) ∧
        getNumNodes rg = 4.
Proof.
  destruct (GetResidualGraph_antiparallel sample_antiparallel 0 1
              (mkEdge 0 1 1 1) (mkEdge 1 0 1 1)) as [Hreturns Hgraph].
  - apply dense_check. by vm_compute.
  - apply unique_edges_check. by vm_compute.
  - lia.
  - by vm_compute.
  - by vm_compute.
  - destruct Hreturns as [rg Hrg]; [apply closed_check; by vm_compute |].
    exists rg. split; [done |].
    destruct (Hgraph rg Hrg) as (H1 & H2 & _ & H3 & _ & H4).
    split_and!; [exact H1 | exact H2 | |].
    + destruct H3 as (w & Hw & Huw & Hwv & _); [cbn; lia |].
      exists w. split_and!; [exact Hw | exact Huw | exact Hwv].
    + rewrite H4. by vm_compute.
Defined.

(** C7 as stated fails.  On the graph built from 0 -> 1 with capacity 0
    and 1 -> 0 with capacity 1, an anti-parallel pair, the residual graph
    has the two nodes of the input and the single edge 1 -> 0: the edge
    0 -> 1 is dropped before the test for a split, and no artificial node
    bridges either direction. *)
Lemma GetResidualGraph_pair_without_bridge :
  (rg0 ← addEdge (Graph.new 2) 0 1 0 1; addEdge rg0 1 0 1 1) = Ok sample_zero_capacity ∧
  edge_at sample_zero_capacity 0 1 = Some (mkEdge 0 1 0 1) ∧
  edge_at sample_zero_capacity 1 0 = Some (mkEdge 1 0 1 1) ∧
  ∃ rg, GetResidualGraph sample_zero_capacity = Ok rg ∧
        getNumNodes rg = 2 ∧ entries rg = [(1, mkEdge 1 0 1 1)].
Proof.
  split_and!; [by vm_compute.. |].
  destruct (GetResidualGraph sample_zero_capacity) as [rg | err] eqn:Hrun;
    [| by vm_compute in Hrun].
  exists rg. split; [done |].
  vm_compute in Hrun. injection Hrun as <-. by vm_compute.
Qed.

End ResidualGraph.

(** ** The artificial-node map *)

Section ArtificialNodes.

Import Graph GraphUtils.

Lemma residual_edge_artificial graph source rg e rg' :
  residual_edge graph source rg e = Ok rg' →
  artificial_nodes rg' = artificial_nodes rg.
Proof.
  unfold residual_edge. destruct (getCapacity e <=? 0); [by intros [= <-] |].
  destruct (if source <? getSink e then hasEdge graph (getSink e) source else Ok false)
    as [[] |]; cbn; [| | done].
  - destruct (addEdge rg source (getNumNodes rg) (getCapacity e) (getWeight e))
      as [rg1 |] eqn:H1; cbn; [| done].
    intros H2. apply addEdge_fields in H1 as [_ <-]. by apply addEdge_fields in H2 as [_ ?].
  - intros H1. by apply addEdge_fields in H1 as [_ ?].
Qed.

Lemma GetResidualGraph_artificial graph rg :
  GetResidualGraph graph = Ok rg → getArtificialNodesMap rg = ∅.
Proof.
  unfold GetResidualGraph, getArtificialNodesMap.
  apply (foldM_invariant (λ rg, artificial_nodes rg = ∅)); [| done].
  intros rg0 source rg1 _ Hrg0. unfold residual_node.
  destruct (getNodeAdjList graph source) as [adj |]; cbn; [| done].
  revert rg0 rg1 Hrg0. apply (foldM_invariant (λ rg, artificial_nodes rg = ∅)).
  intros rg0 e rg1 _ Hrg0 Hstep.
  apply residual_edge_artificial in Hstep. congruence.
Qed.

(** C1, amended: [GetResidualGraph] routes a split edge through the node
    whose id is the current number of nodes of the residual graph and
    records nothing: the artificial-node map of its result is empty.
    [GetOptimalGraph] does not read that map, whatever it holds; for a
    negative-cost edge whose sink is an artificial node it takes as source
    of the reported edge the sink of the edge in the adjacency list of
    that node, when the list holds a single edge. *)
Theorem artificial_nodes_unrecorded :
  (∀ graph rg, GetResidualGraph graph = Ok rg → getArtificialNodesMap rg = ∅) ∧
  (∀ graph source rg e,
     0 < getCapacity e → source < getSink e →
     hasEdge graph (getSink e) source = Ok true →
     residual_edge graph source rg e =
       (rg1 ← addEdge rg source (getNumNodes rg) (getCapacity e) (getWeight e);
        addEdge rg1 (getNumNodes rg) (getSink e) (getCapacity e) (getWeight e))) ∧
  (∀ rg graph m,
     GetOptimalGraph (with_artificial_nodes rg m) graph = GetOptimalGraph rg graph) ∧
  (∀ rg source og e only,
     getWeight e < 0 → getStartingNumNodes rg <= getSink e →
     getNodeAdjList rg (getSink e) = Ok [only] →
     optimal_edge rg source og e =
       addEdge og (getSink only) source (getCapacity e) (Int.neg (getWeight e))).
Proof.
  split_and!.
  - apply GetResidualGraph_artificial.
  - intros graph source rg e Hc Hlt Hhas. unfold residual_edge.
    destruct (Z.leb_spec (getCapacity e) 0); [lia |].
    destruct (Z.ltb_spec source (getSink e)); [| lia].
    by rewrite Hhas.
  - reflexivity.
  - intros rg source og e only Hw Hsink Hadj. unfold optimal_edge.
    destruct (Z.leb_spec 0 (getWeight e)); [lia |].
    destruct (Z.leb_spec (getStartingNumNodes rg) (getSink e)); [| lia].
    by rewrite Hadj.
Qed.

Lemma artificial_nodes_unrecorded_witness :
  (∃ rg, GetResidualGraph sample_antiparallel = Ok rg ∧ getArtificialNodesMap rg = ∅) ∧
  residual_edge sample_antiparallel 0 (Graph.new 3) (mkEdge 0 1 1 1) =
    (rg1 ← addEdge (Graph.new 3) 0 3 1 1; addEdge rg1 3 1 1 1).
Proof.
  destruct artificial_nodes_unrecorded as (Hmap & Hsplit & _ & _). split.
  - destruct (GetResidualGraph sample_antiparallel) as [rg |] eqn:Hrg;
      [| by vm_compute in Hrg].
    exists rg. split; [done |]. by apply (Hmap sample_antiparallel).
  - apply (Hsplit sample_antiparallel 0 (Graph.new 3) (mkEdge 0 1 1 1)).
    + cbn. lia.
    + cbn. lia.
    + by vm_compute.
Defined.

(** C1 as stated fails: the residual graph of the sample network with the
    anti-parallel pair 0 -> 1, 1 -> 0 routes 0 -> 1 through the artificial
    node 3, and its artificial-node map has no entry for 3.  After one unit
    of flow along 0,3,1,2, [GetOptimalGraph] reports the edge 0 -> 1 also
    when the map names 2 -> 1 as the edge that node 3 stands for. *)
Lemma artificial_nodes_not_in_map :
  GetResidualGraph sample_antiparallel = Ok sample_antiparallel_residual ∧
  edge_at sample_antiparallel_residual 0 3 = Some (mkEdge 0 3 1 1) ∧
  edge_at sample_antiparallel_residual 3 1 = Some (mkEdge 3 1 1 1) ∧
  getArtificialNodesMap sample_antiparallel_residual !! 3 = None ∧
  SendFlowInPath sample_antiparallel_residual [0; 3; 1; 2] 1
  = Some (sample_antiparallel_final, Ok tt) ∧
  GetOptimalGraph (addArtificialNodes sample_antiparallel_final 3 (mkEdge 2 1 1 1))
    sample_antiparallel
  = Ok sample_antiparallel_optimal ∧
  edge_at sample_antiparallel_optimal 0 1 = Some (mkEdge 0 1 1 1) ∧
  edge_at sample_antiparallel_optimal 2 1 = None.
Proof. split_and!; vm_compute; reflexivity. Qed.

(** When the artificial node keeps its edge to [v], that edge comes first
    in its adjacency list: the flow of 0 -> 1 is then reported on an edge
    1 -> 1, and 0 -> 1 is reported without flow. *)
Lemma artificial_node_with_two_edges :
  getNodeAdjList sample_unsaturated_final 3 = Ok [mkEdge 3 1 1 1; mkEdge 3 0 1 (-1)] ∧
  GetOptimalGraph sample_unsaturated_final sample_unsaturated
  = Ok sample_unsaturated_flows ∧
  edge_at sample_unsaturated_flows 1 1 = Some (mkEdge 1 1 1 1) ∧
  edge_at sample_unsaturated_flows 0 1 = Some (mkEdge 0 1 0 1).
Proof. split_and!; vm_compute; reflexivity. Qed.

End ArtificialNodes.

(** ** The cost [CycleCancelling] reports *)

Section MinimumCost.

Import Graph GraphUtils MinimumCostFlowAlgorithms.

Lemma sum_list_app (l1 l2 : list Z) : sum_list (l1 ++ l2) = sum_list l1 + sum_list l2.
Proof.
  induction l1 as [| x l1 IH]; [done |].
  cbn [app sum_list foldr]. fold (sum_list (l1 ++ l2)) (sum_list l1). lia.
Qed.

Lemma negative_cost_total_app (l1 l2 : list Edge) :
  negative_cost_total (l1 ++ l2) = negative_cost_total l1 + negative_cost_total l2.
Proof.
  unfold negative_cost_total. by rewrite filter_app, fmap_app, sum_list_app.
Qed.

Lemma negative_cost_total_cons (e : Edge) (l : list Edge) :
  negative_cost_total (e :: l) =
    (if getWeight e <? 0 then - getWeight e * getCapacity e else 0)
    + negative_cost_total l.
Proof.
  unfold negative_cost_total. rewrite filter_cons.
  destruct (Z.ltb_spec (getWeight e) 0).
  - by rewrite decide_True.
  - rewrite decide_False by lia. lia.
Qed.

Lemma cost_edge_wrap (minimum_cost : Z) (e : Edge) :
  Int.wrap (cost_edge minimum_cost e) =
    Int.wrap (minimum_cost + (if getWeight e <? 0 then - getWeight e * getCapacity e else 0)).
Proof.
  unfold cost_edge. destruct (getWeight e <? 0); [| f_equal; lia].
  unfold Int.add, Int.mul, Int.neg.
  by rewrite wrap_wrap, wrap_mul_l, wrap_add_r.
Qed.

Lemma cost_edge_in_range (minimum_cost : Z) (e : Edge) :
  Int.in_range minimum_cost → Int.in_range (cost_edge minimum_cost e).
Proof.
  unfold cost_edge. destruct (getWeight e <? 0); [| done].
  intros _. apply wrap_in_range.
Qed.

Lemma fold_cost_edge (adj : list Edge) : ∀ minimum_cost,
  Int.wrap (fold_left cost_edge adj minimum_cost) =
    Int.wrap (minimum_cost + negative_cost_total adj) ∧
  (Int.in_range minimum_cost → Int.in_range (fold_left cost_edge adj minimum_cost)).
Proof.
  induction adj as [| e adj IH]; intros mc; cbn [fold_left].
  - split; [f_equal; unfold negative_cost_total; cbn; lia | done].
  - destruct (IH (cost_edge mc e)) as [Hsum Hrange]. split.
    + rewrite Hsum, negative_cost_total_cons.
      rewrite <- wrap_add_l, cost_edge_wrap, wrap_add_l. f_equal. lia.
    + intros Hmc. by apply Hrange, cost_edge_in_range.
Qed.

Lemma cost_node_Ok (rg : Graph) (mc u m : Z) :
  cost_node rg mc u = Ok m → m = fold_left cost_edge (adj_of rg u) mc.
Proof.
  unfold cost_node, getNodeAdjList, adj_of.
  destruct (g rg !! u) as [adj |]; cbn; [by intros [= <-] | done].
Qed.

Lemma fold_cost_node (rg : Graph) (l : list Z) : ∀ mc m,
  foldM (cost_node rg) mc l = Ok m →
  Int.wrap m = Int.wrap (mc + negative_cost_total (l ≫= adj_of rg)) ∧
  (Int.in_range mc → Int.in_range m).
Proof.
  induction l as [| u l IH]; intros mc m.
  - cbn. intros [= <-]. split; [f_equal; unfold negative_cost_total; cbn; lia | done].
  - cbn [foldM]. rewrite bind_cons, negative_cost_total_app.
    destruct (cost_node rg mc u) as [mc' |] eqn:Hnode; cbn [mbind result_bind rbind];
      [| done].
    apply cost_node_Ok in Hnode as ->.
    intros Hrest. destruct (IH _ _ Hrest) as [Hsum Hrange].
    destruct (fold_cost_edge (adj_of rg u) mc) as [Hsum' Hrange']. split.
    + rewrite Hsum.
      rewrite <- wrap_add_l, Hsum', wrap_add_l. f_equal. lia.
    + auto.
Qed.

Lemma edges_of_bind (gr : Graph) : edges_of gr = seqZ 0 (getNumNodes gr) ≫= adj_of gr.
Proof.
  unfold edges_of, entries. rewrite fmap_bind_list.
  induction (seqZ 0 (getNumNodes gr)) as [| u l IH]; [done |].
  rewrite !bind_cons, IH. f_equal.
  rewrite <- list_fmap_compose. apply list_fmap_id.
Qed.

Lemma minimum_cost_of_total (rg : Graph) (m : Z) :
  minimum_cost_of rg = Ok m → m = Int.wrap (negative_cost_total (edges_of rg)).
Proof.
  unfold minimum_cost_of. intros [Hsum Hrange]%fold_cost_node.
  rewrite edges_of_bind. rewrite <- (wrap_id m); [done |].
  apply Hrange. unfold Int.in_range, Int.min_int, Int.max_int. lia.
Qed.

Lemma cancel_loop_ends BellmanFord fuel : ∀ source rg bf rg',
  BellmanFord rg source = Some (Ok bf) →
  cancel_loop BellmanFord fuel source rg bf = Some (Ok rg') →
  ∃ bf', BellmanFord rg' source = Some (Ok bf') ∧ hasNegativeCycle bf' = false.
Proof.
  induction fuel as [| fuel IH]; intros source rg bf rg' Hbf; cbn [cancel_loop].
  - destruct (hasNegativeCycle bf) eqn:Hneg; [done |]. intros [= <-]. eauto.
  - destruct (hasNegativeCycle bf) eqn:Hneg; [| intros [= <-]; eauto].
    destruct (GetResidualCapacity rg (getNegativeCycle bf)) as [[c |] |];
      cbn [call_bind]; [| done..].
    destruct (commit (SendFlowInPath rg (getNegativeCycle bf) c)) as [[rg1 |] |];
      cbn [call_bind]; [| done..].
    destruct (BellmanFord rg1 source) as [[bf1 |] |] eqn:Hbf1; cbn [call_bind]; [| done..].
    by apply IH.
Qed.

(** C5: the value [CycleCancelling] reports is the sum of
    (-cost) * capacity over the negative-cost edges of the residual graph
    it returns, in [int] arithmetic; that graph is the one the cancelling
    loop ended with: Bellman-Ford found no negative cycle in it. *)
Theorem CycleCancelling_reported_cost
    (EdmondsKarp : Graph → Z → Z → option (result FlowResult))
    (BellmanFord : Graph → Z → option (result BellmanFordResult))
    (fuel : nat) (graph : Graph) (r : FlowResult) :
  CycleCancelling EdmondsKarp BellmanFord fuel graph = Some (Ok r) →
  getValue r = Int.wrap (negative_cost_total (edges_of (getGraph r))) ∧
  minimum_cost_of (getGraph r) = Ok (getValue r) ∧
  ∃ bf, BellmanFord (getGraph r) 0 = Some (Ok bf) ∧ hasNegativeCycle bf = false.
Proof.
  unfold CycleCancelling.
  destruct (EdmondsKarp graph 0 (getNumNodes graph - 1)) as [[ek |] |];
    cbn [call_bind]; [| done..].
  destruct (BellmanFord (getGraph ek) 0) as [[bf |] |] eqn:Hbf; cbn [call_bind]; [| done..].
  destruct (cancel_loop BellmanFord fuel 0 (getGraph ek) bf) as [[rg' |] |] eqn:Hloop;
    cbn [call_bind]; [| done..].
  destruct (minimum_cost_of rg') as [m |] eqn:Hcost; cbn [call_bind]; [| done].
  intros [= <-]. cbn [getGraph getValue]. split_and!; [| done |].
  - by apply minimum_cost_of_total.
  - by eapply cancel_loop_ends.
Qed.

Lemma CycleCancelling_reported_cost_witness :
  Collaborators.CycleCancelling 10 sample_network = Some (Ok sample_network_result) ∧
  getValue sample_network_result = 6 ∧
  getValue sample_network_result
  = Int.wrap (negative_cost_total (edges_of (getGraph sample_network_result))).
Proof.
  assert (Collaborators.CycleCancelling 10 sample_network = Some (Ok sample_network_result))
    as Hrun by (vm_compute; reflexivity).
  split_and!; [exact Hrun | vm_compute; reflexivity |].
  by destruct (CycleCancelling_reported_cost _ _ _ _ _ Hrun) as [? _].
Defined.

(** When the maximum-flow step hands over a graph in which Bellman-Ford
    finds no negative cycle, that graph and its cost are the result. *)
Lemma CycleCancelling_no_cycle
    (EdmondsKarp : Graph → Z → Z → option (result FlowResult))
    (BellmanFord : Graph → Z → option (result BellmanFordResult))
    (fuel : nat) (graph : Graph) (ek : FlowResult) (bf : BellmanFordResult) (m : Z) :
  EdmondsKarp graph 0 (getNumNodes graph - 1) = Some (Ok ek) →
  BellmanFord (getGraph ek) 0 = Some (Ok bf) → hasNegativeCycle bf = false →
  minimum_cost_of (getGraph ek) = Ok m →
  CycleCancelling EdmondsKarp BellmanFord fuel graph
  = Some (Ok (mkFlowResult (getGraph ek) m)).
Proof.
  intros Hek Hbf Hneg Hcost. unfold CycleCancelling.
  rewrite Hek. cbn [call_bind]. rewrite Hbf. cbn [call_bind].
  assert (cancel_loop BellmanFord fuel 0 (getGraph ek) bf = Some (Ok (getGraph ek))) as ->.
  { destruct fuel; cbn [cancel_loop]; by rewrite Hneg. }
  cbn [call_bind]. by rewrite Hcost.
Qed.

(** C2 at the sample network with the anti-parallel pair 0 -> 1, 1 -> 0:
    the maximum flow sends one unit along 0,3,1,2 (3 is the artificial
    node), no negative cycle is found, and the reported cost is 3: the
    split edge 0 -> 1 of cost 1 is counted on both of its halves.  The
    flows of [GetOptimalGraph] are 1 on 0 -> 1, 0 on 1 -> 0 and 1 on
    1 -> 2, of total cost 2. *)
Theorem CycleCancelling_counts_split_edge_twice :
  Collaborators.CycleCancelling 10 sample_antiparallel
  = Some (Ok sample_antiparallel_result) ∧
  getGraph sample_antiparallel_result = sample_antiparallel_final ∧
  getValue sample_antiparallel_result = 3 ∧
  minimum_cost_of sample_antiparallel_final = Ok 3 ∧
  negative_cost_total (edges_of sample_antiparallel_final) = 3 ∧
  GetOptimalGraph (getGraph sample_antiparallel_result) sample_antiparallel
  = Ok sample_antiparallel_flows ∧
  capacity_of sample_antiparallel_flows 0 1 = 1 ∧
  capacity_of sample_antiparallel_flows 1 0 = 0 ∧
  capacity_of sample_antiparallel_flows 1 2 = 1 ∧
  flow_cost sample_antiparallel sample_antiparallel_flows = 2.
Proof. split_and!; vm_compute; reflexivity. Qed.

(** The same with any maximum-flow and negative-cycle routines that reach
    this residual graph and find no negative cycle in it. *)
Lemma CycleCancelling_sample_antiparallel
    (EdmondsKarp : Graph → Z → Z → option (result FlowResult))
    (BellmanFord : Graph → Z → option (result BellmanFordResult))
    (fuel : nat) (max_flow : Z) (bf : BellmanFordResult) :
  EdmondsKarp sample_antiparallel 0 2
  = Some (Ok (mkFlowResult sample_antiparallel_final max_flow)) →
  BellmanFord sample_antiparallel_final 0 = Some (Ok bf) →
  hasNegativeCycle bf = false →
  CycleCancelling EdmondsKarp BellmanFord fuel sample_antiparallel
  = Some (Ok (mkFlowResult sample_antiparallel_final 3)).
Proof.
  intros Hek Hbf Hneg.
  apply (CycleCancelling_no_cycle _ _ fuel sample_antiparallel
           (mkFlowResult sample_antiparallel_final max_flow) bf 3);
    [exact Hek | exact Hbf | exact Hneg | vm_compute; reflexivity].
Qed.

End MinimumCost.

(** * Further properties *)

(** ** [SendFlowInPath]: what every call keeps *)

Section SendFlowInvariants.

Import Graph GraphUtils.

Implicit Types (rg : Graph) (path : list Z) (flow : Z).

Lemma same_nodes_refl rg : same_nodes rg rg.
Proof. done. Qed.

Lemma same_nodes_trans rg1 rg2 rg3 :
  same_nodes rg1 rg2 → same_nodes rg2 rg3 → same_nodes rg1 rg3.
Proof.
  intros (H1 & H2 & H3) (H1' & H2' & H3'). split_and!.
  - intros x. by rewrite H1', H1.
  - congruence.
  - congruence.
Qed.

Lemma same_nodes_size rg rg' : same_nodes rg rg' → getNumNodes rg' = getNumNodes rg.
Proof.
  intros (Hnodes & _). unfold getNumNodes. rewrite <- !size_dom. do 2 f_equal.
  apply set_eq. intros x. rewrite !elem_of_dom. apply Hnodes.
Qed.

Lemma setEdgeCapacity_same_nodes rg s t c rg' :
  setEdgeCapacity rg s t c = Ok rg' → same_nodes rg rg'.
Proof.
  intros H. split.
  - intros x. by rewrite (setEdgeCapacity_is_node _ _ _ _ _ x H).
  - by apply setEdgeCapacity_Ok in H as (l & e & _ & _ & _ & _ & ->).
Qed.

Lemma removeEdge_same_nodes rg s t rg' :
  removeEdge rg s t = Ok rg' → same_nodes rg rg'.
Proof.
  intros H. split.
  - intros x. by rewrite (removeEdge_is_node _ _ _ _ x H).
  - by apply removeEdge_Ok in H as (l & e & _ & _ & _ & ->).
Qed.

Lemma addEdge_same_nodes rg s t c w rg' :
  is_node rg s → is_node rg t → addEdge rg s t c w = Ok rg' → same_nodes rg rg'.
Proof.
  intros Hs Ht H. split.
  - intros x. rewrite (addEdge_is_node _ _ _ _ _ _ x H).
    split; [intros [? | [-> | ->]]; done | by left].
  - by apply addEdge_fields in H as [? ?].
Qed.

(** One iteration of [SendFlowInPath], however it ends. *)
Lemma send_edge_same_nodes a b flow rg rg' out :
  send_edge a b flow rg = (rg', out) → same_nodes rg rg'.
Proof.
  intros Hrun%send_edge_inv.
  inversion Hrun as [| | | e rg1 rg2 rg'' out' Hget Hguard Hset Hrm Hrev]; subst;
    try apply same_nodes_refl.
  pose proof Hget as (Ha & Hb & _)%getEdge_Ok.
  assert (same_nodes rg rg2) as H2.
  { pose proof (setEdgeCapacity_same_nodes _ _ _ _ _ Hset) as H1.
    destruct (_ =? 0); [| by subst].
    eapply same_nodes_trans; [done |]. by eapply removeEdge_same_nodes. }
  eapply same_nodes_trans; [done |].
  unfold reverse_edge in Hrev.
  destruct (edge_at rg2 b a);
    apply update_inv in Hrev as [[Hok _] | (? & _ & -> & _)]; try apply same_nodes_refl.
  - by eapply setEdgeCapacity_same_nodes.
  - eapply addEdge_same_nodes; [| | done]; by apply H2.
Qed.

Lemma send_edge_unique_edges a b flow rg rg' out :
  unique_edges rg → send_edge a b flow rg = (rg', out) → unique_edges rg'.
Proof.
  intros Hu Hrun%send_edge_inv.
  inversion Hrun as [| | | e rg1 rg2 rg'' out' Hget Hguard Hset Hrm Hrev]; subst; try done.
  pose proof (forward_update _ _ _ _ _ _ _ Hget Hset Hrm) as (_ & _ & _ & Hu2 & _).
  destruct out as [[] | err]; [| apply reverse_edge_Err in Hrev as ->; auto].
  apply reverse_edge_Ok in Hrev as (_ & _ & Hu' & _). auto.
Qed.

Lemma send_edge_int_capacity a b flow rg rg' out :
  all_edges int_capacity rg → flow <= Int.max_int →
  send_edge a b flow rg = (rg', out) → all_edges int_capacity rg'.
Proof.
  intros Hcap Hflow Hrun%send_edge_inv.
  inversion Hrun as [| | | e rg1 rg2 rg'' out' Hget Hguard Hset Hrm Hrev]; subst; try done.
  pose proof (forward_update _ _ _ _ _ _ _ Hget Hset Hrm) as (Hc0 & _ & _ & _ & Hall2 & _).
  assert (all_edges int_capacity rg2) as Hcap2.
  { apply Hall2; [done |]. intros _. split; cbn; [done | apply forward_capacity_max]. }
  destruct out as [[] | err]; [| by apply reverse_edge_Err in Hrev as ->].
  apply reverse_edge_Ok in Hrev as (Hr0 & _ & _ & Hall' & _).
  apply Hall'; [done |]. split; [done |].
  unfold reversed. destruct (edge_at rg2 b a); cbn; [apply add_max | done].
Qed.

Lemma send_edge_frame a b flow rg rg' out x y :
  unique_edges rg → send_edge a b flow rg = (rg', out) →
  ¬ (x = a ∧ y = b) → ¬ (x = b ∧ y = a) → edge_at rg' x y = edge_at rg x y.
Proof.
  intros Hu Hrun%send_edge_inv Hxy Hyx.
  inversion Hrun as [| | | e rg1 rg2 rg'' out' Hget Hguard Hset Hrm Hrev]; subst; try done.
  pose proof (forward_update _ _ _ _ _ _ _ Hget Hset Hrm) as (_ & _ & _ & _ & _ & Hview).
  assert (edge_at rg2 x y = edge_at rg x y) as <-.
  { rewrite (Hview Hu). unfold forward_view. by rewrite decide_False. }
  destruct out as [[] | err]; [| by apply reverse_edge_Err in Hrev as ->].
  apply reverse_edge_Ok in Hrev as (_ & _ & _ & _ & Hview').
  rewrite Hview'. by rewrite decide_False.
Qed.

(** What every iteration keeps, the whole loop keeps; an iteration that
    runs has read two neighbouring entries of the path. *)
Lemma send_loop_invariant (P : Graph → Prop) path flow :
  (∀ a b rg rg' out,
     (a, b) ∈ pairs path → P rg → send_edge a b flow rg = (rg', out) → P rg') →
  ∀ fuel bound u rg rg' out,
    0 <= u <= Int.max_int → P rg →
    send_loop fuel path flow bound u rg = Some (rg', out) → P rg'.
Proof.
  intros Hstep.
  induction fuel as [| fuel IH]; intros bound u rg rg' out Hu Hrg; cbn.
  - destruct (u <? bound); [done | by intros [= <- <-]].
  - destruct (u <? bound); [| by intros [= <- <-]].
    destruct (send_at path flow u rg) as [rg1 r] eqn:Hat.
    unfold send_at in Hat.
    apply M_bind_inv in Hat as [(? & [-> _]%read_inv & ->) | (a & s1 & [-> Ha]%read_inv & Hat)];
      [by intros [= <- <-] |].
    apply M_bind_inv in Hat as [(? & [-> _]%read_inv & ->) | (b & s2 & [-> Hb]%read_inv & Hat)];
      [by intros [= <- <-] |].
    symmetry in Ha, Hb.
    destruct (index_step path u a b Hu Ha Hb) as (Hnext & Hlen & Hmax).
    assert ((a, b) ∈ pairs path) as Hin.
    { apply elem_of_pairs. exists (Z.to_nat u).
      rewrite wrap_id in Hb
        by (unfold Int.in_range, Int.min_int, Int.max_int in *; lia).
      unfold at_ in Ha, Hb.
      destruct (Z.ltb_spec u 0); [lia |]. destruct (Z.ltb_spec (u + 1) 0); [lia |].
      replace (S (Z.to_nat u)) with (Z.to_nat (u + 1)) by lia.
      destruct (path !! Z.to_nat u); [| done].
      destruct (path !! Z.to_nat (u + 1)); [| done]. split; congruence. }
    pose proof (Hstep _ _ _ _ _ Hin Hrg Hat) as Hrg1.
    destruct r as [[] | err]; [| by intros [= <- <-]].
    rewrite Hnext. apply IH; [lia | done].
Qed.

Lemma SendFlowInPath_invariant (P : Graph → Prop) rg path flow :
  (∀ a b rg rg' out,
     (a, b) ∈ pairs path → P rg → send_edge a b flow rg = (rg', out) → P rg') →
  P rg → ∃ rg' out, SendFlowInPath rg path flow = Some (rg', out) ∧ P rg'.
Proof.
  intros Hstep Hrg.
  destruct (SendFlowInPath_total rg path flow) as [[rg' out] Hrun].
  exists rg', out. split; [done |].
  eapply (send_loop_invariant P); [done | | done | exact Hrun].
  unfold Int.max_int. lia.
Qed.

(** X15: [SendFlowInPath] never adds or removes a node, whatever it is given
    and however it ends: the nodes, their number, the starting number of
    nodes and the artificial-node map are those of the graph before. *)
Theorem SendFlowInPath_keeps_nodes rg path flow :
  ∃ rg' out, SendFlowInPath rg path flow = Some (rg', out) ∧
    (∀ x, is_node rg' x ↔ is_node rg x) ∧
    getNumNodes rg' = getNumNodes rg ∧
    getStartingNumNodes rg' = getStartingNumNodes rg ∧
    getArtificialNodesMap rg' = getArtificialNodesMap rg.
Proof.
  destruct (SendFlowInPath_invariant (same_nodes rg) rg path flow)
    as (rg' & out & Hrun & Hsame).
  - intros a b rg1 rg2 out _ H1 Hstep. eapply same_nodes_trans; [done |].
    by eapply send_edge_same_nodes.
  - apply same_nodes_refl.
  - exists rg', out. split; [done |].
    pose proof (same_nodes_size _ _ Hsame). destruct Hsame as (? & ? & ?). done.
Qed.

(** X16: [SendFlowInPath] keeps the shape of the graph, also when it throws
    half-way: still at most one edge per ordered pair, and every capacity
    still a non-negative [int]. *)
Theorem SendFlowInPath_keeps_shape rg path flow :
  unique_edges rg → all_edges int_capacity rg → Int.in_range flow →
  ∃ rg' out, SendFlowInPath rg path flow = Some (rg', out) ∧
    unique_edges rg' ∧ all_edges int_capacity rg'.
Proof.
  intros Hu Hcap [_ Hflow].
  apply (SendFlowInPath_invariant (λ rg, unique_edges rg ∧ all_edges int_capacity rg));
    [| done].
  intros a b rg1 rg2 out _ [Hu1 Hcap1] Hstep. split.
  - by eapply send_edge_unique_edges.
  - by eapply send_edge_int_capacity.
Qed.

Lemma SendFlowInPath_keeps_shape_witness :
  ∃ rg' out, SendFlowInPath sample_two_way [0; 1; 0] 1 = Some (rg', out) ∧
    unique_edges rg' ∧ all_edges int_capacity rg'.
Proof.
  apply SendFlowInPath_keeps_shape.
  - apply unique_edges_check. by vm_compute.
  - apply (all_edges_check int_capacity). by vm_compute.
  - by vm_compute.
Defined.

(** X17: [SendFlowInPath] touches only the pairs of nodes the path runs
    through: the edge between two nodes that are not neighbours on the
    path is after the call what it was before, also when the call
    throws. *)
Theorem SendFlowInPath_frame rg path flow x y :
  unique_edges rg → (x, y) ∉ pairs path → (y, x) ∉ pairs path →
  ∃ rg' out, SendFlowInPath rg path flow = Some (rg', out) ∧
    edge_at rg' x y = edge_at rg x y.
Proof.
  intros Hu Hxy Hyx.
  destruct (SendFlowInPath_invariant
              (λ rg', unique_edges rg' ∧ edge_at rg' x y = edge_at rg x y) rg path flow)
    as (rg' & out & Hrun & _ & Heq); [| done | by exists rg', out].
  intros a b rg1 rg2 out Hin [Hu1 Heq] Hstep. split.
  - by eapply send_edge_unique_edges.
  - rewrite <- Heq. eapply send_edge_frame; [done.. | |].
    + intros [-> ->]. done.
    + intros [-> ->]. done.
Qed.

Lemma SendFlowInPath_frame_witness :
  ∃ rg' out, SendFlowInPath sample_residual [0; 1] 1 = Some (rg', out) ∧
    edge_at rg' 1 2 = edge_at sample_residual 1 2.
Proof.
  apply SendFlowInPath_frame.
  - apply unique_edges_check. by vm_compute.
  - cbn. by intros [= ?]%list_elem_of_singleton.
  - cbn. by intros [= ?]%list_elem_of_singleton.
Defined.

End SendFlowInvariants.

(** ** [SendFlowInPath]: when a call goes through *)

Section SendFlowSucceeds.

Import Graph GraphUtils.

Implicit Types (rg : Graph) (path : list Z) (flow : Z).

Lemma same_nodes_dense rg rg' : same_nodes rg rg' → dense rg → dense rg'.
Proof.
  intros Hsame Hdense k. rewrite (same_nodes_size _ _ Hsame).
  destruct Hsame as (Hnodes & _). rewrite Hnodes. apply Hdense.
Qed.

Lemma sendable_frame rg rg' flow a b :
  same_nodes rg rg' → edge_at rg' a b = edge_at rg a b → edge_at rg' b a = edge_at rg b a →
  sendable rg flow a b → sendable rg' flow a b.
Proof.
  intros (Hnodes & _) Hab Hba (e & (Ha & Hb & He)%getEdge_Ok & Hfwd & Hrev).
  exists e. split_and!; [| done |].
  - apply getEdge_Ok. rewrite !Hnodes, Hab. done.
  - unfold capacity_of in *. by rewrite Hba.
Qed.

Lemma send_pairs_succeeds ps : ∀ flow rg,
  dense rg → unique_edges rg → all_edges int_capacity rg → 0 <= flow →
  edge_disjoint ps → (∀ a b, (a, b) ∈ ps → sendable rg flow a b) →
  ∃ rg', send_pairs ps flow rg = (rg', Ok tt).
Proof.
  induction ps as [| [a b] ps IH]; intros flow rg Hdense Hu Hcap Hflow; cbn.
  - eauto.
  - intros (Hab & Hn1 & Hn2 & Hdis) Hall.
    destruct (send_edge_succeeds a b flow rg) as [rg1 Hstep]; try done.
    { apply Hall. by left. }
    rewrite Hstep.
    assert (flow <= Int.max_int) as Hmax.
    { destruct (Hall a b) as (_ & _ & _ & ?); [by left |].
      pose proof (capacity_of_nonneg rg b a Hcap). lia. }
    pose proof (send_edge_same_nodes _ _ _ _ _ _ Hstep) as Hsame.
    apply IH; try done.
    + by eapply same_nodes_dense.
    + by eapply send_edge_unique_edges.
    + by eapply send_edge_int_capacity.
    + intros a' b' Hin. eapply sendable_frame; [done | | | apply Hall; by right].
      * eapply send_edge_frame; [done.. | |]; intros [-> ->]; done.
      * eapply send_edge_frame; [done.. | |]; intros [-> ->]; done.
Qed.

Lemma same_nodes_sym rg rg' : same_nodes rg rg' → same_nodes rg' rg.
Proof.
  intros (H1 & H2 & H3). split_and!; [| done..]. intros x. by rewrite H1.
Qed.

Lemma wrap_overflow (x y : Z) :
  0 <= x <= Int.max_int → 0 <= y <= Int.max_int → 0 <= Int.add x y →
  x + y <= Int.max_int.
Proof.
  unfold Int.add, Int.wrap, Int.max_int. intros Hx Hy Hsum.
  destruct (Z_le_gt_dec (x + y) (2 ^ 31 - 1)) as [? | Hgt]; [done | exfalso].
  replace (x + y + 2 ^ 31) with (x + y + 2 ^ 31 - 2 ^ 32 + 1 * 2 ^ 32) in Hsum by lia.
  rewrite Z_mod_plus_full, Z.mod_small in Hsum; lia.
Qed.

Lemma send_edge_Ok_sendable a b flow rg rg' :
  unique_edges rg → all_edges int_capacity rg → 0 <= flow <= Int.max_int → a ≠ b →
  send_edge a b flow rg = (rg', Ok tt) → sendable rg flow a b.
Proof.
  intros Hu Hcap Hflow Hab Hrun%send_edge_inv.
  inversion Hrun as [| | | e rg1 rg2 rg'' out' Hget Hguard Hset Hrm Hrev]; subst.
  pose proof Hget as (_ & _ & He)%getEdge_Ok.
  pose proof (all_edges_edge_at _ _ _ _ _ Hcap He) as Hie.
  pose proof (forward_update _ _ _ _ _ _ _ Hget Hset Hrm)
    as (Hc0 & _ & _ & _ & _ & Hview).
  specialize (Hview Hu).
  exists e. split_and!; [done | |].
  - unfold forward_capacity in Hc0.
    destruct (Z.ltb_spec (getWeight e) 0) as [Hw | Hw]; [by apply wrap_overflow |].
    destruct Hguard; [lia | done].
  - assert (edge_at rg2 b a = edge_at rg b a) as Hsame.
    { rewrite Hview. unfold forward_view. rewrite decide_False; [done |].
      intros [-> _]. done. }
    unfold reverse_edge in Hrev. rewrite Hsame in Hrev. unfold capacity_of.
    destruct (edge_at rg b a) as [e4 |] eqn:He4; cbn; [| lia].
    apply update_inv in Hrev as [[Hok _] | (? & _ & _ & ?)]; [| done].
    apply setEdgeCapacity_Ok in Hok as (_ & _ & _ & _ & _ & H0 & _).
    apply wrap_overflow; [| done..].
    exact (all_edges_edge_at _ _ _ _ _ Hcap He4).
Qed.

Lemma send_pairs_sendable ps : ∀ flow rg rg',
  unique_edges rg → all_edges int_capacity rg → 0 <= flow <= Int.max_int →
  edge_disjoint ps → send_pairs ps flow rg = (rg', Ok tt) →
  ∀ a b, (a, b) ∈ ps → sendable rg flow a b.
Proof.
  induction ps as [| [a0 b0] ps IH]; intros flow rg rg' Hu Hcap Hflow.
  - intros _ _ a b Hin. by apply not_elem_of_nil in Hin.
  - cbn [send_pairs edge_disjoint fst snd].
    intros (Hab & Hn1 & Hn2 & Hdis).
    destruct (send_edge a0 b0 flow rg) as [rg1 [[] | err]] eqn:Hstep; [| done].
    intros Hrest a b [[= -> ->] | Hin]%elem_of_cons.
    + by eapply send_edge_Ok_sendable.
    + assert (sendable rg1 flow a b) as Hs1.
      { apply (IH flow rg1 rg'); [| | done | done | done | done].
        - by eapply send_edge_unique_edges.
        - apply (send_edge_int_capacity a0 b0 flow rg rg1 (Ok tt)); [done | lia | done]. }
      eapply sendable_frame; [| | | exact Hs1].
      * apply same_nodes_sym. by eapply send_edge_same_nodes.
      * symmetry. eapply send_edge_frame; [done.. | |]; intros [-> ->]; done.
      * symmetry. eapply send_edge_frame; [done.. | |]; intros [-> ->]; done.
Qed.

(** X18: when does an augmentation go through.  On a graph with dense ids, one
    edge per pair and [int] capacities, along a path that runs through no
    pair of nodes twice, [SendFlowInPath] returns normally exactly when
    every pair of the path is an edge that can carry the flow if its cost
    is not negative, and the flow overflows neither the capacity of a
    traversed edge of negative cost nor that of a reverse edge. *)
Theorem SendFlowInPath_succeeds rg path flow :
  dense rg → unique_edges rg → all_edges int_capacity rg →
  path ≠ [] → indexable path → edge_disjoint (pairs path) →
  0 <= flow <= Int.max_int →
  (∃ rg', SendFlowInPath rg path flow = Some (rg', Ok tt)) ↔
  (∀ a b, (a, b) ∈ pairs path → sendable rg flow a b).
Proof.
  intros Hdense Hu Hcap Hne Hfit Hdis Hflow.
  rewrite SendFlowInPath_pairs by done. split.
  - intros [rg' [= Hrun]]. by eapply send_pairs_sendable.
  - intros Hall.
    destruct (send_pairs_succeeds (pairs path) flow rg) as [rg' Hrun]; try done; [lia |].
    exists rg'. by rewrite Hrun.
Qed.

End SendFlowSucceeds.

(** ** [GetResidualCapacity] and [SendFlowInPath] together *)

Section Bottleneck.

Import Graph GraphUtils.

Implicit Types (rg : Graph) (path : list Z) (flow : Z).

Lemma all_edges_impl (P Q : Edge → Prop) rg :
  (∀ e, P e → Q e) → all_edges P rg → all_edges Q rg.
Proof. intros HPQ HP s l e Hl Hin. eapply HPQ, HP; done. Qed.

Lemma pairs_elem (l : list Z) a b : (a, b) ∈ pairs l → a ∈ l ∧ b ∈ l.
Proof.
  intros (i & Ha & Hb)%elem_of_pairs. split; apply list_elem_of_lookup; eauto.
Qed.

Lemma pairs_tail (x : Z) (l : list Z) a b : (a, b) ∈ pairs l → (a, b) ∈ pairs (x :: l).
Proof.
  destruct l as [| y l]; [by intros ?%not_elem_of_nil |].
  intros Hin. cbn [pairs]. by right.
Qed.

(** A sequence without a repeated node runs through no pair of nodes
    twice. *)
Lemma NoDup_edge_disjoint (l : list Z) : NoDup l → edge_disjoint (pairs l).
Proof.
  induction l as [| a l IH]; [done |].
  intros [Ha Hnd]%NoDup_cons. destruct l as [| b l]; [done |].
  change (pairs (a :: b :: l)) with ((a, b) :: pairs (b :: l)).
  cbn [edge_disjoint fst snd]. split_and!.
  - intros ->. apply Ha. by left.
  - intros [? _]%pairs_elem. done.
  - intros [_ ?]%pairs_elem. done.
  - by apply IH.
Qed.

Lemma GetResidualCapacity_pairs rg path :
  (2 ≤ length path)%nat → indexable path →
  GetResidualCapacity rg path = Some (min_capacity (pairs path) rg Int.max_int).
Proof.
  intros Hlen Hfit. unfold GetResidualCapacity.
  destruct (Nat.leb_spec (length path) 1); [lia |].
  assert (path ≠ []) as Hne by (intros ->; cbn in *; lia).
  rewrite size_sub1_pos by done.
  pose proof (capacity_loop_pairs path [] (S (length path)) rg Int.max_int Hne) as Hloop.
  change ([] ++ path) with path in Hloop.
  change (Z.of_nat (length (@nil Z))) with 0 in Hloop.
  rewrite Hloop by (done || lia). done.
Qed.

(** X19: augmenting by the bottleneck.  On a residual graph with dense ids,
    one edge per pair and positive capacities of at most half the largest
    [int], take a path without a repeated node whose consecutive pairs
    are edges: the capacity [GetResidualCapacity] returns is positive,
    [SendFlowInPath] sends it without an exception, and an edge of the
    path that had exactly this capacity is gone afterwards if it is a
    forward edge. *)
Theorem SendFlowInPath_bottleneck rg path :
  dense rg → unique_edges rg → all_edges half_capacity rg →
  (2 ≤ length path)%nat → indexable path → NoDup path →
  (∀ a b, (a, b) ∈ pairs path → ∃ e, getEdge rg a b = Ok e) →
  ∃ m rg', GetResidualCapacity rg path = Some (Ok m) ∧ 0 < m ∧
           SendFlowInPath rg path m = Some (rg', Ok tt) ∧
           ∃ a b, (a, b) ∈ pairs path ∧ capacity_of rg a b = m ∧
                  (is_forward rg a b = true → edge_at rg' a b = None).
Proof.
  intros Hdense Hu Hhalf Hlen Hfit Hnd Hedges.
  assert (all_edges residual_capacity rg) as Hpos.
  { eapply all_edges_impl; [| done]. intros e [? ?]. split; lia. }
  assert (all_edges int_capacity rg) as Hcap.
  { eapply all_edges_impl; [| done]. intros e [? ?]. split; lia. }
  assert (path ≠ []) as Hne by (intros ->; cbn in *; lia).
  pose proof (NoDup_edge_disjoint path Hnd) as Hdis.
  rewrite GetResidualCapacity_pairs by done.
  destruct (min_capacity_spec (pairs path) rg Int.max_int Hedges)
    as (m & -> & Hle & Hall & Hex).
  assert (∀ a b, (a, b) ∈ pairs path →
            0 < capacity_of rg a b ∧ 2 * capacity_of rg a b <= Int.max_int) as Hpair.
  { intros a b Hin. destruct (Hedges a b Hin) as [e (_ & _ & He)%getEdge_Ok].
    unfold capacity_of. rewrite He. cbn.
    apply (all_edges_edge_at _ _ _ _ _ Hhalf He). }
  assert (∃ a b, (a, b) ∈ pairs path ∧ m = capacity_of rg a b) as (a0 & b0 & Hin0 & Hm).
  { destruct Hex as [-> | ?]; [exfalso | done].
    destruct path as [| a [| b rest]]; [cbn in *; lia.. |].
    specialize (Hall a b (list_elem_of_here _ _)).
    destruct (Hpair a b) as [? ?]; [by left |]. unfold Int.max_int in *. lia. }
  assert (0 < m) as Hm0 by (rewrite Hm; by apply Hpair).
  assert (∀ x y, 2 * capacity_of rg x y <= Int.max_int) as Hany.
  { intros x y. unfold capacity_of.
    destruct (edge_at rg x y) as [e |] eqn:He; cbn; [| by vm_compute].
    apply (all_edges_edge_at _ _ _ _ _ Hhalf He). }
  destruct (send_pairs_succeeds (pairs path) m rg) as [rg' Hrun]; try done; [lia | |].
  { intros a b Hin. destruct (Hedges a b Hin) as [e He]. exists e.
    pose proof He as (_ & _ & He')%getEdge_Ok.
    specialize (Hall a b Hin). pose proof (Hany b a) as Hba. specialize (Hany a b).
    unfold capacity_of in Hall, Hany. rewrite He' in Hall, Hany. cbn in Hall, Hany.
    split_and!; [done | destruct (_ <? _); lia | lia]. }
  exists m, rg'. split_and!; [done | done | |].
  { rewrite SendFlowInPath_pairs by done. by rewrite Hrun. }
  exists a0, b0. split_and!; [done | done |]. intros Hfwd.
  assert (Int.in_range m) as Hrange.
  { unfold Int.in_range, Int.min_int, Int.max_int in *. lia. }
  destruct (send_pairs_capacities _ _ _ _ Hu Hcap Hrange Hrun Hdis a0 b0 Hin0 Hfwd)
    as [Hzero _].
  assert (all_edges residual_capacity rg') as Hpos'.
  { apply (send_loop_residual_capacity (S (length path)) path m
             (Int.size_sub1 (length path)) 0 rg rg' (Ok tt)); [done | lia |].
    fold (SendFlowInPath rg path m). rewrite SendFlowInPath_pairs by done.
    by rewrite Hrun. }
  destruct (edge_at rg' a0 b0) as [e' |] eqn:He'; [exfalso | done].
  pose proof (all_edges_edge_at _ _ _ _ _ Hpos' He') as [? _].
  rewrite <- Hm in Hzero.
  unfold capacity_of in Hzero. rewrite He' in Hzero. cbn in Hzero. lia.
Qed.

End Bottleneck.

Section SendFlowSamples.

Import Graph GraphUtils.

Lemma SendFlowInPath_succeeds_witness :
  ((∃ rg', SendFlowInPath sample_residual [0; 1; 2] 2 = Some (rg', Ok tt)) ↔
   (∀ a b, (a, b) ∈ pairs [0; 1; 2] → sendable sample_residual 2 a b)) ∧
  ∃ rg', SendFlowInPath sample_residual [0; 1; 2] 2 = Some (rg', Ok tt).
Proof.
  assert ((∃ rg', SendFlowInPath sample_residual [0; 1; 2] 2 = Some (rg', Ok tt)) ↔
          (∀ a b, (a, b) ∈ pairs [0; 1; 2] → sendable sample_residual 2 a b)) as Hiff.
  { apply SendFlowInPath_succeeds.
    - apply dense_check. by vm_compute.
    - apply unique_edges_check. by vm_compute.
    - apply (all_edges_check int_capacity). by vm_compute.
    - done.
    - by vm_compute.
    - apply (bool_decide_eq_true_1 _). by vm_compute.
    - by vm_compute. }
  split; [exact Hiff |].
  apply Hiff. intros a b Hin. cbn in Hin.
  apply elem_of_cons in Hin as [[= -> ->] | Hin];
    [exists (mkEdge 0 1 2 1); split_and!; by vm_compute |].
  apply elem_of_cons in Hin as [[= -> ->] | Hin];
    [exists (mkEdge 1 2 3 1); split_and!; by vm_compute |].
  by apply not_elem_of_nil in Hin.
Defined.

Lemma SendFlowInPath_bottleneck_witness :
  ∃ m rg', GetResidualCapacity sample_residual [0; 1; 2] = Some (Ok m) ∧ 0 < m ∧
           SendFlowInPath sample_residual [0; 1; 2] m = Some (rg', Ok tt) ∧
           ∃ a b, (a, b) ∈ pairs [0; 1; 2] ∧ capacity_of sample_residual a b = m ∧
                  (is_forward sample_residual a b = true → edge_at rg' a b = None).
Proof.
  apply SendFlowInPath_bottleneck.
  - apply dense_check. by vm_compute.
  - apply unique_edges_check. by vm_compute.
  - apply (all_edges_check half_capacity). by vm_compute.
  - cbn. lia.
  - by vm_compute.
  - apply (bool_decide_eq_true_1 _). by vm_compute.
  - intros a b Hin. cbn in Hin.
    apply elem_of_cons in Hin as [[= -> ->] | Hin];
      [exists (mkEdge 0 1 2 1); by vm_compute |].
    apply elem_of_cons in Hin as [[= -> ->] | Hin];
      [exists (mkEdge 1 2 3 1); by vm_compute |].
    by apply not_elem_of_nil in Hin.
Defined.

End SendFlowSamples.

(** ** There and back over one edge *)

Section BackAndForth.

Import Graph GraphUtils.

Implicit Types (rg : Graph) (path : list Z) (flow : Z).

Lemma SendFlowInPath_two rg a b flow :
  SendFlowInPath rg [a; b] flow = Some (send_edge a b flow rg).
Proof.
  rewrite SendFlowInPath_pairs; [| done | by vm_compute].
  cbn. by destruct (send_edge a b flow rg) as [rg' [[] | err]].
Qed.

(** X20: sending a flow over an edge and then back over the reverse edge that
    the first call has created.  The edge gets its capacity back.  The
    reverse edge does not disappear unless the cost is 0: it has a
    negative cost, so the second call raises its capacity, to twice the
    flow. *)
Theorem SendFlowInPath_back_and_forth rg a b e flow :
  dense rg → unique_edges rg → all_edges int_capacity rg → a ≠ b →
  getEdge rg a b = Ok e → 0 <= getWeight e <= Int.max_int → edge_at rg b a = None →
  0 < flow <= getCapacity e → 2 * flow <= Int.max_int →
  ∃ rg1 rg2,
    SendFlowInPath rg [a; b] flow = Some (rg1, Ok tt) ∧
    SendFlowInPath rg1 [b; a] flow = Some (rg2, Ok tt) ∧
    capacity_of rg2 a b = getCapacity e ∧
    capacity_of rg2 b a = (if getWeight e =? 0 then 0 else 2 * flow) ∧
    ∀ x y, ¬ (x = a ∧ y = b) → ¬ (x = b ∧ y = a) → edge_at rg2 x y = edge_at rg x y.
Proof.
  intros Hdense Hu Hcap Hab Hget Hw Hnone Hflow H2.
  pose proof Hget as (Ha & Hb & He)%getEdge_Ok.
  pose proof (all_edges_edge_at _ _ _ _ _ Hcap He) as [Hc0 Hcmax].
  assert (Int.in_range flow) as Hrange.
  { unfold Int.in_range, Int.min_int, Int.max_int in *. lia. }
  assert (Int.neg (getWeight e) = - getWeight e) as Hneg.
  { unfold Int.neg. apply wrap_id.
    unfold Int.in_range, Int.min_int, Int.max_int in *. lia. }
  (* forth *)
  destruct (send_edge_succeeds a b flow rg) as [rg1 Hrun1]; try done; [lia | |].
  { exists e. split_and!; [done | |].
    - destruct (Z.ltb_spec (getWeight e) 0); lia.
    - unfold capacity_of. rewrite Hnone. cbn. lia. }
  pose proof (send_edge_Ok_view _ _ _ _ _ _ Hget Hu Hcap Hrange Hrun1)
    as (_ & _ & _ & Hu1 & Hcap1 & Hview1).
  cbn zeta in Hview1.
  destruct (Z.ltb_spec (getWeight e) 0) as [? | _]; [lia |].
  assert (edge_at rg1 b a = Some (mkEdge b a flow (- getWeight e))) as Hba1.
  { rewrite Hview1, decide_True by done. unfold forward_view.
    rewrite decide_False by (intros [-> _]; done). by rewrite Hnone, Hneg. }
  assert (capacity_of rg1 a b = getCapacity e - flow) as Hab1.
  { unfold capacity_of. rewrite Hview1, decide_False by (intros [-> _]; done).
    fold (capacity_of_view (forward_view a b (getCapacity e - flow) e rg a b)).
    by rewrite capacity_of_forward_view, decide_True. }
  pose proof (send_edge_same_nodes _ _ _ _ _ _ Hrun1) as Hsame1.
  assert (getEdge rg1 b a = Ok (mkEdge b a flow (- getWeight e))) as Hget1.
  { apply getEdge_Ok. destruct Hsame1 as (Hn & _). by rewrite !Hn. }
  (* and back *)
  destruct (send_edge_succeeds b a flow rg1) as [rg2 Hrun2]; try done; [| lia | |].
  { by eapply same_nodes_dense. }
  { exists (mkEdge b a flow (- getWeight e)). split_and!; [done | |]; cbn.
    - destruct (Z.ltb_spec (- getWeight e) 0); lia.
    - rewrite Hab1. lia. }
  pose proof (send_edge_Ok_view _ _ _ _ _ _ Hget1 Hu1 Hcap1 Hrange Hrun2)
    as (_ & _ & _ & _ & _ & Hview2).
  cbn zeta in Hview2. cbn [getWeight getCapacity] in Hview2.
  exists rg1, rg2. rewrite !SendFlowInPath_two. split_and!; [by rewrite Hrun1 | by rewrite Hrun2 | | |].
  - unfold capacity_of at 1. rewrite Hview2, decide_True by done.
    unfold forward_view at 1. rewrite decide_False by (intros [-> _]; done).
    unfold capacity_of in Hab1.
    destruct (edge_at rg1 a b) as [r |]; cbn in *; lia.
  - unfold capacity_of. rewrite Hview2, decide_False by (intros [-> _]; done).
    fold (capacity_of_view
            (forward_view b a
               (if - getWeight e <? 0 then flow + flow else flow - flow)
               (mkEdge b a flow (- getWeight e)) rg1 b a)).
    rewrite capacity_of_forward_view, decide_True by done.
    destruct (Z.eqb_spec (getWeight e) 0) as [Hz | ?];
      destruct (Z.ltb_spec (- getWeight e) 0); lia.
  - intros x y Hxy Hyx.
    rewrite (send_edge_frame _ _ _ _ _ _ x y Hu1 Hrun2) by tauto.
    by rewrite (send_edge_frame _ _ _ _ _ _ x y Hu Hrun1).
Qed.

Lemma SendFlowInPath_back_and_forth_witness :
  ∃ rg1 rg2,
    SendFlowInPath sample_network [0; 1] 2 = Some (rg1, Ok tt) ∧
    SendFlowInPath rg1 [1; 0] 2 = Some (rg2, Ok tt) ∧
    capacity_of rg2 0 1 = 2 ∧ capacity_of rg2 1 0 = 4.
Proof.
  destruct (SendFlowInPath_back_and_forth sample_network 0 1 (mkEdge 0 1 2 1) 2)
    as (rg1 & rg2 & H1 & H2 & H3 & H4 & _).
  - apply dense_check. by vm_compute.
  - apply unique_edges_check. by vm_compute.
  - apply (all_edges_check int_capacity). by vm_compute.
  - done.
  - by vm_compute.
  - by vm_compute.
  - by vm_compute.
  - by vm_compute.
  - by vm_compute.
  - exists rg1, rg2. done.
Defined.

End BackAndForth.

(** ** [GetResidualCapacity]: exceptions and range *)

Section MissingEdge.

Import Graph GraphUtils.

Implicit Types (rg : Graph) (path : list Z) (flow : Z).

Lemma min_capacity_missing ps : ∀ rg path_flow a b,
  (a, b) ∈ ps → edge_at rg a b = None →
  min_capacity ps rg path_flow = Err InvalidArgument.
Proof.
  induction ps as [| [a0 b0] ps IH]; intros rg path_flow a b Hin Hnone.
  - by apply not_elem_of_nil in Hin.
  - cbn. destruct (getEdge rg a0 b0) as [e | err] eqn:He.
    + apply elem_of_cons in Hin as [[= -> ->] | Hin]; [| by eapply IH].
      apply getEdge_Ok in He as (_ & _ & He). congruence.
    + by apply getEdge_Err in He as ->.
Qed.

(** X14: a path that steps over a pair of nodes with no edge between them has
    no residual capacity to report: [GetResidualCapacity] throws
    invalid_argument, it does not return 0. *)
Theorem GetResidualCapacity_missing_edge rg path a b :
  indexable path → (a, b) ∈ pairs path → edge_at rg a b = None →
  GetResidualCapacity rg path = Some (Err InvalidArgument).
Proof.
  intros Hfit Hin Hnone.
  rewrite GetResidualCapacity_pairs; [| | done].
  - f_equal. by eapply min_capacity_missing.
  - destruct path as [| x [| y rest]]; [by apply not_elem_of_nil in Hin.. |]. cbn. lia.
Qed.

Lemma GetResidualCapacity_missing_edge_witness :
  GetResidualCapacity sample_residual [0; 1; 2; 0] = Some (Err InvalidArgument).
Proof.
  apply (GetResidualCapacity_missing_edge sample_residual [0; 1; 2; 0] 2 0).
  - by vm_compute.
  - cbn. right. right. left.
  - by vm_compute.
Defined.

Lemma capacity_loop_range fuel : ∀ rg path bound u path_flow m,
  all_edges residual_capacity rg → 0 < path_flow <= Int.max_int →
  capacity_loop fuel rg path bound u path_flow = Some (Ok m) → 0 < m <= Int.max_int.
Proof.
  induction fuel as [| fuel IH]; intros rg path bound u path_flow m Hpos Hpf; cbn.
  - destruct (u <? bound); [done | intros [= <-]; done].
  - destruct (u <? bound); [| intros [= <-]; done].
    destruct (at_ path u) as [a |]; cbn; [| done].
    destruct (at_ path (Int.wrap (u + 1))) as [b |]; cbn; [| done].
    destruct (getEdge rg a b) as [e |] eqn:He; cbn; [| done].
    apply IH; [done |].
    apply getEdge_Ok in He as (_ & _ & He).
    pose proof (all_edges_edge_at _ _ _ _ _ Hpos He) as [? ?]. lia.
Qed.

End MissingEdge.

(** ** The loop of [CycleCancelling] *)

Section CancelLoop.

Import Graph GraphUtils MinimumCostFlowAlgorithms.

Variable EdmondsKarp : Graph → Z → Z → option (result FlowResult).
Variable BellmanFord : Graph → Z → option (result BellmanFordResult).

Lemma cancel_loop_invariant (P : Graph → Prop) :
  (∀ rg path flow rg',
     P rg → GetResidualCapacity rg path = Some (Ok flow) →
     SendFlowInPath rg path flow = Some (rg', Ok tt) → P rg') →
  ∀ fuel source rg bf rg',
    P rg → cancel_loop BellmanFord fuel source rg bf = Some (Ok rg') → P rg'.
Proof.
  intros Hstep.
  induction fuel as [| fuel IH]; intros source rg bf rg' Hrg; cbn [cancel_loop].
  - destruct (hasNegativeCycle bf); [done | by intros [= <-]].
  - destruct (hasNegativeCycle bf); [| by intros [= <-]].
    destruct (GetResidualCapacity rg (getNegativeCycle bf)) as [[c |] |] eqn:Hc;
      cbn [call_bind]; [| done..].
    destruct (SendFlowInPath rg (getNegativeCycle bf) c) as [[rg1 [[] |]] |] eqn:Hsend;
      cbn [commit call_bind]; [| done..].
    destruct (BellmanFord rg1 source) as [[bf1 |] |]; cbn [call_bind]; [| done..].
    apply IH. by eapply Hstep.
Qed.

Lemma CycleCancelling_inv fuel graph r :
  CycleCancelling EdmondsKarp BellmanFord fuel graph = Some (Ok r) →
  ∃ ek bf, EdmondsKarp graph 0 (getNumNodes graph - 1) = Some (Ok ek) ∧
           BellmanFord (getGraph ek) 0 = Some (Ok bf) ∧
           cancel_loop BellmanFord fuel 0 (getGraph ek) bf = Some (Ok (getGraph r)).
Proof.
  unfold CycleCancelling.
  destruct (EdmondsKarp graph 0 (getNumNodes graph - 1)) as [[ek |] |];
    cbn [call_bind]; [| done..].
  destruct (BellmanFord (getGraph ek) 0) as [[bf |] |] eqn:Hbf; cbn [call_bind]; [| done..].
  destruct (cancel_loop BellmanFord fuel 0 (getGraph ek) bf) as [[rg' |] |] eqn:Hloop;
    cbn [call_bind]; [| done..].
  destruct (minimum_cost_of rg') as [m |]; cbn [call_bind]; [| done].
  intros [= <-]. cbn. eauto.
Qed.

(** X21: the cancelling loop only moves capacity: the graph [CycleCancelling]
    returns has the nodes of the graph that the maximum-flow step handed
    over, at most one edge per pair if that graph had, and only positive
    [int] capacities if that graph had, whatever cycles Bellman-Ford
    reports. *)
Theorem CycleCancelling_keeps_shape fuel graph r :
  CycleCancelling EdmondsKarp BellmanFord fuel graph = Some (Ok r) →
  ∃ ek, EdmondsKarp graph 0 (getNumNodes graph - 1) = Some (Ok ek) ∧
        (∀ x, is_node (getGraph r) x ↔ is_node (getGraph ek) x) ∧
        getNumNodes (getGraph r) = getNumNodes (getGraph ek) ∧
        getStartingNumNodes (getGraph r) = getStartingNumNodes (getGraph ek) ∧
        (unique_edges (getGraph ek) → unique_edges (getGraph r)) ∧
        (all_edges residual_capacity (getGraph ek) →
         all_edges residual_capacity (getGraph r)).
Proof.
  intros (ek & bf & Hek & _ & Hloop)%CycleCancelling_inv.
  exists ek. split; [done |].
  assert (same_nodes (getGraph ek) (getGraph r)) as Hsame.
  { revert Hloop. apply (cancel_loop_invariant (same_nodes (getGraph ek)));
      [| apply same_nodes_refl].
    intros rg path flow rg' Hrg _ Hsend. eapply same_nodes_trans; [done |].
    revert Hsend. apply (send_loop_invariant (same_nodes rg));
      [| unfold Int.max_int; lia | apply same_nodes_refl].
    intros a b rg1 rg2 out _ H1 Hstep. eapply same_nodes_trans; [done |].
    by eapply send_edge_same_nodes. }
  pose proof (same_nodes_size _ _ Hsame) as Hsize.
  destruct Hsame as (Hnodes & Hstart & _).
  split_and!; [done.. | |].
  - intros Hu. revert Hloop. apply (cancel_loop_invariant unique_edges); [| done].
    intros rg path flow rg' Hrg _ Hsend.
    revert Hsend. apply (send_loop_invariant unique_edges);
      [| unfold Int.max_int; lia | done].
    intros a b rg1 rg2 out _ H1 Hstep. by eapply send_edge_unique_edges.
  - intros Hpos. revert Hloop.
    apply (cancel_loop_invariant (all_edges residual_capacity)); [| done].
    intros rg path flow rg' Hrg Hflow Hsend.
    destruct path as [| x [| y rest]].
    + done.
    + by injection Hsend as <-.
    + eapply send_loop_residual_capacity; [done | | exact Hsend].
      unfold GetResidualCapacity in Hflow. cbn [length Nat.leb] in Hflow.
      eapply capacity_loop_range; [done | | exact Hflow]. by vm_compute.
Qed.

(** X23: [CycleCancelling] relies on Bellman-Ford for a cycle of at least two
    nodes.  A cycle of one node has residual capacity 0 and sending it
    changes nothing, so the same cycle is found again and the loop never
    ends; on an empty cycle [SendFlowInPath] throws out_of_range. *)
Theorem CycleCancelling_short_cycle graph ek bf :
  EdmondsKarp graph 0 (getNumNodes graph - 1) = Some (Ok ek) →
  BellmanFord (getGraph ek) 0 = Some (Ok bf) → hasNegativeCycle bf = true →
  (∀ x, getNegativeCycle bf = [x] →
        ∀ fuel, CycleCancelling EdmondsKarp BellmanFord fuel graph = None) ∧
  (getNegativeCycle bf = [] →
   ∀ fuel, CycleCancelling EdmondsKarp BellmanFord (S fuel) graph = Some (Err OutOfRange)).
Proof.
  intros Hek Hbf Hneg. split.
  - intros x Hx fuel. unfold CycleCancelling.
    rewrite Hek. cbn [call_bind]. rewrite Hbf. cbn [call_bind].
    assert (cancel_loop BellmanFord fuel 0 (getGraph ek) bf = None) as ->; [| done].
    induction fuel as [| fuel IH]; cbn [cancel_loop]; rewrite Hneg; [done |].
    rewrite Hx. cbn [GetResidualCapacity length Nat.leb call_bind].
    change (SendFlowInPath (getGraph ek) [x] 0) with (Some (getGraph ek, @Ok unit tt)).
    cbn [commit call_bind]. rewrite Hbf. cbn [call_bind]. exact IH.
  - intros Hnil fuel. unfold CycleCancelling.
    rewrite Hek. cbn [call_bind]. rewrite Hbf. cbn [call_bind].
    cbn [cancel_loop]. rewrite Hneg, Hnil. done.
Qed.

End CancelLoop.

Section CancelLoopSamples.

Import Graph GraphUtils.

Lemma CycleCancelling_keeps_shape_witness :
  Collaborators.CycleCancelling 10 sample_detour = Some (Ok sample_detour_result) ∧
  ∃ ek, Collaborators.EdmondsKarp 10 sample_detour 0 (getNumNodes sample_detour - 1)
        = Some (Ok ek) ∧
        Collaborators.BellmanFord (getGraph ek) 0
        = Some (Ok (mkBellmanFordResult true [1; 3; 2])) ∧
        edge_at (getGraph ek) 1 3 = Some (mkEdge 1 3 1 1) ∧
        edge_at (getGraph sample_detour_result) 1 3 = None ∧
        getNumNodes (getGraph sample_detour_result) = getNumNodes (getGraph ek) ∧
        unique_edges (getGraph sample_detour_result) ∧
        all_edges residual_capacity (getGraph sample_detour_result).
Proof.
  assert (Collaborators.CycleCancelling 10 sample_detour = Some (Ok sample_detour_result))
    as Hrun by (vm_compute; reflexivity).
  split; [exact Hrun |].
  destruct (CycleCancelling_keeps_shape _ _ _ _ _ Hrun)
    as (ek & Hek & _ & Hsize & _ & Hu & Hpos).
  exists ek. split; [exact Hek |].
  vm_compute in Hek. injection Hek as <-.
  split_and!.
  - vm_compute. reflexivity.
  - vm_compute. reflexivity.
  - vm_compute. reflexivity.
  - exact Hsize.
  - apply Hu. apply unique_edges_check. vm_compute. reflexivity.
  - apply Hpos. apply (all_edges_check residual_capacity). vm_compute. reflexivity.
Defined.

Lemma CycleCancelling_short_cycle_witness :
  MinimumCostFlowAlgorithms.CycleCancelling
    (λ graph _ _, Some (Ok (mkFlowResult graph 0)))
    (λ _ _, Some (Ok (mkBellmanFordResult true [0])))
    1000 sample_network = None.
Proof.
  destruct (CycleCancelling_short_cycle
              (λ graph _ _, Some (Ok (mkFlowResult graph 0)))
              (λ _ _, Some (Ok (mkBellmanFordResult true [0])))
              sample_network (mkFlowResult sample_network 0)
              (mkBellmanFordResult true [0]) eq_refl eq_refl eq_refl) as [Hone _].
  exact (Hone 0 eq_refl 1000%nat).
Defined.

End CancelLoopSamples.

(** ** [RetrievePath]: exceptions, and the path it hands on *)

Section RetrievePathMore.

Import Graph GraphUtils.

Implicit Types (parent w p : list Z).

Lemma at_elem {A : Type} (v : list A) (i : Z) (x : A) : at_ v i = Ok x → x ∈ v.
Proof.
  unfold at_. destruct (i <? 0); [done |].
  destruct (v !! Z.to_nat i) eqn:Hl; [| done].
  intros [= <-]. by eapply list_elem_of_lookup_2.
Qed.

Lemma at_in_range {A : Type} (v : list A) (i : Z) :
  0 <= i < Z.of_nat (length v) → ∃ x, at_ v i = Ok x.
Proof.
  intros Hi. unfold at_. destruct (Z.ltb_spec i 0); [lia |].
  destruct (lookup_lt_is_Some_2 v (Z.to_nat i)) as [x ->]; [lia | eauto].
Qed.

Lemma at_out_of_range {A : Type} (v : list A) (i : Z) :
  i < 0 ∨ Z.of_nat (length v) <= i → at_ v i = Err OutOfRange.
Proof.
  intros Hi. unfold at_. destruct (Z.ltb_spec i 0); [done |].
  rewrite lookup_ge_None_2; [done | lia].
Qed.

Lemma retrieve_loop_no_throw parent fuel : ∀ w tmp e,
  valid_parents parent → tmp = -1 ∨ 0 <= tmp < Z.of_nat (length parent) →
  retrieve_loop fuel parent w tmp ≠ Some (Err e).
Proof.
  induction fuel as [| fuel IH]; intros w tmp e Hvalid Htmp; cbn [retrieve_loop].
  - by destruct (_ && _).
  - destruct (Z.eqb_spec tmp (-1)) as [-> | Hne]; cbn; [done |].
    destruct (bool_decide (tmp ∈ w)); cbn; [done |].
    destruct Htmp as [? | Htmp]; [done |].
    destruct (at_in_range parent tmp Htmp) as [tmp' Hat]. rewrite Hat.
    apply IH; [done |]. by apply Hvalid, (at_elem parent tmp).
Qed.

Lemma RetrievePath_Ok parent start p :
  RetrievePath parent start = Some (Ok p) →
  NoDup p ∧ p ≠ [] ∧ (length p ≤ length parent)%nat.
Proof.
  unfold RetrievePath, RetrievePath_fuel.
  destruct (at_ parent start) as [tmp | err] eqn:Hat; [| done].
  pose proof (at_Ok _ _ _ Hat) as Hstart.
  assert (walk parent [start]) as Hw.
  { split_and!.
    - apply NoDup_singleton.
    - by intros x ->%list_elem_of_singleton.
    - intros [| i] x y; cbn; done. }
  destruct (retrieve_loop_spec parent (length parent) [start] start tmp Hw eq_refl Hat)
    as (r & -> & Hr); [cbn; lia |].
  destruct r as [w | e]; [| done]. intros [= <-].
  destruct Hr as (Hwalk & H0 & _). split_and!.
  - apply NoDup_reverse_2, Hwalk.
  - intros Hnil. apply (f_equal length) in Hnil. rewrite length_reverse in Hnil.
    destruct w; [done | cbn in Hnil; lia].
  - rewrite length_reverse. by apply walk_length.
Qed.

(** X12: when does [RetrievePath] throw: always for a start node that is not
    an index of [parent] (the sentinel -1 included), and never for a
    start node that is one if every entry of [parent] is the sentinel or
    an index.  The path it then returns is not empty and no longer than
    [parent]. *)
Theorem RetrievePath_throws parent start :
  (start < 0 ∨ Z.of_nat (length parent) <= start →
   RetrievePath parent start = Some (Err OutOfRange)) ∧
  (0 <= start < Z.of_nat (length parent) → valid_parents parent →
   ∃ p, RetrievePath parent start = Some (Ok p) ∧ p ≠ [] ∧
        (length p ≤ length parent)%nat).
Proof.
  split.
  - intros Hstart. unfold RetrievePath, RetrievePath_fuel.
    by rewrite at_out_of_range.
  - intros Hstart Hvalid.
    destruct (RetrievePath parent start) as [[p | e] |] eqn:Hrun.
    + exists p. split; [done |]. by apply RetrievePath_Ok in Hrun as (_ & ? & ?).
    + exfalso. unfold RetrievePath, RetrievePath_fuel in Hrun.
      destruct (at_in_range parent start Hstart) as [tmp Hat]. rewrite Hat in Hrun.
      destruct (retrieve_loop (length parent) parent [start] tmp) as [[w | e'] |] eqn:Hloop;
        [done | | done].
      eapply retrieve_loop_no_throw; [done | | exact Hloop].
      by apply Hvalid, (at_elem parent start).
    + exfalso. unfold RetrievePath, RetrievePath_fuel in Hrun.
      destruct (at_ parent start) as [tmp | err] eqn:Hat; [| done].
      assert (walk parent [start]) as Hw.
      { split_and!.
        - apply NoDup_singleton.
        - by intros x ->%list_elem_of_singleton.
        - intros [| i] x y; cbn; done. }
      destruct (retrieve_loop_spec parent (length parent) [start] start tmp Hw eq_refl Hat)
        as (r & Hr & _); [cbn; lia |].
      rewrite Hr in Hrun. by destruct r.
Qed.

Lemma RetrievePath_throws_witness :
  RetrievePath [-1; 0; 1] (-1) = Some (Err OutOfRange) ∧
  ∃ p, RetrievePath [-1; 0; 1] 2 = Some (Ok p) ∧ p ≠ [] ∧ (length p ≤ 3)%nat.
Proof.
  destruct (RetrievePath_throws [-1; 0; 1] (-1)) as [Hbad _].
  destruct (RetrievePath_throws [-1; 0; 1] 2) as [_ Hgood].
  split.
  - apply Hbad. lia.
  - apply Hgood; [cbn; lia |].
    intros x Hx. cbn.
    repeat (apply elem_of_cons in Hx as [-> | Hx]; [lia |]).
    by apply not_elem_of_nil in Hx.
Defined.

(** X13: a path that [RetrievePath] has returned can be handed to
    [SendFlowInPath] as it is: it runs through no pair of nodes twice, so
    a call that returns normally takes exactly [flow] from every forward
    edge of the path and gives exactly [flow] to its reverse edge. *)
Theorem RetrievePath_then_send parent start p rg flow rg' :
  RetrievePath parent start = Some (Ok p) → indexable parent →
  unique_edges rg → all_edges int_capacity rg → Int.in_range flow →
  SendFlowInPath rg p flow = Some (rg', Ok tt) →
  edge_disjoint (pairs p) ∧
  ∀ a b, (a, b) ∈ pairs p → is_forward rg a b = true →
    capacity_of rg' a b = capacity_of rg a b - flow ∧
    capacity_of rg' b a = capacity_of rg b a + flow.
Proof.
  intros (Hnd & Hne & Hlen)%RetrievePath_Ok Hfit Hu Hcap Hflow Hsend.
  pose proof (NoDup_edge_disjoint p Hnd) as Hdis. split; [done |].
  rewrite SendFlowInPath_pairs in Hsend; [| done | unfold indexable in *; lia].
  injection Hsend as Hsend.
  by apply (send_pairs_capacities (pairs p) flow rg rg').
Qed.

Lemma RetrievePath_then_send_witness :
  RetrievePath [-1; 0; 1] 2 = Some (Ok [0; 1; 2]) ∧
  ∃ rg', SendFlowInPath sample_residual [0; 1; 2] 2 = Some (rg', Ok tt) ∧
         capacity_of rg' 0 1 = 0 ∧ capacity_of rg' 1 0 = 3.
Proof.
  assert (RetrievePath [-1; 0; 1] 2 = Some (Ok [0; 1; 2])) as Hpath by (by vm_compute).
  split; [exact Hpath |].
  destruct (SendFlowInPath sample_residual [0; 1; 2] 2) as [[rg' [[] | err]] |] eqn:Hrun;
    [| by vm_compute in Hrun..].
  exists rg'. split; [done |].
  destruct (RetrievePath_then_send [-1; 0; 1] 2 [0; 1; 2] sample_residual 2 rg' Hpath)
    as [_ Hmoves]; [by vm_compute | | | by vm_compute | exact Hrun |].
  - apply unique_edges_check. by vm_compute.
  - apply (all_edges_check int_capacity). by vm_compute.
  - apply (Hmoves 0 1); [cbn; by left | by vm_compute].
Defined.

End RetrievePathMore.

(** ** [GetResidualGraph]: exceptions and shape of the result *)

Section ResidualGraphMore.

Import Graph GraphUtils.

Implicit Types (graph rg : Graph).

Lemma addEdge_Err gr s t c w err : addEdge gr s t c w = Err err → err = InvalidArgument.
Proof.
  unfold addEdge. repeat (destruct (_ || _)%bool; [congruence |]).
  destruct (edge_exists gr s t); [congruence |].
  destruct (c <? 0); congruence.
Qed.

Lemma hasEdge_Err gr s t err : hasEdge gr s t = Err err → err = InvalidArgument.
Proof.
  unfold hasEdge, checkNodeExistence, getNodeAdjList.
  destruct (g gr !! s); cbn; [| congruence].
  destruct (g gr !! t); cbn; congruence.
Qed.

Lemma foldM_Err {A S : Type} (f : S → A → result S) (l : list A) : ∀ s err,
  foldM f s l = Err err → ∃ s' a, a ∈ l ∧ f s' a = Err err.
Proof.
  induction l as [| a l IH]; intros s err; cbn; [done |].
  destruct (f s a) as [s1 |] eqn:Hf; cbn.
  - intros (s' & a' & Hin & Hf')%IH. exists s', a'. split; [by right | done].
  - intros [= <-]. exists s, a. split; [by left | done].
Qed.

Lemma foldM_fails {A S : Type} (f : S → A → result S) (l : list A) (a : A) :
  a ∈ l → (∀ s, ∃ err, f s a = Err err) → ∀ s, ∃ err, foldM f s l = Err err.
Proof.
  intros Hin Hfail. induction l as [| a0 l IH]; intros s; [by apply not_elem_of_nil in Hin |].
  cbn. destruct (f s a0) as [s1 |] eqn:Hf; cbn; [| eauto].
  apply elem_of_cons in Hin as [-> | Hin]; [| by apply IH].
  destruct (Hfail s) as [err Herr]. congruence.
Qed.

Lemma residual_edge_Err graph source rg e err :
  residual_edge graph source rg e = Err err → err = InvalidArgument.
Proof.
  unfold residual_edge. destruct (_ <=? _); [done |].
  destruct (if source <? getSink e then hasEdge graph (getSink e) source else Ok false)
    as [[] | err'] eqn:Hanti; cbn.
  - destruct (addEdge rg source _ _ _) as [rg1 |] eqn:H1; cbn.
    + apply addEdge_Err.
    + intros [= <-]. by eapply addEdge_Err.
  - apply addEdge_Err.
  - intros [= <-]. destruct (source <? getSink e); [by eapply hasEdge_Err | done].
Qed.

Lemma residual_node_Err graph rg source err :
  residual_node graph rg source = Err err → err = InvalidArgument.
Proof.
  unfold residual_node, getNodeAdjList.
  destruct (g graph !! source) as [adj |]; cbn; [| congruence].
  intros (rg' & e & _ & He)%foldM_Err. by eapply residual_edge_Err.
Qed.

(** X3: [GetResidualGraph] throws nothing but invalid_argument, and it does
    throw when the node ids of its input are not 0, ..., n - 1: the loop
    over the nodes asks for the adjacency list of every id below the
    number of nodes. *)
Theorem GetResidualGraph_missing_node graph :
  (∀ err, GetResidualGraph graph = Err err → err = InvalidArgument) ∧
  ∀ k, 0 <= k < getNumNodes graph → ¬ is_node graph k →
       GetResidualGraph graph = Err InvalidArgument.
Proof.
  assert (∀ err, GetResidualGraph graph = Err err → err = InvalidArgument) as Honly.
  { intros err (rg & s & _ & Hs)%foldM_Err. by eapply residual_node_Err. }
  split; [done |]. intros k Hk Hnode.
  destruct (foldM_fails (residual_node graph) (seqZ 0 (getNumNodes graph)) k)
    with (s := Graph.new (getNumNodes graph)) as [err Herr].
  - apply elem_of_seqZ. lia.
  - intros rg. exists InvalidArgument. unfold residual_node, getNodeAdjList.
    destruct (g graph !! k) eqn:Hl; [| done]. exfalso. apply Hnode. by eexists.
  - fold (GetResidualGraph graph) in Herr. by rewrite Herr, (Honly err Herr).
Qed.

Lemma GetResidualGraph_unique_edges graph rg :
  GetResidualGraph graph = Ok rg →
  unique_edges rg ∧ getStartingNumNodes rg = getNumNodes graph.
Proof.
  unfold GetResidualGraph.
  apply (foldM_invariant
           (λ rg, unique_edges rg ∧ getStartingNumNodes rg = getNumNodes graph));
    [| split; [apply new_unique_edges | done]].
  intros rg0 source rg1 _ Hrg0. unfold residual_node.
  destruct (getNodeAdjList graph source) as [adj |]; cbn; [| done].
  revert rg0 rg1 Hrg0. apply foldM_invariant.
  intros rg0 e rg1 _ [Hu Hn]. unfold residual_edge.
  destruct (_ <=? _); [by intros [= <-] |].
  destruct (if source <? getSink e then hasEdge graph (getSink e) source else Ok false)
    as [[] |]; cbn; [| | done].
  - destruct (addEdge rg0 source _ _ _) as [rg' |] eqn:H1; cbn; [| done].
    intros H2. split.
    + eapply unique_edges_addEdge; [exact H2 |]. by eapply unique_edges_addEdge.
    + apply addEdge_fields in H1 as [H1 _], H2 as [H2 _].
      unfold getStartingNumNodes in *. congruence.
  - intros H1. split; [by eapply unique_edges_addEdge |].
    apply addEdge_fields in H1 as [H1 _]. unfold getStartingNumNodes in *. congruence.
Qed.

(** X4: the residual graph is a graph of the same kind as the input: built
    from a graph with dense node ids and at most one edge per ordered
    pair it has dense node ids (the artificial nodes come right after the
    nodes of the input), at most one edge per ordered pair and no edge
    into a missing node; its starting number of nodes is the number of
    nodes of the input. *)
Theorem GetResidualGraph_well_formed graph rg :
  dense graph → unique_edges graph → GetResidualGraph graph = Ok rg →
  dense rg ∧ unique_edges rg ∧ closed rg ∧
  getStartingNumNodes rg = getNumNodes graph ∧
  getNumNodes graph <= getNumNodes rg.
Proof.
  intros Hdense Hu Hrg.
  destruct (GetResidualGraph_inv graph rg Hdense Hu Hrg)
    as [(m & Hm & Hnodes) _ Hends _ _ _ _].
  destruct (GetResidualGraph_unique_edges graph rg Hrg) as [Hu' Hstart].
  assert (0 <= m) as Hm0 by (unfold getNumNodes in Hm; lia).
  pose proof (dense_size rg m Hm0 Hnodes) as Hsize.
  split_and!; [| done | | done | lia].
  - intros k. rewrite Hsize. apply Hnodes.
  - intros s l e Hl Hin. apply (Hends s). exists e.
    unfold edge_at. rewrite Hl. cbn. apply find_edge_unique; [by eapply Hu' | done].
Qed.

Lemma GetResidualGraph_well_formed_witness :
  ∃ rg, GetResidualGraph sample_antiparallel = Ok rg ∧
        dense rg ∧ unique_edges rg ∧ closed rg ∧ getStartingNumNodes rg = 3.
Proof.
  destruct (GetResidualGraph sample_antiparallel) as [rg |] eqn:Hrg;
    [| by vm_compute in Hrg].
  exists rg. split; [done |].
  destruct (GetResidualGraph_well_formed sample_antiparallel rg)
    as (Hd & Hu & Hc & Hn & _).
  - apply dense_check. by vm_compute.
  - apply unique_edges_check. by vm_compute.
  - exact Hrg.
  - split_and!; [exact Hd | exact Hu | exact Hc |]. rewrite Hn. by vm_compute.
Defined.

Lemma GetResidualGraph_unsplit graph rg :
  dense graph → unique_edges graph →
  (∀ p, p ∈ entries graph → ¬ is_split graph p) →
  GetResidualGraph graph = Ok rg →
  getNumNodes rg = getNumNodes graph ∧
  ∀ s t, edge_at rg s t = edge_at graph s t ≫= positive_edge s.
Proof.
  intros Hdense Hu Hnosplit Hrg.
  destruct (GetResidualGraph_inv graph rg Hdense Hu Hrg)
    as [(m & Hm & Hnodes) Hcount Hends Hdirect Hplaced _ _].
  assert (filter (is_split graph) (entries graph) = []) as Hfilter.
  { destruct (filter (is_split graph) (entries graph)) as [| p l'] eqn:Hf; [done |].
    assert (p ∈ filter (is_split graph) (entries graph)) as Hp by (rewrite Hf; by left).
    apply list_elem_of_filter in Hp as [Hsplit Hin]. by apply Hnosplit in Hin. }
  rewrite Hfilter in Hcount. cbn in Hcount.
  assert (0 <= m) as Hm0 by (unfold getNumNodes in Hm; lia).
  pose proof (dense_size rg m Hm0 Hnodes) as Hsize.
  split; [lia |]. intros s t.
  destruct (edge_at graph s t) as [e |] eqn:He; cbn.
  - destruct (edge_at_entry graph s t e Hdense He) as [Hin Hsink].
    unfold positive_edge. destruct (Z.ltb_spec 0 (getCapacity e)) as [Hc | Hc].
    + specialize (Hplaced s e Hin Hc).
      rewrite decide_False in Hplaced by (by apply Hnosplit). by rewrite <- Hsink.
    + destruct (edge_at rg s t) as [e' |] eqn:He'; [exfalso | done].
      destruct (Hdirect s t e') as (e0 & Hin0 & Hsink0 & Hc0 & _); [| | done |].
      * apply edge_at_node, Hnodes in He'. lia.
      * assert (is_node rg t) as Ht by (apply (Hends s); eauto).
        apply Hnodes in Ht. lia.
      * apply (entry_edge_at graph s e0 Hu) in Hin0. rewrite Hsink0 in Hin0.
        assert (e0 = e) as -> by congruence. lia.
  - destruct (edge_at rg s t) as [e' |] eqn:He'; [exfalso | done].
    destruct (Hdirect s t e') as (e0 & Hin0 & Hsink0 & _); [| | done |].
    + apply edge_at_node, Hnodes in He'. lia.
    + assert (is_node rg t) as Ht by (apply (Hends s); eauto).
      apply Hnodes in Ht. lia.
    + apply (entry_edge_at graph s e0 Hu) in Hin0. rewrite Hsink0 in Hin0. congruence.
Qed.

Lemma no_antiparallel_unsplit graph p :
  no_antiparallel graph → p ∈ entries graph → ¬ is_split graph p.
Proof.
  intros Hno Hin (_ & Hlt & Hback).
  by eapply (proj1 (Forall_forall _ _) Hno p).
Qed.

(** X5: without anti-parallel pairs [GetResidualGraph] is a copy that drops
    the edges without capacity: no node is added, and between two nodes
    the residual graph has the edge of the input when its capacity is
    positive, and no edge otherwise. *)
Theorem GetResidualGraph_copy graph rg :
  dense graph → unique_edges graph → no_antiparallel graph →
  GetResidualGraph graph = Ok rg →
  getNumNodes rg = getNumNodes graph ∧
  ∀ s t, edge_at rg s t = edge_at graph s t ≫= positive_edge s.
Proof.
  intros Hdense Hu Hno Hrg.
  apply GetResidualGraph_unsplit; [done | done | | done].
  intros p Hin. by apply no_antiparallel_unsplit.
Qed.

Lemma GetResidualGraph_missing_node_witness :
  GetResidualGraph sample_gap = Err InvalidArgument.
Proof.
  destruct (GetResidualGraph_missing_node sample_gap) as [_ Hgap].
  apply (Hgap 2); [by vm_compute |].
  intros [l Hl]. by vm_compute in Hl.
Defined.

Lemma GetResidualGraph_copy_witness :
  ∃ rg, GetResidualGraph sample_network = Ok rg ∧ getNumNodes rg = 4 ∧
        edge_at rg 0 2 = Some (mkEdge 0 2 1 2).
Proof.
  destruct (GetResidualGraph sample_network) as [rg |] eqn:Hrg; [| by vm_compute in Hrg].
  exists rg. split; [done |].
  destruct (GetResidualGraph_copy sample_network rg) as [Hsize Hedges].
  - apply dense_check. by vm_compute.
  - apply unique_edges_check. by vm_compute.
  - apply (bool_decide_eq_true_1 _). by vm_compute.
  - exact Hrg.
  - split; [rewrite Hsize; by vm_compute | rewrite Hedges; by vm_compute].
Defined.

End ResidualGraphMore.

(** ** [GetOptimalGraph]: shape of the result *)

Section OptimalGraph.

Import Graph GraphUtils.

Implicit Types (graph rg og : Graph).

Lemma foldM_post {A S : Type} (f : S → A → result S) (Q : A → S → Prop) (l : list A) :
  (∀ s a s', a ∈ l → f s a = Ok s' → Q a s') →
  (∀ s a s' b, f s a = Ok s' → Q b s → Q b s') →
  ∀ s s', foldM f s l = Ok s' → ∀ a, a ∈ l → Q a s'.
Proof.
  intros Hpost Hmono. induction l as [| a0 l IH]; intros s s'; cbn.
  - intros _ a Hin. by apply not_elem_of_nil in Hin.
  - destruct (f s a0) as [s1 |] eqn:Hf; cbn; [| done].
    intros Hrest a [-> | Hin]%elem_of_cons.
    + assert (Q a0 s1) as H1 by (eapply Hpost; [by left | done]).
      clear IH Hpost Hf. revert s1 s' Hrest H1.
      induction l as [| a1 l IH]; intros s1 s'; cbn; [by intros [= <-] |].
      destruct (f s1 a1) as [s2 |] eqn:Hf; cbn; [| done].
      intros Hrest H1. eapply IH; [done |]. by eapply Hmono.
    + eapply IH; [| done..]. intros s0 a1 s0' Hin'. apply Hpost. by right.
Qed.

Lemma grows_refl og : grows og og.
Proof. by intros x y e. Qed.

Lemma grows_trans og1 og2 og3 : grows og1 og2 → grows og2 og3 → grows og1 og3.
Proof. intros H1 H2 x y e He. by apply H2, H1. Qed.

Lemma foldM_grows {A : Type} (f : Graph → A → result Graph) (l : list A) :
  (∀ og a og', f og a = Ok og' → grows og og') →
  ∀ og og', foldM f og l = Ok og' → grows og og'.
Proof.
  intros Hstep og og' Hrun. revert Hrun.
  apply (foldM_invariant (grows og)); [| apply grows_refl].
  intros og1 a og2 _ H1 Hf. eapply grows_trans; [done |]. by eapply Hstep.
Qed.

Lemma addEdge_grows og s t c w og' : addEdge og s t c w = Ok og' → grows og og'.
Proof. intros H x y e He. by eapply addEdge_mono. Qed.

Lemma zero_flow_edge_grows source og e og' :
  zero_flow_edge source og e = Ok og' → grows og og'.
Proof.
  unfold zero_flow_edge. destruct (hasEdge og source (getSink e)) as [[] |]; cbn; [| | done].
  - intros [= <-]. apply grows_refl.
  - apply addEdge_grows.
Qed.

Lemma zero_flow_edge_present source og e og' :
  zero_flow_edge source og e = Ok og' → is_Some (edge_at og' source (getSink e)).
Proof.
  unfold zero_flow_edge.
  destruct (hasEdge og source (getSink e)) as [b |] eqn:Hhas; cbn; [| done].
  apply hasEdge_Ok in Hhas as (_ & _ & ->). case_bool_decide as Hpresent.
  - by intros [= <-].
  - intros Hadd. rewrite (addEdge_edge_at _ _ _ _ _ _ _ _ Hadd), decide_True by done.
    eauto.
Qed.

Lemma zero_flow_node_grows graph og source og' :
  zero_flow_node graph og source = Ok og' → grows og og'.
Proof.
  unfold zero_flow_node. destruct (getNodeAdjList graph source) as [adj |]; cbn; [| done].
  apply foldM_grows. intros og1 e og2. apply zero_flow_edge_grows.
Qed.

Lemma optimal_edge_shape rg source og e og' :
  optimal_edge rg source og e = Ok og' →
  (unique_edges og → unique_edges og') ∧
  getStartingNumNodes og' = getStartingNumNodes og ∧
  getArtificialNodesMap og' = getArtificialNodesMap og.
Proof.
  unfold optimal_edge. destruct (0 <=? getWeight e); [by intros [= <-] |].
  assert (∀ s, addEdge og s source (getCapacity e) (Int.neg (getWeight e)) = Ok og' →
               (unique_edges og → unique_edges og') ∧
               getStartingNumNodes og' = getStartingNumNodes og ∧
               getArtificialNodesMap og' = getArtificialNodesMap og) as Hadd.
  { intros s H. split; [intros; by eapply unique_edges_addEdge |].
    by apply addEdge_fields in H as [? ?]. }
  destruct (_ <=? _); [| apply Hadd].
  destruct (getNodeAdjList rg (getSink e)) as [adj |]; cbn [mbind result_bind rbind];
    [| done].
  destruct (at_ adj 0) as [first |]; cbn [mbind result_bind rbind]; [apply Hadd | done].
Qed.

Lemma zero_flow_edge_shape source og e og' :
  zero_flow_edge source og e = Ok og' →
  (unique_edges og → unique_edges og') ∧
  getStartingNumNodes og' = getStartingNumNodes og ∧
  getArtificialNodesMap og' = getArtificialNodesMap og.
Proof.
  unfold zero_flow_edge. destruct (hasEdge og source (getSink e)) as [[] |]; cbn; [| | done].
  - by intros [= <-].
  - intros H. split; [intros; by eapply unique_edges_addEdge |].
    by apply addEdge_fields in H as [? ?].
Qed.

(** X6: the graph of flows that [GetOptimalGraph] returns has an edge for
    every edge of the original graph (with flow 0 when the residual graph
    gives none), at most one edge per ordered pair, the starting number
    of nodes of the residual graph and no artificial-node map. *)
Theorem GetOptimalGraph_covers rg graph og :
  GetOptimalGraph rg graph = Ok og →
  (∀ s e, (s, e) ∈ entries graph → is_Some (edge_at og s (getSink e))) ∧
  unique_edges og ∧
  getStartingNumNodes og = getStartingNumNodes rg ∧
  getArtificialNodesMap og = ∅.
Proof.
  unfold GetOptimalGraph.
  destruct (foldM (optimal_node rg) _ _) as [og1 |] eqn:Hfirst; cbn; [| done].
  intros Hsecond.
  set (shape := λ og : Graph,
         unique_edges og ∧ getStartingNumNodes og = getStartingNumNodes rg ∧
         getArtificialNodesMap og = ∅).
  assert (shape og1) as H1.
  { revert Hfirst. apply (foldM_invariant shape);
      [| split_and!; [apply new_unique_edges | done..]].
    intros og0 source og' _ Hog0. unfold optimal_node.
    destruct (getNodeAdjList rg source) as [adj |]; cbn; [| done].
    revert og0 og' Hog0. apply foldM_invariant.
    intros og0 e og' _ (Hu & Hn & Hm) (Hu' & Hn' & Hm')%optimal_edge_shape.
    split_and!; [auto | congruence..]. }
  assert (shape og) as (Hu & Hn & Hm).
  { revert Hsecond. apply (foldM_invariant shape); [| done].
    intros og0 source og' _ Hog0. unfold zero_flow_node.
    destruct (getNodeAdjList graph source) as [adj |]; cbn; [| done].
    revert og0 og' Hog0. apply foldM_invariant.
    intros og0 e og' _ (Hu & Hn & Hm) (Hu' & Hn' & Hm')%zero_flow_edge_shape.
    split_and!; [auto | congruence..]. }
  split_and!; [| done..].
  intros s e [Hs He]%elem_of_entries.
  pose proof (foldM_post (zero_flow_node graph)
                (λ s og, ∀ e, e ∈ adj_of graph s → is_Some (edge_at og s (getSink e)))
                (seqZ 0 (getNumNodes graph))) as Hpost.
  eapply Hpost; [| | exact Hsecond | | exact He].
  - clear. intros og0 s og' _. unfold zero_flow_node, getNodeAdjList, adj_of.
    destruct (g graph !! s) as [adj |]; cbn; [| done].
    intros Hrun e He.
    eapply (foldM_post (zero_flow_edge s)
              (λ e og, is_Some (edge_at og s (getSink e)))); [| | exact Hrun | exact He].
    + intros og1 e1 og2 _. apply zero_flow_edge_present.
    + intros og1 e1 og2 e2 Hstep [e' He']. exists e'.
      by apply (zero_flow_edge_grows _ _ _ _ Hstep).
  - intros og0 s0 og' s1 Hstep Hs1 e1 He1.
    destruct (Hs1 e1 He1) as [e' He']. exists e'.
    by apply (zero_flow_node_grows _ _ _ _ Hstep).
  - apply elem_of_seqZ. lia.
Qed.

Lemma GetOptimalGraph_covers_witness :
  ∃ og, GetOptimalGraph sample_antiparallel_final sample_antiparallel = Ok og ∧
        is_Some (edge_at og 1 0) ∧ unique_edges og.
Proof.
  destruct (GetOptimalGraph sample_antiparallel_final sample_antiparallel)
    as [og |] eqn:Hog; [| by vm_compute in Hog].
  exists og. split; [done |].
  destruct (GetOptimalGraph_covers _ _ _ Hog) as (Hall & Hu & _).
  split; [| exact Hu].
  apply (Hall 1 (mkEdge 1 0 1 1)). apply elem_of_entries. split; [by vm_compute |].
  vm_compute. left.
Defined.

End OptimalGraph.

(** ** [GetOptimalGraph] on a fresh residual graph *)

Section NoFlow.

Import Graph GraphUtils.

Implicit Types (graph rg og : Graph).

Lemma foldM_id {A S : Type} (f : S → A → result S) (l : list A) (s : S) :
  (∀ a, a ∈ l → f s a = Ok s) → foldM f s l = Ok s.
Proof.
  induction l as [| a l IH]; intros Hid; cbn; [done |].
  rewrite Hid by (by left). cbn. apply IH. intros a' Hin. apply Hid. by right.
Qed.

Lemma foldM_entries {S : Type} (f : Z → S → Edge → result S) graph (s0 : S) :
  dense graph →
  foldM (λ s k, adj ← getNodeAdjList graph k; foldM (f k) s adj) s0
    (seqZ 0 (getNumNodes graph))
  = foldM (λ s p, f p.1 s p.2) s0 (entries graph).
Proof.
  intros Hdense. unfold entries. revert s0.
  assert (∀ s, s ∈ seqZ 0 (getNumNodes graph) → is_node graph s) as Hnodes.
  { intros s Hs%elem_of_seqZ. apply Hdense. lia. }
  induction (seqZ 0 (getNumNodes graph)) as [| k l IH]; intros s0; [done |].
  cbn [foldM]. rewrite bind_cons, foldM_app.
  destruct (Hnodes k) as [adj Hadj]; [by left |].
  assert ((adj ← getNodeAdjList graph k; foldM (f k) s0 adj) =
          foldM (λ s p, f p.1 s p.2) s0 ((λ e, (k, e)) <$> adj_of graph k)) as ->.
  { unfold getNodeAdjList, adj_of. rewrite Hadj. cbn. by rewrite foldM_fmap. }
  destruct (foldM (λ s p, f p.1 s p.2) s0 _) as [s1 |]; cbn; [| done].
  apply IH. intros s' Hs'. apply Hnodes. by right.
Qed.

Lemma GetResidualGraph_all_edges_of (P : Edge → Prop) graph rg :
  (∀ s l e, g graph !! s = Some l → e ∈ l →
            ∀ s' t', P (mkEdge s' t' (getCapacity e) (getWeight e))) →
  GetResidualGraph graph = Ok rg → all_edges P rg.
Proof.
  intros HP. unfold GetResidualGraph.
  apply foldM_invariant; [| apply new_all_edges].
  intros rg0 source rg1 _ Hrg0. unfold residual_node, getNodeAdjList.
  destruct (g graph !! source) as [adj |] eqn:Hadj; cbn; [| done].
  revert rg0 rg1 Hrg0. apply foldM_invariant.
  intros rg0 e rg1 Hin Hrg0. apply residual_edge_all_edges; [| done].
  intros _. by apply (HP source adj e).
Qed.

Lemma zero_flow_inv_new graph : zero_flow_inv graph (Graph.new (getNumNodes graph)) [].
Proof.
  split.
  - intros k. unfold is_node. rewrite new_lookup. case_decide; split; eauto; try lia.
    by intros [? ?].
  - intros s e Hin. by apply not_elem_of_nil in Hin.
  - intros s t. rewrite new_edge_at. by intros [? ?].
Qed.

Lemma zero_flow_step graph og done p :
  0 <= p.1 < getNumNodes graph → 0 <= getSink p.2 < getNumNodes graph →
  (p.1, getSink p.2) ∉ ((λ q, (q.1, getSink q.2)) <$> done) →
  zero_flow_inv graph og done →
  ∃ og', zero_flow_edge p.1 og p.2 = Ok og' ∧ zero_flow_inv graph og' (done ++ [p]).
Proof.
  destruct p as [s0 e0]. cbn [fst snd]. intros Hs0 Ht0 Hfresh [Hnodes Hplaced Honly].
  assert (edge_at og s0 (getSink e0) = None) as Hnone.
  { destruct (edge_at og s0 (getSink e0)) as [e' |] eqn:He'; [exfalso | done].
    destruct (Honly s0 (getSink e0)) as (e & Hin & Hsink); [eauto |].
    apply Hfresh. apply list_elem_of_fmap. exists (s0, e). cbn. by rewrite Hsink. }
  assert (getNumNodes og = getNumNodes graph) as Hsize.
  { apply dense_size; [unfold getNumNodes; lia | done]. }
  unfold zero_flow_edge.
  rewrite hasEdge_nodes by (by apply Hnodes). cbn.
  rewrite Hnone, bool_decide_eq_false_2 by (by intros [? ?]).
  destruct (addEdge og s0 (getSink e0) 0 (getWeight e0)) as [og' |] eqn:Hadd.
  - exists og'. split; [done |]. split.
    + intros k. rewrite (addEdge_is_node _ _ _ _ _ _ k Hadd), Hnodes. lia.
    + intros s e [Hin | [= -> ->]%list_elem_of_singleton]%elem_of_app.
      * eapply addEdge_mono; [done |]. by apply Hplaced.
      * by rewrite (addEdge_edge_at _ _ _ _ _ _ _ _ Hadd), decide_True.
    + intros s t [(-> & ->) | Hsome]%(addEdge_edge_at_Some _ _ _ _ _ _ _ _ Hadd).
      * exists e0. split; [| done]. apply elem_of_app. right. by left.
      * destruct (Honly s t Hsome) as (e & Hin & Hsink).
        exists e. split; [| done]. apply elem_of_app. by left.
  - exfalso.
    assert (∃ og', addEdge og s0 (getSink e0) 0 (getWeight e0) = Ok og') as [og' Hok];
      [| congruence].
    eexists. apply addEdge_Ok. rewrite Hsize. split_and!; [lia.. | done | done | done].
Qed.

(** X7: with no flow sent, the flows read off the residual graph are all 0:
    for a graph with dense node ids, one edge per pair, no edge into a
    missing node and no negative cost, [GetResidualGraph] followed by
    [GetOptimalGraph] returns the edges of the graph, each with flow 0
    and its cost. *)
Theorem GetOptimalGraph_no_flow graph :
  dense graph → unique_edges graph → closed graph → all_edges nonnegative_cost graph →
  ∃ rg og, GetResidualGraph graph = Ok rg ∧ GetOptimalGraph rg graph = Ok og ∧
           ∀ s t, edge_at og s t = zero_flow s <$> edge_at graph s t.
Proof.
  intros Hdense Hu Hclosed Hcost.
  destruct (GetResidualGraph_succeeds graph Hdense Hu Hclosed) as [rg Hrg].
  destruct (GetResidualGraph_inv graph rg Hdense Hu Hrg) as [(m & Hm & Hnodes) _ _ _ _ _ _].
  destruct (GetResidualGraph_unique_edges graph rg Hrg) as [_ Hstart].
  assert (all_edges nonnegative_cost rg) as Hcost'.
  { apply (GetResidualGraph_all_edges_of nonnegative_cost graph rg); [| done].
    intros s l e Hl Hin s' t'. apply (Hcost s l e Hl Hin). }
  exists rg. unfold GetOptimalGraph. rewrite Hstart.
  (* the first loop finds no edge that carries flow *)
  rewrite (foldM_id (optimal_node rg)); cycle 1.
  { intros s Hs%elem_of_seqZ. unfold optimal_node, getNodeAdjList.
    destruct (proj2 (Hnodes s)) as [adj Hadj]; [lia |]. rewrite Hadj. cbn.
    apply foldM_id. intros e He. unfold optimal_edge.
    pose proof (Hcost' s adj e Hadj He) as Hw. unfold nonnegative_cost in Hw.
    by destruct (Z.leb_spec 0 (getWeight e)); [| lia]. }
  cbn [mbind result_bind rbind].
  (* the second loop adds every edge with flow 0 *)
  change (zero_flow_node graph) with
    (λ og k, adj ← getNodeAdjList graph k; foldM (zero_flow_edge k) og adj).
  rewrite (foldM_entries zero_flow_edge) by done.
  pose proof (entries_NoDup graph Hu) as Hnd.
  assert (∀ done p, (done ++ [p]) `prefix_of` entries graph →
            0 <= p.1 < getNumNodes graph ∧ 0 <= getSink p.2 < getNumNodes graph ∧
            (p.1, getSink p.2) ∉ ((λ q, (q.1, getSink q.2)) <$> done)) as Hentry.
  { intros done [s0 e0] [rest Hpre]. cbn.
    assert ((s0, e0) ∈ entries graph) as Hp.
    { rewrite Hpre. apply elem_of_app. left. apply elem_of_app. right. by left. }
    apply elem_of_entries in Hp as [Hs0 Hin]. split_and!; [lia.. | | |].
    - unfold adj_of in Hin.
      destruct (g graph !! s0) as [l |] eqn:Hl; cbn in Hin;
        [| by apply not_elem_of_nil in Hin].
      apply Hdense. by eapply Hclosed.
    - unfold adj_of in Hin.
      destruct (g graph !! s0) as [l |] eqn:Hl; cbn in Hin;
        [| by apply not_elem_of_nil in Hin].
      apply Hdense. by eapply Hclosed.
    - rewrite Hpre, <- app_assoc, !fmap_app in Hnd.
      apply NoDup_app in Hnd as (_ & Hfresh & _).
      intros Hin'. apply (Hfresh _ Hin'). cbn. by left. }
  assert (∀ og done p og', (done ++ [p]) `prefix_of` entries graph →
            zero_flow_inv graph og done → zero_flow_edge p.1 og p.2 = Ok og' →
            zero_flow_inv graph og' (done ++ [p])) as Hstep.
  { intros og done p og' Hpre Hinv Hrun.
    destruct (Hentry done p Hpre) as (? & ? & ?).
    destruct (zero_flow_step graph og done p) as (og'' & Hrun' & Hinv'); try done.
    congruence. }
  destruct (foldM_prefix_progress (zero_flow_inv graph)
              (λ og p, zero_flow_edge p.1 og p.2) (entries graph) Hstep)
    with (s := Graph.new (getNumNodes graph)) as [og Hog].
  { intros og done p Hpre Hinv.
    destruct (Hentry done p Hpre) as (? & ? & ?).
    destruct (zero_flow_step graph og done p) as (og'' & Hrun' & _); try done.
    eauto. }
  { apply zero_flow_inv_new. }
  exists og. split_and!; [done | done |].
  pose proof (foldM_prefix_invariant (zero_flow_inv graph)
                (λ og p, zero_flow_edge p.1 og p.2) (entries graph) Hstep
                _ _ (zero_flow_inv_new graph) Hog) as [_ Hplaced Honly].
  intros s t. destruct (edge_at graph s t) as [e |] eqn:He; cbn.
  - destruct (edge_at_entry graph s t e Hdense He) as [Hin <-]. by apply Hplaced.
  - destruct (edge_at og s t) as [e' |] eqn:He'; [exfalso | done].
    destruct (Honly s t) as (e & Hin & Hsink); [eauto |].
    apply (entry_edge_at graph s e Hu) in Hin. rewrite Hsink in Hin. congruence.
Qed.

Lemma GetOptimalGraph_no_flow_witness :
  ∃ rg og, GetResidualGraph sample_network = Ok rg ∧
           GetOptimalGraph rg sample_network = Ok og ∧
           edge_at og 0 2 = Some (mkEdge 0 2 0 2).
Proof.
  destruct (GetOptimalGraph_no_flow sample_network) as (rg & og & Hrg & Hog & Hedges).
  - apply dense_check. by vm_compute.
  - apply unique_edges_check. by vm_compute.
  - apply closed_check. by vm_compute.
  - apply (all_edges_check nonnegative_cost). by vm_compute.
  - exists rg, og. split_and!; [exact Hrg | exact Hog |].
    rewrite Hedges. by vm_compute.
Defined.

End NoFlow.

(** ** [CreateGraphFromJSON] *)

Section CreateGraphFromJSONFacts.

Import Graph GraphUtils.

Variable opens : string → bool.
Variable read_json : string → result (Z * list JsonEdge).

Lemma string_app_nil (s : string) : "" +:+ s = s.
Proof. reflexivity. Qed.

Lemma string_app_cons (x : ascii) (pre s : string) :
  String x pre +:+ s = String x (pre +:+ s).
Proof. reflexivity. Qed.

Lemma last_index_None c s :
  last_index c s = None → ∀ pre post, s ≠ pre +:+ String c post.
Proof.
  induction s as [| x s IH]; cbn.
  - intros _ [| y pre] post; done.
  - destruct (last_index c s) as [i |]; [done |].
    destruct (Ascii.eqb_spec x c) as [-> | Hne]; [done |].
    intros _ [| y pre] post.
    + rewrite string_app_nil. intros [= -> _]. done.
    + rewrite string_app_cons. intros [= _ Hs]. by eapply IH.
Qed.

Lemma last_index_Some c s i :
  last_index c s = Some i →
  ∃ pre post, s = pre +:+ String c post ∧ last_index c post = None ∧
              String.length pre = i.
Proof.
  revert i. induction s as [| x s IH]; intros i; cbn; [done |].
  destruct (last_index c s) as [j |] eqn:Hj.
  - intros [= <-]. destruct (IH j eq_refl) as (pre & post & -> & Hpost & Hlen).
    exists (String x pre), post. rewrite string_app_cons. cbn. by rewrite Hlen.
  - destruct (Ascii.eqb_spec x c) as [-> | Hne]; [| done].
    intros [= <-]. by exists "", s.
Qed.

Lemma last_index_app c pre post :
  last_index c post = None →
  last_index c (pre +:+ String c post) = Some (String.length pre).
Proof.
  intros Hpost. induction pre as [| x pre IH].
  - rewrite string_app_nil. cbn. by rewrite Hpost, Ascii.eqb_refl.
  - rewrite string_app_cons. cbn. by rewrite IH.
Qed.

Lemma drop_chars_app pre s : drop_chars (String.length pre) (pre +:+ s) = s.
Proof.
  induction pre as [| x pre IH]; [by rewrite string_app_nil |].
  rewrite string_app_cons. cbn. exact IH.
Qed.

Lemma length_app_string pre s :
  String.length (pre +:+ s) = (String.length pre + String.length s)%nat.
Proof.
  induction pre as [| x pre IH]; [by rewrite string_app_nil |].
  rewrite string_app_cons. cbn. by rewrite IH.
Qed.

Lemma string_app_assoc (pre : string) (x : ascii) (post : string) :
  (pre +:+ String x "") +:+ post = pre +:+ String x post.
Proof.
  induction pre as [| y pre IH]; [done |].
  rewrite !string_app_cons. by rewrite IH.
Qed.

Lemma string_app_inv (pre stem : string) (x : ascii) (post s : string) :
  pre +:+ String x post = stem +:+ String x s →
  String.length pre = String.length stem → post = s.
Proof.
  revert stem. induction pre as [| y pre IH]; intros [| z stem]; try done.
  - rewrite !string_app_nil. by intros [= ->].
  - rewrite !string_app_cons. intros [= -> Hs] [= Hl]. by eapply IH.
Qed.

(** The text after the last dot, or the whole name when it has no dot. *)
Lemma extension_spec filename :
  Z.of_nat (String.length filename) < npos →
  ∃ extension,
    substr filename ((find_last_of filename "."%char + 1) mod 2 ^ 64) = Ok extension ∧
    (extension = "json" ↔ json_name filename).
Proof.
  intros Hfit. unfold find_last_of, npos in *.
  destruct (last_index "." filename) as [i |] eqn:Hi.
  - apply last_index_Some in Hi as (pre & post & -> & Hpost & <-).
    rewrite length_app_string in Hfit. cbn [String.length] in Hfit.
    exists post. split.
    + unfold substr. rewrite Z.mod_small by lia.
      rewrite length_app_string. cbn [String.length].
      destruct (Z.ltb_spec (Z.of_nat (String.length pre + S (String.length post)))
                  (Z.of_nat (String.length pre) + 1)); [lia |].
      replace (Z.to_nat (Z.of_nat (String.length pre) + 1))
        with (String.length (pre +:+ ".")) by (rewrite length_app_string; cbn; lia).
      rewrite <- (string_app_assoc pre "." post). by rewrite drop_chars_app.
    + split.
      * intros ->. right. by exists pre.
      * intros [Hjson | [stem Hstem]].
        { apply (f_equal (last_index ".")) in Hjson.
          rewrite last_index_app in Hjson by done. done. }
        apply (f_equal (last_index ".")) in Hstem as Hidx.
        rewrite last_index_app in Hidx by done.
        change (stem +:+ ".json") with (stem +:+ String "." "json") in Hidx.
        rewrite last_index_app in Hidx by done.
        injection Hidx as Hlen.
        change (stem +:+ ".json") with (stem +:+ String "." "json") in Hstem.
        by eapply string_app_inv.
  - exists filename. split.
    + unfold substr. change ((2 ^ 64 - 1 + 1) mod 2 ^ 64) with 0.
      destruct (Z.ltb_spec (Z.of_nat (String.length filename)) 0); [lia | done].
    + split; [by left |].
      intros [-> | [stem ->]]; [done | exfalso].
      by eapply (last_index_None _ _ Hi stem "json").
Qed.

(** X1: [CreateGraphFromJSON] throws nothing but invalid_argument.  It gets to
    the contents of a file exactly when the file opens and its name is
    "json" or ends in ".json": the extension is what follows the last dot,
    and the whole name when there is no dot.  It then returns the graph
    that the loop over the edges has built. *)
Theorem CreateGraphFromJSON_extension filename :
  Z.of_nat (String.length filename) < npos →
  (∀ err, CreateGraphFromJSON opens read_json filename = Err err → err = InvalidArgument) ∧
  (∀ graph, CreateGraphFromJSON opens read_json filename = Ok graph ↔
     opens filename = true ∧ json_name filename ∧
     ∃ num_nodes edges, read_json filename = Ok (num_nodes, edges) ∧
                        add_edges num_nodes edges = Ok graph).
Proof.
  intros Hfit. destruct (extension_spec filename Hfit) as (ext & Hext & Hjson).
  unfold CreateGraphFromJSON. rewrite Hext. cbn [mbind result_bind rbind].
  destruct (opens filename); [| split; [by intros err [= <-] | split; [done | by intros (? & _)]]].
  case_bool_decide as Hne.
  - split; [by intros err [= <-] |]. intros graph. split; [done |].
    intros (_ & Hname & _). by apply Hjson in Hname.
  - assert (json_name filename) as Hname.
    { apply Hjson. by destruct (decide (ext = "json")). }
    destruct (read_json filename) as [[n edges] | err']; cbn [mbind result_bind rbind fst snd].
    + destruct (add_edges n edges) as [graph' | err''] eqn:Hadd; split.
      * intros err [=].
      * intros graph. split.
        -- intros [= <-]. split_and!; [reflexivity | exact Hname |].
           exists n, edges. split; [reflexivity | exact Hadd].
        -- intros (_ & _ & n' & edges' & [= <- <-] & Hadd'). congruence.
      * intros err [= <-]. reflexivity.
      * intros graph. split; [intros [=] |].
        intros (_ & _ & n' & edges' & [= <- <-] & Hadd'). congruence.
    + split; [intros err [= <-]; reflexivity |]. intros graph. split; [intros [=] |].
      intros (_ & _ & n' & edges' & [=] & _).
Qed.

Lemma loaded_new n : loaded n (Graph.new n) [].
Proof.
  split; try done.
  - apply new_unique_edges.
  - apply NoDup_nil_2.
  - intros e Hin. by apply not_elem_of_nil in Hin.
  - intros s t. rewrite new_edge_at. by intros [? ?].
Qed.

Lemma loaded_step n graph done e graph' :
  loaded n graph done →
  addEdge graph (Source e) (Sink e) (Capacity e) (Weight e) = Ok graph' →
  loaded n graph' (done ++ [e]).
Proof.
  intros [Hstart Hmap Hu Hnd Hedges Honly] Hadd.
  pose proof Hadd as (_ & _ & _ & _ & Hnone & Hc & _)%addEdge_Ok.
  pose proof (addEdge_fields _ _ _ _ _ _ Hadd) as [Hn Ha].
  split.
  - unfold getStartingNumNodes in *. congruence.
  - unfold getArtificialNodesMap in *. congruence.
  - by eapply unique_edges_addEdge.
  - rewrite fmap_app. apply NoDup_app. split_and!; [done | | apply NoDup_singleton].
    intros p Hp ->%list_elem_of_singleton.
    apply list_elem_of_fmap in Hp as (e' & Heq & Hin).
    destruct (Hedges e' Hin) as [_ He'].
    unfold endpoints in Heq. injection Heq as Hs Ht. rewrite <- Hs, <- Ht in He'.
    congruence.
  - intros e' [Hin | ->%list_elem_of_singleton]%elem_of_app.
    + destruct (Hedges e' Hin) as [? ?]. split; [done |]. by eapply addEdge_mono.
    + split; [done |]. by rewrite (addEdge_edge_at _ _ _ _ _ _ _ _ Hadd), decide_True.
  - intros s t [(-> & ->) | Hsome]%(addEdge_edge_at_Some _ _ _ _ _ _ _ _ Hadd);
      rewrite fmap_app; apply elem_of_app.
    + right. by left.
    + left. by apply Honly.
Qed.

(** X2: what a loaded graph holds: its starting number of nodes is the
    "Num_nodes" of the file, and its edges are the entries of "Edges":
    every entry can be read back with its capacity and cost, there is no
    other edge, no capacity is negative, and no two entries of the file
    have the same source and sink (a second one makes [addEdge] throw). *)
Theorem CreateGraphFromJSON_edges filename graph :
  CreateGraphFromJSON opens read_json filename = Ok graph →
  ∃ num_nodes edges,
    read_json filename = Ok (num_nodes, edges) ∧
    getStartingNumNodes graph = num_nodes ∧
    getArtificialNodesMap graph = ∅ ∧
    unique_edges graph ∧
    NoDup (endpoints <$> edges) ∧
    (∀ e, e ∈ edges →
       0 <= Capacity e ∧ edge_at graph (Source e) (Sink e) = Some (edge_of e)) ∧
    (∀ s t, is_Some (edge_at graph s t) → (s, t) ∈ endpoints <$> edges).
Proof.
  unfold CreateGraphFromJSON. destruct (opens filename); [| done].
  destruct (substr filename _) as [ext |]; cbn [mbind result_bind rbind]; [| done].
  case_bool_decide; [done |].
  destruct (read_json filename) as [[n edges] |]; cbn [mbind result_bind rbind fst snd];
    [| done].
  destruct (add_edges n edges) as [graph' |] eqn:Hadd; [| done].
  intros [= ->]. exists n, edges. split; [done |].
  assert (loaded n graph edges) as [? ? ? ? ? ?]; [| done].
  revert Hadd. unfold add_edges.
  apply (foldM_prefix_invariant (loaded n)); [| apply loaded_new].
  intros graph0 done e graph1 _. apply loaded_step.
Qed.

End CreateGraphFromJSONFacts.

Section CreateGraphFromJSONSamples.

Import Graph GraphUtils.

Lemma CreateGraphFromJSON_extension_witness :
  CreateGraphFromJSON (λ _, true) sample_file "json" = Ok sample_network ∧
  CreateGraphFromJSON (λ _, true) sample_file "network.JSON" = Err InvalidArgument.
Proof.
  split.
  - apply (CreateGraphFromJSON_extension (λ _, true) sample_file "json").
    + by vm_compute.
    + split_and!; [done | by left |].
      eexists _, _. split; [done |]. vm_compute. reflexivity.
  - destruct (CreateGraphFromJSON (λ _, true) sample_file "network.JSON") as [graph | err]
      eqn:Hrun; [by vm_compute in Hrun |].
    f_equal. apply (CreateGraphFromJSON_extension (λ _, true) sample_file "network.JSON");
      [by vm_compute | exact Hrun].
Defined.

Lemma CreateGraphFromJSON_edges_witness :
  ∃ graph, CreateGraphFromJSON (λ _, true) sample_file "network.json" = Ok graph ∧
           edge_at graph 0 2 = Some (mkEdge 0 2 1 2).
Proof.
  destruct (CreateGraphFromJSON (λ _, true) sample_file "network.json") as [graph |] eqn:Hrun;
    [| by vm_compute in Hrun].
  exists graph. split; [done |].
  destruct (CreateGraphFromJSON_edges _ _ _ _ Hrun)
    as (n & edges & [= <- <-] & _ & _ & _ & _ & Hedges & _).
  apply (Hedges (mkJsonEdge 0 2 1 2)). right. left.
Defined.

End CreateGraphFromJSONSamples.

(** ** The flows that [GetOptimalGraph] reports *)

Section ReportedFlows.

Import Graph GraphUtils.

Implicit Types (graph rg og : Graph).

Lemma elem_of_entries_upto n gr s e :
  (s, e) ∈ entries_upto n gr ↔ 0 <= s < n ∧ e ∈ adj_of gr s.
Proof.
  unfold entries_upto. rewrite list_elem_of_bind. split.
  - intros (s' & (e' & [= -> ->] & He)%list_elem_of_fmap & Hs%elem_of_seqZ).
    split; [lia | done].
  - intros [Hs He]. exists s. split.
    + apply list_elem_of_fmap. eauto.
    + apply elem_of_seqZ. lia.
Qed.

Lemma entries_upto_NoDup n gr :
  unique_edges gr → NoDup ((λ p, (p.1, getSink p.2)) <$> entries_upto n gr).
Proof.
  intros Hu. unfold entries_upto. rewrite fmap_bind_list.
  apply NoDup_bind; [| | apply NoDup_seqZ].
  - intros s1 s2 [s t] _ _.
    rewrite <- !list_fmap_compose.
    intros (e1 & [= -> _] & _)%list_elem_of_fmap (e2 & [= -> _] & _)%list_elem_of_fmap.
    done.
  - intros s _. rewrite <- list_fmap_compose.
    apply (NoDup_fmap_2_strong _).
    + intros e1 e2 H1 H2 [= Heq].
      pose proof (unique_edges_adj_of gr s Hu) as Hnd.
      apply list_elem_of_lookup in H1 as [i1 H1], H2 as [i2 H2].
      assert (i1 = i2); [| congruence].
      eapply NoDup_lookup; [exact Hnd | |];
        rewrite list_lookup_fmap; [by rewrite H1 | by rewrite H2, Heq].
    + pose proof (unique_edges_adj_of gr s Hu) as Hnd.
      by apply NoDup_fmap_1 in Hnd.
Qed.

Lemma entry_upto_edge_at n gr s e :
  unique_edges gr → (s, e) ∈ entries_upto n gr → edge_at gr s (getSink e) = Some e.
Proof.
  intros Hu [_ Hin]%elem_of_entries_upto. unfold edge_at, adj_of in *.
  destruct (g gr !! s) as [l |] eqn:Hl; cbn in *; [| by apply not_elem_of_nil in Hin].
  apply find_edge_unique; [by eapply Hu | done].
Qed.

Lemma edge_at_entry_upto n gr s t e :
  0 <= s < n → edge_at gr s t = Some e → (s, e) ∈ entries_upto n gr ∧ getSink e = t.
Proof.
  intros Hs He. split; [| by eapply edge_at_sink].
  apply elem_of_entries_upto. split; [done |].
  apply edge_at_elem in He as (l & Hl & Hin). unfold adj_of. by rewrite Hl.
Qed.

Lemma foldM_entries_upto {S : Type} (f : Z → S → Edge → result S) n gr (s0 : S) :
  has_nodes n gr →
  foldM (λ s k, adj ← getNodeAdjList gr k; foldM (f k) s adj) s0 (seqZ 0 n)
  = foldM (λ s p, f p.1 s p.2) s0 (entries_upto n gr).
Proof.
  unfold has_nodes, entries_upto. revert s0.
  induction (seqZ 0 n) as [| k l IH]; intros s0 Hnodes; [done |].
  apply Forall_cons in Hnodes as [[adj Hadj] Hnodes].
  cbn [foldM]. rewrite bind_cons, foldM_app.
  assert ((adj ← getNodeAdjList gr k; foldM (f k) s0 adj) =
          foldM (λ s p, f p.1 s p.2) s0 ((λ e, (k, e)) <$> adj_of gr k)) as ->.
  { unfold getNodeAdjList, adj_of. rewrite Hadj. cbn. by rewrite foldM_fmap. }
  destruct (foldM (λ s p, f p.1 s p.2) s0 _) as [s1 |]; cbn; [| done].
  by apply IH.
Qed.

Lemma flow_inv_new rg : flow_inv rg (Graph.new (getStartingNumNodes rg)) [].
Proof.
  split.
  - intros k. unfold is_node. rewrite new_lookup. case_decide; split; eauto; try lia.
    by intros [? ?].
  - intros s e Hin. by apply not_elem_of_nil in Hin.
  - intros a b. rewrite new_edge_at. by intros [? ?].
Qed.

Lemma flow_step rg og done p :
  0 <= getStartingNumNodes rg →
  0 <= p.1 < getStartingNumNodes rg →
  (getWeight p.2 < 0 →
   0 <= getSink p.2 < getStartingNumNodes rg ∧ 0 <= getCapacity p.2) →
  (p.1, getSink p.2) ∉ ((λ q, (q.1, getSink q.2)) <$> done) →
  flow_inv rg og done →
  ∃ og', optimal_edge rg p.1 og p.2 = Ok og' ∧ flow_inv rg og' (done ++ [p]).
Proof.
  destruct p as [s0 e0]. cbn [fst snd].
  intros Hn Hs0 Hinside Hfresh [Hnodes Hplaced Honly].
  unfold optimal_edge.
  destruct (Z.leb_spec 0 (getWeight e0)) as [Hw | Hw].
  { exists og. split; [done |]. split; [done | |].
    - intros s e [Hin | [= -> ->]%list_elem_of_singleton]%elem_of_app He; [| lia].
      by apply Hplaced.
    - intros a b Hsome. destruct (Honly a b Hsome) as (e & Hin & ?).
      exists e. split; [| done]. apply elem_of_app. by left. }
  destruct (Hinside Hw) as [Ht0 Hc0].
  destruct (Z.leb_spec (getStartingNumNodes rg) (getSink e0)) as [? | _]; [lia |].
  assert (edge_at og (getSink e0) s0 = None) as Hnone.
  { destruct (edge_at og (getSink e0) s0) as [e' |] eqn:He'; [exfalso | done].
    destruct (Honly (getSink e0) s0) as (e & Hin & Hsink & _); [eauto |].
    apply Hfresh. apply list_elem_of_fmap. exists (s0, e). cbn. by rewrite Hsink. }
  assert (getNumNodes og = getStartingNumNodes rg) as Hsize by (by apply dense_size).
  destruct (addEdge og (getSink e0) s0 (getCapacity e0) (Int.neg (getWeight e0)))
    as [og' |] eqn:Hadd.
  - exists og'. split; [done |]. split.
    + intros k. rewrite (addEdge_is_node _ _ _ _ _ _ k Hadd), Hnodes. lia.
    + intros s e [Hin | [= -> ->]%list_elem_of_singleton]%elem_of_app He.
      * eapply addEdge_mono; [done |]. by apply Hplaced.
      * by rewrite (addEdge_edge_at _ _ _ _ _ _ _ _ Hadd), decide_True.
    + intros a b [(-> & ->) | Hsome]%(addEdge_edge_at_Some _ _ _ _ _ _ _ _ Hadd).
      * exists e0. split_and!; [| done | done]. apply elem_of_app. right. by left.
      * destruct (Honly a b Hsome) as (e & Hin & ?).
        exists e. split; [| done]. apply elem_of_app. by left.
  - exfalso.
    assert (∃ og', addEdge og (getSink e0) s0 (getCapacity e0) (Int.neg (getWeight e0))
                   = Ok og') as [og' Hok]; [| congruence].
    eexists. apply addEdge_Ok. rewrite Hsize. split_and!; [lia.. | done | done | done].
Qed.

Lemma report_step rg graph og done p :
  0 <= getStartingNumNodes rg →
  0 <= p.1 < getStartingNumNodes rg → 0 <= getSink p.2 < getStartingNumNodes rg →
  (p.1, getSink p.2) ∉ ((λ q, (q.1, getSink q.2)) <$> done) →
  report_inv rg graph og done →
  ∃ og', zero_flow_edge p.1 og p.2 = Ok og' ∧ report_inv rg graph og' (done ++ [p]).
Proof.
  destruct p as [a0 e0]. cbn [fst snd].
  intros Hn Ha0 Ht0 Hfresh [Hnodes Hflow Hzero Honly].
  assert (getNumNodes og = getStartingNumNodes rg) as Hsize by (by apply dense_size).
  unfold zero_flow_edge.
  rewrite hasEdge_nodes by (by apply Hnodes). cbn [mbind result_bind rbind].
  destruct (edge_at og a0 (getSink e0)) as [e' |] eqn:He'.
  - rewrite bool_decide_eq_true_2 by eauto.
    exists og. split; [done |].
    assert (is_Some (flow_edge rg a0 (getSink e0))) as [f Hf].
    { destruct (Honly a0 (getSink e0)) as [? | (e & Hin & Hsink)]; [eauto | done |].
      exfalso. apply Hfresh. apply list_elem_of_fmap. exists (a0, e). cbn.
      by rewrite Hsink. }
    split; [done | done | |].
    + intros a e [Hin | [= -> ->]%list_elem_of_singleton]%elem_of_app Hnone;
        [by apply Hzero | congruence].
    + intros a b Hsome. destruct (Honly a b Hsome) as [? | (e & Hin & ?)]; [by left |].
      right. exists e. split; [| done]. apply elem_of_app. by left.
  - rewrite bool_decide_eq_false_2 by (by intros [? ?]).
    assert (flow_edge rg a0 (getSink e0) = None) as Hnoflow.
    { destruct (flow_edge rg a0 (getSink e0)) as [f |] eqn:Hf; [| done].
      apply Hflow in Hf. congruence. }
    destruct (addEdge og a0 (getSink e0) 0 (getWeight e0)) as [og' |] eqn:Hadd.
    + exists og'. split; [done |]. split.
      * intros k. rewrite (addEdge_is_node _ _ _ _ _ _ k Hadd), Hnodes. lia.
      * intros a b f Hf. eapply addEdge_mono; [done |]. by apply Hflow.
      * intros a e [Hin | [= -> ->]%list_elem_of_singleton]%elem_of_app Hnone.
        -- eapply addEdge_mono; [done |]. by apply Hzero.
        -- by rewrite (addEdge_edge_at _ _ _ _ _ _ _ _ Hadd), decide_True.
      * intros a b [(-> & ->) | Hsome]%(addEdge_edge_at_Some _ _ _ _ _ _ _ _ Hadd).
        -- right. exists e0. split; [| done]. apply elem_of_app. right. by left.
        -- destruct (Honly a b Hsome) as [? | (e & Hin & ?)]; [by left |].
           right. exists e. split; [| done]. apply elem_of_app. by left.
    + exfalso.
      assert (∃ og', addEdge og a0 (getSink e0) 0 (getWeight e0) = Ok og') as [og' Hok];
        [| congruence].
      eexists. apply addEdge_Ok. rewrite Hsize. split_and!; [lia.. | done | done | done].
Qed.

(** A fold whose steps all succeed and keep an invariant of the prefix. *)
Lemma foldM_prefix_run {A S : Type} (I : S → list A → Prop)
    (f : S → A → result S) (l : list A) :
  (∀ s done a, (done ++ [a]) `prefix_of` l → I s done →
               ∃ s', f s a = Ok s' ∧ I s' (done ++ [a])) →
  ∀ s, I s [] → ∃ s', foldM f s l = Ok s' ∧ I s' l.
Proof.
  intros Hstep.
  assert (∀ rest done s, l = done ++ rest → I s done →
            ∃ s', foldM f s rest = Ok s' ∧ I s' l) as Hgen.
  { induction rest as [| a rest IH]; intros done s Hl Hs; cbn.
    - exists s. split; [done |]. by rewrite Hl, app_nil_r.
    - destruct (Hstep s done a) as (s1 & Hf & Hs1); [| done |].
      { exists rest. by rewrite <- app_assoc. }
      rewrite Hf. cbn. apply (IH (done ++ [a])); [by rewrite <- app_assoc | done]. }
  intros s. by apply (Hgen l []).
Qed.

Lemma prefix_fresh {A B : Type} (h : A → B) (l done : list A) (a : A) :
  NoDup (h <$> l) → (done ++ [a]) `prefix_of` l → a ∈ l ∧ h a ∉ h <$> done.
Proof.
  intros Hnd [rest Hpre]. split.
  - rewrite Hpre. apply elem_of_app. left. apply elem_of_app. right. by left.
  - rewrite Hpre, <- app_assoc, !fmap_app in Hnd.
    apply NoDup_app in Hnd as (_ & Hfresh & _).
    intros Hin. apply (Hfresh _ Hin). cbn. by left.
Qed.

Lemma GetOptimalGraph_reported rg graph :
  dense graph → unique_edges graph → closed graph →
  getNumNodes graph = getStartingNumNodes rg →
  has_nodes (getStartingNumNodes rg) rg → unique_edges rg → flows_inside rg →
  ∃ og, GetOptimalGraph rg graph = Ok og ∧
        ∀ a b, edge_at og a b = reported rg graph a b.
Proof.
  intros Hdense Hu Hclosed Hsize Hnodes Hurg Hinside.
  assert (0 <= getStartingNumNodes rg) as Hn by (unfold getNumNodes in Hsize; lia).
  unfold GetOptimalGraph.
  (* the first loop *)
  change (optimal_node rg) with
    (λ og k, adj ← getNodeAdjList rg k; foldM (optimal_edge rg k) og adj).
  rewrite (foldM_entries_upto (optimal_edge rg)) by done.
  pose proof (entries_upto_NoDup (getStartingNumNodes rg) rg Hurg) as Hnd1.
  destruct (foldM_prefix_run (flow_inv rg) (λ og p, optimal_edge rg p.1 og p.2)
              (entries_upto (getStartingNumNodes rg) rg))
    with (s := Graph.new (getStartingNumNodes rg)) as (og1 & -> & Hog1).
  { intros og done p Hpre Hinv.
    destruct (prefix_fresh (λ q : Z * Edge, (q.1, getSink q.2)) _ _ _ Hnd1 Hpre)
      as [Hin Hfresh].
    apply flow_step; [done | | | done | done].
    - destruct p as [s e]. by apply elem_of_entries_upto in Hin as [? _].
    - by apply (proj1 (Forall_forall _ _) Hinside p). }
  { apply flow_inv_new. }
  cbn [mbind result_bind rbind].
  (* the second loop *)
  change (zero_flow_node graph) with
    (λ og k, adj ← getNodeAdjList graph k; foldM (zero_flow_edge k) og adj).
  rewrite (foldM_entries zero_flow_edge) by done.
  pose proof (entries_NoDup graph Hu) as Hnd2.
  assert (report_inv rg graph og1 []) as Hstart.
  { destruct Hog1 as [Hnodes1 Hplaced Honly]. split; [done | | |].
    - intros a b f. unfold flow_edge.
      destruct (edge_at rg b a) as [r |] eqn:Hr; cbn; [| done].
      case_decide as Hflow; [| done]. destruct Hflow as [Hw Hb]. intros [= <-].
      destruct (edge_at_entry_upto _ _ _ _ _ Hb Hr) as [Hin <-]. by apply Hplaced.
    - intros a e Hin. by apply not_elem_of_nil in Hin.
    - intros a b Hsome. left. destruct (Honly a b Hsome) as (e & Hin & <- & Hw).
      pose proof (entry_upto_edge_at _ _ _ _ Hurg Hin) as He.
      apply elem_of_entries_upto in Hin as [Hb _].
      unfold flow_edge. rewrite He. cbn. rewrite decide_True by done. eauto. }
  destruct (foldM_prefix_run (report_inv rg graph) (λ og p, zero_flow_edge p.1 og p.2)
              (entries graph)) with (s := og1) as (og & -> & [_ Hflow Hzero Honly]);
    [| done |].
  { intros og done p Hpre Hinv.
    destruct (prefix_fresh (λ q : Z * Edge, (q.1, getSink q.2)) _ _ _ Hnd2 Hpre)
      as [Hin Hfresh].
    destruct p as [s e]. apply elem_of_entries in Hin as [Hs He].
    apply report_step; cbn [fst snd]; [done | lia | | done | done].
    rewrite <- Hsize. apply Hdense. unfold adj_of in He.
    destruct (g graph !! s) as [l |] eqn:Hl; cbn in He;
      [by eapply Hclosed | by apply not_elem_of_nil in He]. }
  exists og. split; [done |]. intros a b. unfold reported.
  destruct (flow_edge rg a b) as [f |] eqn:Hf; [by apply Hflow |].
  destruct (edge_at graph a b) as [e |] eqn:He; cbn.
  - destruct (edge_at_entry graph a b e Hdense He) as [Hin <-]. by apply Hzero.
  - destruct (edge_at og a b) as [e' |] eqn:He'; [exfalso | done].
    destruct (Honly a b) as [[? ?] | (e & Hin & Hsink)]; [eauto | congruence |].
    apply (entry_edge_at graph a e Hu) in Hin. rewrite Hsink in Hin. congruence.
Qed.

End ReportedFlows.

Section ReportedFlowsTheorems.

Import Graph GraphUtils.

Implicit Types (graph rg og : Graph).

(** X8: what [GetOptimalGraph] reports.  Take a residual graph in which the
    negative-cost edges of the original nodes end in original nodes (no
    artificial node carries flow), and an original graph with as many
    nodes as the residual graph had at first.  Then the call returns, and
    the graph it returns has on a -> b the capacity of the negative-cost
    residual edge b -> a with the cost negated, has every other edge of
    the original graph with flow 0, and has no other edge. *)
Theorem GetOptimalGraph_flows rg graph :
  dense graph → unique_edges graph → closed graph →
  getNumNodes graph = getStartingNumNodes rg →
  has_nodes (getStartingNumNodes rg) rg → unique_edges rg → flows_inside rg →
  ∃ og, GetOptimalGraph rg graph = Ok og ∧
        (∀ a b, edge_at og a b = reported rg graph a b) ∧
        (∀ a b, capacity_of og a b = shown_flow rg a b).
Proof.
  intros Hdense Hu Hclosed Hsize Hnodes Hurg Hinside.
  destruct (GetOptimalGraph_reported rg graph) as (og & Hog & Hedges); try done.
  exists og. split_and!; [done | done |].
  intros a b. unfold capacity_of, shown_flow. rewrite Hedges. unfold reported.
  destruct (flow_edge rg a b) as [f |]; [done |].
  by destruct (edge_at graph a b).
Qed.

Lemma GetOptimalGraph_flows_witness :
  ∃ og, GetOptimalGraph sample_residual sample_line = Ok og ∧
        capacity_of og 0 1 = 1 ∧ capacity_of og 1 2 = 0.
Proof.
  destruct (GetOptimalGraph_flows sample_residual sample_line)
    as (og & Hog & _ & Hflows).
  - apply dense_check. by vm_compute.
  - apply unique_edges_check. by vm_compute.
  - apply closed_check. by vm_compute.
  - by vm_compute.
  - apply (bool_decide_eq_true_1 _). by vm_compute.
  - apply unique_edges_check. by vm_compute.
  - apply (bool_decide_eq_true_1 _). by vm_compute.
  - exists og. split; [exact Hog |]. rewrite !Hflows. by vm_compute.
Defined.

Lemma send_edge_all_edges (P : Edge → Prop) a b flow rg rg' out :
  (∀ e c, P e → P (with_capacity c e)) →
  (∀ e, P e → P (mkEdge b a flow (Int.neg (getWeight e)))) →
  all_edges P rg → send_edge a b flow rg = (rg', out) → all_edges P rg'.
Proof.
  intros Hcap Hnew Hrg Hrun%send_edge_inv.
  inversion Hrun as [| | | e rg1 rg2 rg'' out' Hget Hguard Hset Hrm Hrev]; subst; try done.
  pose proof (forward_update _ _ _ _ _ _ _ Hget Hset Hrm) as (_ & _ & _ & _ & Hall2 & _).
  pose proof Hget as (_ & _ & He)%getEdge_Ok.
  pose proof (all_edges_edge_at _ _ _ _ _ Hrg He) as HPe.
  assert (all_edges P rg2) as Hrg2 by (apply Hall2; auto).
  destruct out as [[] | err]; [| by apply reverse_edge_Err in Hrev as ->].
  apply reverse_edge_Ok in Hrev as (_ & _ & _ & Hall' & _).
  apply Hall'; [done |]. unfold reversed.
  destruct (edge_at rg2 b a) as [r |] eqn:Hr; [| by apply Hnew].
  apply Hcap. by eapply all_edges_edge_at.
Qed.

(** X9: on a network whose costs are all 0 the flow cannot be read back: a
    reverse edge of cost -0 = 0 does not count as flow-carrying, so
    whatever [SendFlowInPath] has sent over the residual graph,
    [GetOptimalGraph] reports flow 0 on every edge. *)
Theorem GetOptimalGraph_zero_cost graph path flow :
  dense graph → unique_edges graph → closed graph → all_edges zero_cost graph →
  ∃ rg rg' out og,
    GetResidualGraph graph = Ok rg ∧
    SendFlowInPath rg path flow = Some (rg', out) ∧
    GetOptimalGraph rg' graph = Ok og ∧
    ∀ a b, edge_at og a b = zero_flow a <$> edge_at graph a b.
Proof.
  intros Hdense Hu Hclosed Hcost.
  destruct (GetResidualGraph_succeeds graph Hdense Hu Hclosed) as [rg Hrg].
  destruct (GetResidualGraph_inv graph rg Hdense Hu Hrg) as [(m & Hm & Hnodes) _ _ _ _ _ _].
  destruct (GetResidualGraph_unique_edges graph rg Hrg) as [Hurg Hstart].
  assert (all_edges zero_cost rg) as Hcost'.
  { apply (GetResidualGraph_all_edges_of zero_cost graph rg); [| done].
    intros s l e Hl Hin s' t'. apply (Hcost s l e Hl Hin). }
  destruct (SendFlowInPath_invariant
              (λ rg', same_nodes rg rg' ∧ unique_edges rg' ∧ all_edges zero_cost rg')
              rg path flow) as (rg' & out & Hsend & Hsame & Hurg' & Hcost'').
  { intros a b rg1 rg2 out _ (H1 & H2 & H3) Hstep. split_and!.
    - eapply same_nodes_trans; [done |]. by eapply send_edge_same_nodes.
    - by eapply send_edge_unique_edges.
    - eapply (send_edge_all_edges zero_cost); [| | done | done].
      + by intros e c.
      + intros e He. unfold zero_cost in *. cbn. by rewrite He. }
  { split_and!; [apply same_nodes_refl | done | done]. }
  destruct Hsame as (Hsame & Hstart' & _).
  assert (getStartingNumNodes rg' = getNumNodes graph) as Hn by congruence.
  assert (∀ a b, flow_edge rg' a b = None) as Hnoflow.
  { intros a b. unfold flow_edge.
    destruct (edge_at rg' b a) as [r |] eqn:Hr; cbn; [| done].
    pose proof (all_edges_edge_at _ _ _ _ _ Hcost'' Hr) as Hw. unfold zero_cost in Hw.
    rewrite decide_False; [done | lia]. }
  destruct (GetOptimalGraph_reported rg' graph) as (og & Hog & Hedges); try done.
  - apply Forall_forall. intros k Hk%elem_of_seqZ. apply Hsame, Hnodes. lia.
  - apply Forall_forall. intros [s r] Hin Hw.
    apply elem_of_entries_upto in Hin as [_ Hin]. unfold adj_of in Hin.
    destruct (g rg' !! s) as [l |] eqn:Hl; cbn in Hin;
      [| by apply not_elem_of_nil in Hin].
    pose proof (Hcost'' s l r Hl Hin) as Hz. unfold zero_cost in Hz. cbn in Hw. lia.
  - exists rg, rg', out, og. split_and!; [done.. |].
    intros a b. rewrite Hedges. unfold reported. by rewrite Hnoflow.
Qed.

Lemma GetOptimalGraph_zero_cost_witness :
  ∃ rg rg' og,
    GetResidualGraph sample_free = Ok rg ∧
    SendFlowInPath rg [0; 1] 2 = Some (rg', Ok tt) ∧
    capacity_of rg' 1 0 = 2 ∧
    GetOptimalGraph rg' sample_free = Ok og ∧
    capacity_of og 0 1 = 0.
Proof.
  destruct (GetOptimalGraph_zero_cost sample_free [0; 1] 2)
    as (rg & rg' & out & og & Hrg & Hsend & Hog & Hedges).
  - apply dense_check. by vm_compute.
  - apply unique_edges_check. by vm_compute.
  - apply closed_check. by vm_compute.
  - apply (all_edges_check zero_cost). by vm_compute.
  - exists rg, rg', og.
    vm_compute in Hrg. injection Hrg as <-.
    vm_compute in Hsend. injection Hsend as <- <-.
    split_and!; [by vm_compute | by vm_compute | by vm_compute | exact Hog |].
    unfold capacity_of. rewrite Hedges. by vm_compute.
Defined.

End ReportedFlowsTheorems.

(** ** Residual graph, augmentation and flows together *)

Section Pipeline.

Import Graph GraphUtils.

Implicit Types (graph rg og : Graph) (path : list Z) (flow : Z).

Lemma send_pairs_view ps : ∀ flow rg rg',
  unique_edges rg → all_edges int_capacity rg → Int.in_range flow →
  send_pairs ps flow rg = (rg', Ok tt) → edge_disjoint ps →
  (∀ a b, (a, b) ∈ ps → edge_at rg b a = None →
     ∃ e, edge_at rg a b = Some e ∧
          edge_at rg' b a = Some (mkEdge b a flow (Int.neg (getWeight e)))) ∧
  (∀ a b r, (a, b) ∈ ps → edge_at rg' a b = Some r →
     ∃ e, edge_at rg a b = Some e ∧ getWeight r = getWeight e).
Proof.
  induction ps as [| [a0 b0] ps IH]; intros flow rg rg' Hu Hcap Hflow.
  - intros _ _. split; intros a b; [| intros r]; by intros ?%not_elem_of_nil.
  - cbn [send_pairs edge_disjoint fst snd].
    destruct (send_edge a0 b0 flow rg) as [rg1 [[] | err]] eqn:Hstep; [| done].
    intros Hrest (Hab & Hn1 & Hn2 & Hdis).
    pose proof (send_edge_inv _ _ _ _ _ _ Hstep) as Hinv.
    assert (∃ e, getEdge rg a0 b0 = Ok e) as [e0 Hget] by (inversion Hinv; eauto).
    pose proof Hget as (_ & _ & He0)%getEdge_Ok.
    pose proof (send_edge_Ok_view _ _ _ _ _ _ Hget Hu Hcap Hflow Hstep)
      as (_ & _ & _ & Hu1 & Hcap1 & Hview).
    cbn zeta in Hview.
    destruct (send_pairs_frame _ _ _ _ Hu1 Hcap1 Hflow Hrest Hdis) as (_ & _ & Hframe').
    destruct (IH flow rg1 rg' Hu1 Hcap1 Hflow Hrest Hdis) as [IHrev IHfwd].
    assert (∀ x y, ¬ (x = a0 ∧ y = b0) → ¬ (x = b0 ∧ y = a0) →
                   edge_at rg1 x y = edge_at rg x y) as Hframe.
    { intros x y Hxy Hyx. rewrite Hview, decide_False by done.
      unfold forward_view. by rewrite decide_False. }
    split.
    + intros a b [[= -> ->] | Hin]%elem_of_cons Hnone.
      * exists e0. split; [done |]. rewrite Hframe' by done.
        rewrite Hview, decide_True by done. unfold forward_view.
        rewrite decide_False by (intros [-> _]; done). by rewrite Hnone.
      * assert (¬ (a = a0 ∧ b = b0)) by (intros [-> ->]; done).
        assert (¬ (a = b0 ∧ b = a0)) by (intros [-> ->]; done).
        assert (¬ (b = a0 ∧ a = b0)) by (intros [-> ->]; done).
        assert (¬ (b = b0 ∧ a = a0)) by (intros [-> ->]; done).
        destruct (IHrev a b Hin) as (e & He & Hrev); [by rewrite Hframe |].
        exists e. split; [by rewrite <- Hframe | done].
    + intros a b r [[= -> ->] | Hin]%elem_of_cons Hr.
      * exists e0. split; [done |]. rewrite Hframe' in Hr by done.
        rewrite Hview, decide_False in Hr by (intros [-> _]; done).
        unfold forward_view in Hr. rewrite decide_True in Hr by done.
        destruct (_ =? 0); [done |]. by injection Hr as <-.
      * assert (¬ (a = a0 ∧ b = b0)) by (intros [-> ->]; done).
        assert (¬ (a = b0 ∧ b = a0)) by (intros [-> ->]; done).
        destruct (IHfwd a b r Hin Hr) as (e & He & Hw).
        exists e. split; [by rewrite <- Hframe | done].
Qed.

Lemma no_antiparallel_back graph a b :
  dense graph → unique_edges graph → no_antiparallel graph → a ≠ b →
  is_Some (edge_at graph a b) → edge_at graph b a = None.
Proof.
  intros Hdense Hu Hno Hab [e He].
  destruct (edge_at graph b a) as [e' |] eqn:He'; [exfalso | done].
  destruct (edge_at_entry graph a b e Hdense He) as [Hin Hsink].
  destruct (edge_at_entry graph b a e' Hdense He') as [Hin' Hsink'].
  destruct (Z_lt_le_dec a b) as [Hlt | Hge].
  - apply (proj1 (Forall_forall _ _) Hno (a, e) Hin); cbn; rewrite Hsink; [done | eauto].
  - apply (proj1 (Forall_forall _ _) Hno (b, e') Hin'); cbn; rewrite Hsink'; [lia | eauto].
Qed.

(** X10: the three steps together, for one augmentation.  Take a graph with
    dense ids, one edge per pair, no dangling sink, no anti-parallel
    pair, [int] capacities and positive costs, and a duplicate-free path
    of edges that can each carry [flow].  Then [GetResidualGraph],
    [SendFlowInPath] along the path and [GetOptimalGraph] all return, and
    the graph of flows has exactly the edges of the graph, with their
    costs, with flow [flow] on the edges of the path and 0 on the
    others. *)
Theorem GetOptimalGraph_after_augmentation graph path flow :
  dense graph → unique_edges graph → closed graph → no_antiparallel graph →
  all_edges int_capacity graph → all_edges positive_cost graph →
  path ≠ [] → indexable path → NoDup path → 0 < flow <= Int.max_int →
  (∀ a b, (a, b) ∈ pairs path →
     ∃ e, edge_at graph a b = Some e ∧ flow <= getCapacity e) →
  ∃ rg rg' og,
    GetResidualGraph graph = Ok rg ∧
    SendFlowInPath rg path flow = Some (rg', Ok tt) ∧
    GetOptimalGraph rg' graph = Ok og ∧
    ∀ a b, edge_at og a b =
           (λ e, mkEdge a b (path_flow path flow a b) (getWeight e)) <$> edge_at graph a b.
Proof.
  intros Hdense Hu Hclosed Hno Hcap Hcost Hne Hfit Hnd Hflow Hpath.
  destruct (GetResidualGraph_succeeds graph Hdense Hu Hclosed) as [rg Hrg].
  destruct (GetResidualGraph_unsplit graph rg Hdense Hu) as [Hsize Hcopy]; [| done |].
  { intros p Hin. by apply no_antiparallel_unsplit. }
  destruct (GetResidualGraph_inv graph rg Hdense Hu Hrg)
    as [(m & Hm & Hnodes) _ Hends _ _ _ _].
  destruct (GetResidualGraph_unique_edges graph rg Hrg) as [Hurg Hstart].
  assert (0 <= m) as Hm0 by (unfold getNumNodes in Hm; lia).
  pose proof (dense_size rg m Hm0 Hnodes) as Hsize'.
  assert (dense rg) as Hdrg by (intros k; rewrite Hsize'; apply Hnodes).
  assert (∀ s l r, g rg !! s = Some l → r ∈ l →
            ∃ e, edge_at graph s (getSink r) = Some e ∧
                 r = mkEdge s (getSink e) (getCapacity e) (getWeight e)) as Horigin.
  { intros s l r Hl Hin.
    assert (edge_at rg s (getSink r) = Some r) as Hr.
    { unfold edge_at. rewrite Hl. cbn. apply find_edge_unique; [by eapply Hurg | done]. }
    rewrite Hcopy in Hr. destruct (edge_at graph s (getSink r)) as [e |] eqn:He; [| done].
    cbn in Hr. unfold positive_edge in Hr. destruct (0 <? getCapacity e); [| done].
    injection Hr as <-. eauto. }
  assert (all_edges int_capacity rg) as Hcaprg.
  { intros s l r Hl Hin. destruct (Horigin s l r Hl Hin) as (e & He & ->).
    exact (all_edges_edge_at _ _ _ _ _ Hcap He). }
  assert (all_edges positive_cost rg) as Hcostrg.
  { intros s l r Hl Hin. destruct (Horigin s l r Hl Hin) as (e & He & ->).
    exact (all_edges_edge_at _ _ _ _ _ Hcost He). }
  pose proof (NoDup_edge_disjoint path Hnd) as Hdis.
  assert (∀ a b, (a, b) ∈ pairs path → a ≠ b) as Hneq.
  { intros a b (i & Ha & Hb)%elem_of_pairs ->.
    assert (i = S i); [| lia]. eapply NoDup_lookup; done. }
  assert (∀ a b, (a, b) ∈ pairs path →
            ∃ e, edge_at graph a b = Some e ∧ flow <= getCapacity e ∧
                 edge_at rg a b = Some (mkEdge a b (getCapacity e) (getWeight e)) ∧
                 edge_at rg b a = None) as Hrgpath.
  { intros a b Hin. destruct (Hpath a b Hin) as (e & He & Hle).
    exists e. split_and!; [done | done | |].
    - rewrite Hcopy, He. cbn. unfold positive_edge.
      destruct (Z.ltb_spec 0 (getCapacity e)); [| lia].
      by rewrite (edge_at_sink _ _ _ _ He).
    - rewrite Hcopy, (no_antiparallel_back graph a b); [done.. | by apply Hneq | eauto]. }
  assert (Int.in_range flow) as Hrange.
  { unfold Int.in_range, Int.min_int, Int.max_int in *. lia. }
  (* the augmentation goes through *)
  destruct (send_pairs_succeeds (pairs path) flow rg) as [rg' Hrun]; try done; [lia | |].
  { intros a b Hin. destruct (Hrgpath a b Hin) as (e & He & Hle & Hab & Hba).
    exists (mkEdge a b (getCapacity e) (getWeight e)). split_and!.
    - apply getEdge_Ok. split_and!; [by eapply edge_at_node | | done].
      apply (Hends a). eauto.
    - cbn. pose proof (all_edges_edge_at _ _ _ _ _ Hcost He) as [? ?].
      destruct (Z.ltb_spec (getWeight e) 0); [lia | done].
    - unfold capacity_of. rewrite Hba. cbn. lia. }
  assert (SendFlowInPath rg path flow = Some (rg', Ok tt)) as Hsend.
  { rewrite SendFlowInPath_pairs by done. by rewrite Hrun. }
  destruct (send_pairs_view _ _ _ _ Hurg Hcaprg Hrange Hrun Hdis) as [Hrev Hfwd].
  destruct (send_pairs_frame _ _ _ _ Hurg Hcaprg Hrange Hrun Hdis)
    as (Hurg' & Hcaprg' & Hframe).
  assert (same_nodes rg rg') as (Hsame & Hstart' & _).
  { revert Hsend. apply (send_loop_invariant (same_nodes rg));
      [| unfold Int.max_int; lia | apply same_nodes_refl].
    intros a b rg1 rg2 out _ H1 Hstep. eapply same_nodes_trans; [done |].
    by eapply send_edge_same_nodes. }
  assert (getStartingNumNodes rg' = getNumNodes graph) as Hn by congruence.
  assert (m = getNumNodes graph) as -> by lia.
  (* a negative cost marks the reverse of an edge of the path *)
  assert (∀ x y r, edge_at rg' x y = Some r → getWeight r < 0 → (y, x) ∈ pairs path)
    as Hnegative.
  { intros x y r Hr Hw.
    destruct (decide ((y, x) ∈ pairs path)) as [? | Hyx]; [done | exfalso].
    destruct (decide ((x, y) ∈ pairs path)) as [Hxy | Hxy].
    - destruct (Hfwd x y r Hxy Hr) as (e & He & Hwe).
      pose proof (all_edges_edge_at _ _ _ _ _ Hcostrg He) as [? ?]. lia.
    - rewrite Hframe in Hr by done.
      pose proof (all_edges_edge_at _ _ _ _ _ Hcostrg Hr) as [? ?]. lia. }
  destruct (GetOptimalGraph_reported rg' graph) as (og & Hog & Hedges); try done.
  - apply Forall_forall. intros k Hk%elem_of_seqZ. apply Hsame, Hnodes. lia.
  - apply Forall_forall. intros [s r] Hin Hw. cbn [fst snd] in *.
    pose proof (entry_upto_edge_at _ _ _ _ Hurg' Hin) as Hr.
    pose proof (Hnegative _ _ _ Hr Hw) as Hyx.
    destruct (Hrgpath _ _ Hyx) as (e & _ & _ & Hab & _).
    split.
    + rewrite Hn. apply Hnodes. by eapply edge_at_node.
    + by destruct (all_edges_edge_at _ _ _ _ _ Hcaprg' Hr).
  - exists rg, rg', og. split_and!; [done.. |].
    intros a b. rewrite Hedges. unfold reported, path_flow, flow_edge.
    destruct (decide ((a, b) ∈ pairs path)) as [Hin | Hnin].
    + destruct (Hrgpath a b Hin) as (e & He & _ & Hab & Hba).
      destruct (Hrev a b Hin Hba) as (e' & He' & ->).
      assert (e' = mkEdge a b (getCapacity e) (getWeight e)) as -> by congruence.
      pose proof (all_edges_edge_at _ _ _ _ _ Hcost He) as [? ?].
      assert (∀ z, 0 < z <= Int.max_int → Int.neg z = - z) as Hneg.
      { intros z Hz. unfold Int.neg. apply wrap_id.
        unfold Int.in_range, Int.min_int, Int.max_int in *. lia. }
      cbn. rewrite Hneg by done. rewrite decide_True; cycle 1.
      { split; [lia |]. rewrite Hn. apply Hnodes, (Hends a). eauto. }
      rewrite He. cbn. do 2 f_equal. unfold Int.neg. rewrite Z.opp_involutive.
      apply wrap_id. unfold Int.in_range, Int.min_int, Int.max_int in *. lia.
    + assert (∀ f, (edge_at rg' b a ≫= λ r,
                 if decide (getWeight r < 0 ∧ 0 <= b < getStartingNumNodes rg')
                 then Some (mkEdge a b (getCapacity r) (Int.neg (getWeight r)))
                 else None) = Some f → False) as Hnone.
      { intros f. destruct (edge_at rg' b a) as [r |] eqn:Hr; cbn; [| done].
        case_decide as Hd; [| done]. destruct Hd as [Hw _].
        intros _. by apply Hnin, (Hnegative b a r). }
      destruct (edge_at rg' b a ≫= _) as [f |] eqn:Hf; [by destruct (Hnone f) |].
      destruct (edge_at graph a b) as [e |] eqn:He; cbn; [| done].
      unfold zero_flow. by rewrite (edge_at_sink _ _ _ _ He).
Qed.

Lemma GetOptimalGraph_after_augmentation_witness :
  ∃ rg rg' og,
    GetResidualGraph sample_network = Ok rg ∧
    SendFlowInPath rg [0; 1; 3] 1 = Some (rg', Ok tt) ∧
    GetOptimalGraph rg' sample_network = Ok og ∧
    edge_at og 0 1 = Some (mkEdge 0 1 1 1) ∧
    edge_at og 1 3 = Some (mkEdge 1 3 1 2) ∧
    edge_at og 0 2 = Some (mkEdge 0 2 0 2).
Proof.
  destruct (GetOptimalGraph_after_augmentation sample_network [0; 1; 3] 1)
    as (rg & rg' & og & Hrg & Hsend & Hog & Hedges).
  - apply dense_check. by vm_compute.
  - apply unique_edges_check. by vm_compute.
  - apply closed_check. by vm_compute.
  - apply (bool_decide_eq_true_1 _). by vm_compute.
  - apply (all_edges_check int_capacity). by vm_compute.
  - apply (all_edges_check positive_cost). by vm_compute.
  - done.
  - by vm_compute.
  - apply (bool_decide_eq_true_1 _). by vm_compute.
  - by vm_compute.
  - intros a b Hin. cbn in Hin.
    apply elem_of_cons in Hin as [[= -> ->] | Hin];
      [exists (mkEdge 0 1 2 1); by vm_compute |].
    apply elem_of_cons in Hin as [[= -> ->] | Hin];
      [exists (mkEdge 1 3 1 2); by vm_compute |].
    by apply not_elem_of_nil in Hin.
  - exists rg, rg', og. split_and!; [exact Hrg | exact Hsend | exact Hog | | |];
      rewrite Hedges; by vm_compute.
Defined.

End Pipeline.

(** ** Negative costs in the input *)

Section NegativeCost.

Import Graph GraphUtils.

Implicit Types (graph rg og : Graph).

(** X11: costs have to be non-negative.  An edge b -> a of negative cost of
    the input graph is taken for the reverse of an edge a -> b that
    carries flow: with no flow sent at all, [GetOptimalGraph] reports on
    a -> b a flow equal to the capacity of b -> a. *)
Theorem GetOptimalGraph_negative_cost graph a b e :
  dense graph → unique_edges graph → closed graph → no_antiparallel graph →
  all_edges int_capacity graph →
  edge_at graph b a = Some e → getWeight e < 0 → 0 < getCapacity e →
  ∃ rg og, GetResidualGraph graph = Ok rg ∧ GetOptimalGraph rg graph = Ok og ∧
           edge_at og a b = Some (mkEdge a b (getCapacity e) (Int.neg (getWeight e))).
Proof.
  intros Hdense Hu Hclosed Hno Hcap He Hw Hc.
  destruct (GetResidualGraph_succeeds graph Hdense Hu Hclosed) as [rg Hrg].
  destruct (GetResidualGraph_unsplit graph rg Hdense Hu) as [Hsize Hcopy]; [| done |].
  { intros p Hin. by apply no_antiparallel_unsplit. }
  destruct (GetResidualGraph_inv graph rg Hdense Hu Hrg)
    as [(m & Hm & Hnodes) _ Hends _ _ _ _].
  destruct (GetResidualGraph_unique_edges graph rg Hrg) as [Hurg Hstart].
  assert (0 <= m) as Hm0 by (unfold getNumNodes in Hm; lia).
  pose proof (dense_size rg m Hm0 Hnodes) as Hsize'.
  assert (m = getNumNodes graph) as -> by lia.
  destruct (GetOptimalGraph_reported rg graph) as (og & Hog & Hedges); try done.
  - apply Forall_forall. intros k Hk%elem_of_seqZ. apply Hnodes. lia.
  - apply Forall_forall. intros [s r] Hin _. cbn [fst snd].
    pose proof (entry_upto_edge_at _ _ _ _ Hurg Hin) as Hr.
    split.
    + rewrite Hstart. apply Hnodes, (Hends s). eauto.
    + rewrite Hcopy in Hr.
      destruct (edge_at graph s (getSink r)) as [e' |] eqn:He'; [| done].
      cbn in Hr. unfold positive_edge in Hr. destruct (0 <? getCapacity e'); [| done].
      injection Hr as <-. by destruct (all_edges_edge_at _ _ _ _ _ Hcap He').
  - exists rg, og. split_and!; [done.. |].
    rewrite Hedges. unfold reported, flow_edge.
    rewrite Hcopy, He. cbn. unfold positive_edge.
    destruct (Z.ltb_spec 0 (getCapacity e)); [| lia]. cbn.
    rewrite decide_True; [done |]. split; [done |].
    rewrite Hstart. apply Hdense. by eapply edge_at_node.
Qed.

Lemma GetOptimalGraph_negative_cost_witness :
  ∃ rg og, GetResidualGraph sample_negative = Ok rg ∧
           GetOptimalGraph rg sample_negative = Ok og ∧
           edge_at og 0 1 = Some (mkEdge 0 1 5 2).
Proof.
  apply (GetOptimalGraph_negative_cost sample_negative 0 1 (mkEdge 1 0 5 (-2))).
  - apply dense_check. by vm_compute.
  - apply unique_edges_check. by vm_compute.
  - apply closed_check. by vm_compute.
  - apply (bool_decide_eq_true_1 _). by vm_compute.
  - apply (all_edges_check int_capacity). by vm_compute.
  - by vm_compute.
  - by vm_compute.
  - by vm_compute.
Defined.

End NegativeCost.

(** ** Sums over edges and over pairs of nodes *)

Section Sums.

Import Graph GraphUtils.

Lemma sum_list_cons (x : Z) (l : list Z) : sum_list (x :: l) = x + sum_list l.
Proof. done. Qed.

Lemma sum_list_add {A : Type} (f h : A → Z) (l : list A) :
  sum_list ((λ x, f x + h x) <$> l) = sum_list (f <$> l) + sum_list (h <$> l).
Proof.
  induction l as [| x l IH]; [done |].
  rewrite !fmap_cons, !sum_list_cons, IH. lia.
Qed.

Lemma sum_list_ext {A : Type} (f h : A → Z) (l : list A) :
  (∀ x, x ∈ l → f x = h x) → sum_list (f <$> l) = sum_list (h <$> l).
Proof.
  induction l as [| x l IH]; intros Heq; [done |].
  rewrite !fmap_cons, !sum_list_cons, IH, Heq; [done | by left |].
  intros y Hy. apply Heq. by right.
Qed.

Lemma sum_list_zero {A : Type} (l : list A) : sum_list ((λ _, 0) <$> l) = 0.
Proof. induction l as [| x l IH]; [done |]. by rewrite fmap_cons, sum_list_cons, IH. Qed.

Lemma sum_list_bind {A B : Type} (f : B → Z) (k : A → list B) (l : list A) :
  sum_list (f <$> (l ≫= k)) = sum_list ((λ x, sum_list (f <$> k x)) <$> l).
Proof.
  induction l as [| x l IH]; [done |].
  rewrite bind_cons, fmap_app, sum_list_app, IH. done.
Qed.

Lemma sum_list_indicator (k v : Z) (l : list Z) :
  NoDup l →
  sum_list ((λ t, if decide (t = k) then v else 0) <$> l) = if decide (k ∈ l) then v else 0.
Proof.
  induction l as [| x l IH]; intros Hnd.
  - by rewrite decide_False by apply not_elem_of_nil.
  - apply NoDup_cons in Hnd as [Hx Hnd].
    rewrite fmap_cons, sum_list_cons, IH by done.
    destruct (decide (x = k)) as [-> | Hne].
    + rewrite (decide_False (P := k ∈ l)) by done.
      rewrite decide_True by (by left). lia.
    + destruct (decide (k ∈ l)) as [Hin | Hnin].
      * rewrite decide_True by (by right). lia.
      * rewrite decide_False; [lia |].
        intros [-> | ?]%elem_of_cons; done.
Qed.

Lemma sum_list_swap {A B : Type} (F : A → B → Z) (l1 : list A) (l2 : list B) :
  sum_list ((λ x, sum_list (F x <$> l2)) <$> l1)
  = sum_list ((λ y, sum_list ((λ x, F x y) <$> l1)) <$> l2).
Proof.
  induction l1 as [| x l1 IH].
  - cbn. by rewrite sum_list_zero.
  - rewrite fmap_cons, sum_list_cons, IH.
    rewrite <- sum_list_add. apply sum_list_ext. intros y _.
    by rewrite fmap_cons, sum_list_cons.
Qed.

Lemma grid_sum_swap (n : Z) (F : Z → Z → Z) : grid_sum n F = grid_sum n (λ s t, F t s).
Proof. unfold grid_sum. apply sum_list_swap. Qed.

Lemma grid_sum_ext (n : Z) (F G : Z → Z → Z) :
  (∀ s t, 0 <= s < n → 0 <= t < n → F s t = G s t) → grid_sum n F = grid_sum n G.
Proof.
  intros Heq. unfold grid_sum. apply sum_list_ext. intros s Hs%elem_of_seqZ.
  apply sum_list_ext. intros t Ht%elem_of_seqZ. apply Heq; lia.
Qed.

(** A sum over an adjacency list, as a sum over the possible sinks. *)
Lemma adj_sum (h : Edge → Z) (n : Z) (l : list Edge) :
  NoDup (getSink <$> l) → (∀ e, e ∈ l → 0 <= getSink e < n) →
  sum_list (h <$> l)
  = sum_list ((λ t, from_option h 0 (Graph.find_edge t l)) <$> seqZ 0 n).
Proof.
  induction l as [| e l IH]; intros Hnd Hin.
  - cbn. by rewrite sum_list_zero.
  - rewrite fmap_cons in Hnd. apply NoDup_cons in Hnd as [He Hnd].
    rewrite fmap_cons, sum_list_cons, IH; [| done | intros e' He'; apply Hin; by right].
    assert (h e = sum_list ((λ t, if decide (t = getSink e) then h e else 0) <$> seqZ 0 n))
      as Hhe.
    { rewrite sum_list_indicator by apply NoDup_seqZ.
      rewrite decide_True; [done |]. apply elem_of_seqZ.
      specialize (Hin e (list_elem_of_here _ _)). lia. }
    rewrite Hhe at 1. rewrite <- sum_list_add. apply sum_list_ext. intros t _.
    unfold find_edge. cbn [List.find]. unfold to_sink at 2.
    destruct (Z.eqb_spec (getSink e) t) as [<- | Hne].
    + rewrite decide_True by done. cbn.
      fold (find_edge (getSink e) l).
      rewrite (proj2 (find_edge_None (getSink e) l)) by done. cbn. lia.
    + rewrite decide_False by done. fold (find_edge t l). lia.
Qed.

Lemma entries_sum (h : Z → Edge → Z) (n : Z) (gr : Graph) :
  unique_edges gr →
  (∀ s e, (s, e) ∈ entries_upto n gr → 0 <= getSink e < n) →
  sum_list ((λ p, h p.1 p.2) <$> entries_upto n gr)
  = grid_sum n (λ s t, from_option (h s) 0 (edge_at gr s t)).
Proof.
  intros Hu Hin. unfold entries_upto at 1, grid_sum. rewrite sum_list_bind.
  apply sum_list_ext. intros s Hs%elem_of_seqZ.
  rewrite <- list_fmap_compose.
  change ((λ p : Z * Edge, h p.1 p.2) ∘ (λ e : Edge, (s, e))) with (h s).
  rewrite (adj_sum (h s) n (adj_of gr s)).
  - apply sum_list_ext. intros t _. unfold edge_at, adj_of.
    by destruct (g gr !! s).
  - by apply unique_edges_adj_of.
  - intros e He. apply (Hin s). apply elem_of_entries_upto. split; [lia | done].
Qed.

Lemma negative_cost_total_sum (l : list Edge) :
  negative_cost_total l = sum_list (negative_cost <$> l).
Proof.
  induction l as [| e l IH]; [done |].
  rewrite negative_cost_total_cons, fmap_cons, sum_list_cons, IH.
  unfold negative_cost. destruct (Z.ltb_spec (getWeight e) 0).
  - by rewrite decide_True.
  - by rewrite decide_False by lia.
Qed.

End Sums.

(** ** The reported cost and the cost of the flows *)

Section CostAgreement.

Import Graph GraphUtils MinimumCostFlowAlgorithms.

Implicit Types (graph rg og : Graph).

Lemma foldM_total {A S : Type} (f : S → A → result S) (l : list A) :
  (∀ s a, a ∈ l → ∃ s', f s a = Ok s') → ∀ s, ∃ s', foldM f s l = Ok s'.
Proof.
  induction l as [| a l IH]; intros Hok s; cbn; [eauto |].
  destruct (Hok s a) as [s1 ->]; [by left |]. cbn.
  apply IH. intros s0 a0 Hin. apply Hok. by right.
Qed.

Lemma minimum_cost_of_dense rg :
  dense rg → minimum_cost_of rg = Ok (Int.wrap (negative_cost_total (edges_of rg))).
Proof.
  intros Hdense.
  destruct (foldM_total (cost_node rg) (seqZ 0 (getNumNodes rg))) with (s := 0)
    as [m Hm].
  - intros mc u Hu%elem_of_seqZ. unfold cost_node, getNodeAdjList.
    destruct (proj2 (Hdense u)) as [adj ->]; [lia |]. cbn. eauto.
  - fold (minimum_cost_of rg) in Hm. rewrite Hm. f_equal.
    by apply minimum_cost_of_total.
Qed.

Lemma entries_as_upto gr : entries gr = entries_upto (getNumNodes gr) gr.
Proof. done. Qed.

(** The cost of the flows, read off a residual graph without artificial
    nodes. *)
Lemma cost_agreement rg graph og :
  dense graph → unique_edges graph → closed graph →
  dense rg → unique_edges rg → closed rg →
  getNumNodes rg = getNumNodes graph → getStartingNumNodes rg = getNumNodes graph →
  mirrors rg graph →
  (∀ a b, capacity_of og a b = shown_flow rg a b) →
  negative_cost_total (edges_of rg) = flow_cost graph og.
Proof.
  intros Hdense Hu Hclosed Hdrg Hurg Hcrg Hsize Hstart Hmirror Hflows.
  set (n := getNumNodes graph) in *.
  assert (∀ gr s e, dense gr → closed gr → (s, e) ∈ entries gr →
                    0 <= getSink e < getNumNodes gr) as Hsinks.
  { intros gr s e Hd Hc [_ Hin]%elem_of_entries. apply Hd.
    unfold adj_of in Hin. destruct (g gr !! s) as [l |] eqn:Hl; cbn in Hin;
      [by eapply Hc | by apply not_elem_of_nil in Hin]. }
  (* the reported cost, pair by pair *)
  rewrite negative_cost_total_sum. unfold edges_of.
  rewrite <- list_fmap_compose.
  change (negative_cost ∘ snd) with (λ p : Z * Edge, (λ _ : Z, negative_cost) p.1 p.2).
  rewrite (entries_as_upto rg), Hsize.
  rewrite (entries_sum (λ _, negative_cost) n rg); [| done |]; cycle 1.
  { intros s e Hin. rewrite <- Hsize. apply (Hsinks rg s e); [done.. |].
    by rewrite entries_as_upto, Hsize. }
  (* the cost of the flows, pair by pair *)
  unfold flow_cost.
  change (λ p : Z * Edge, capacity_of og p.1 (getSink p.2) * getWeight p.2)
    with (λ p : Z * Edge,
            (λ s e, capacity_of og s (getSink e) * getWeight e) p.1 p.2).
  rewrite (entries_as_upto graph). fold n.
  rewrite (entries_sum (λ s e, capacity_of og s (getSink e) * getWeight e) n graph);
    [| done | intros s e Hin; by apply (Hsinks graph s e)].
  rewrite grid_sum_swap. apply grid_sum_ext. intros a b Ha Hb.
  destruct (edge_at rg b a) as [r |] eqn:Hr; cbn.
  - unfold negative_cost. case_decide as Hw.
    + destruct (edge_at_entry rg b a r Hdrg Hr) as [Hin Hsink].
      pose proof (proj1 (Forall_forall _ _) Hmirror (b, r) Hin Hw) as Hm.
      unfold mirror_of in Hm. cbn in Hm. rewrite Hsink in Hm.
      destruct (edge_at graph a b) as [e |] eqn:He; [| done]. cbn.
      rewrite (edge_at_sink _ _ _ _ He), Hflows.
      unfold shown_flow, flow_edge. rewrite Hr. cbn.
      rewrite decide_True by (split; [done | rewrite Hstart; lia]). cbn. lia.
    + destruct (edge_at graph a b) as [e |] eqn:He; [| done]. cbn.
      rewrite (edge_at_sink _ _ _ _ He), Hflows.
      unfold shown_flow, flow_edge. rewrite Hr. cbn.
      rewrite decide_False by (intros [? _]; done). cbn. lia.
  - destruct (edge_at graph a b) as [e |] eqn:He; [| done]. cbn.
    rewrite (edge_at_sink _ _ _ _ He), Hflows.
    unfold shown_flow, flow_edge. rewrite Hr. cbn. lia.
Qed.

Variable EdmondsKarp : Graph → Z → Z → option (result FlowResult).
Variable BellmanFord : Graph → Z → option (result BellmanFordResult).

Lemma CycleCancelling_value fuel graph r :
  CycleCancelling EdmondsKarp BellmanFord fuel graph = Some (Ok r) →
  minimum_cost_of (getGraph r) = Ok (getValue r).
Proof.
  unfold CycleCancelling.
  destruct (EdmondsKarp graph 0 (getNumNodes graph - 1)) as [[ek |] |];
    cbn [call_bind]; [| done..].
  destruct (BellmanFord (getGraph ek) 0) as [[bf |] |]; cbn [call_bind]; [| done..].
  destruct (cancel_loop BellmanFord fuel 0 (getGraph ek) bf) as [[rg' |] |];
    cbn [call_bind]; [| done..].
  destruct (minimum_cost_of rg') as [m |] eqn:Hcost; cbn [call_bind]; [| done].
  by intros [= <-].
Qed.

(** X22: where the reported cost is right.  When the residual graph that
    [CycleCancelling] returns has no artificial node (it has the nodes of
    the input graph) and each of its negative-cost edges is the reverse
    of an edge of the input graph with the cost negated, then
    [GetOptimalGraph] returns the flows, and the minimum cost reported is
    the cost of these flows, the sum of flow * cost over the edges of the
    input graph, in [int] arithmetic. *)
Theorem CycleCancelling_cost_of_flows fuel graph r :
  CycleCancelling EdmondsKarp BellmanFord fuel graph = Some (Ok r) →
  dense graph → unique_edges graph → closed graph →
  dense (getGraph r) → unique_edges (getGraph r) → closed (getGraph r) →
  all_edges nonnegative_capacity (getGraph r) →
  getNumNodes (getGraph r) = getNumNodes graph →
  getStartingNumNodes (getGraph r) = getNumNodes graph →
  mirrors (getGraph r) graph →
  ∃ og, GetOptimalGraph (getGraph r) graph = Ok og ∧
        getValue r = Int.wrap (flow_cost graph og).
Proof.
  intros Hrun Hdense Hu Hclosed Hdrg Hurg Hcrg Hcap Hsize Hstart Hmirror.
  set (rg := getGraph r) in *.
  destruct (GetOptimalGraph_reported rg graph) as (og & Hog & Hedges); try done.
  - apply Forall_forall. intros k Hk%elem_of_seqZ. apply Hdrg. lia.
  - apply Forall_forall. intros [s e] Hin _. cbn [fst snd].
    apply elem_of_entries_upto in Hin as [Hs Hin]. unfold adj_of in Hin.
    destruct (g rg !! s) as [l |] eqn:Hl; cbn in Hin; [| by apply not_elem_of_nil in Hin].
    split.
    + rewrite Hstart, <- Hsize. apply Hdrg. by eapply Hcrg.
    + by apply (Hcap s l e).
  - exists og. split; [done |].
    apply CycleCancelling_value in Hrun. fold rg in Hrun.
    rewrite minimum_cost_of_dense in Hrun by done. injection Hrun as <-.
    f_equal. apply cost_agreement; try done.
    intros a b. unfold capacity_of, shown_flow. rewrite Hedges. unfold reported.
    destruct (flow_edge rg a b) as [f |]; [done |]. by destruct (edge_at graph a b).
Qed.

End CostAgreement.

Section CostAgreementSample.

Import Graph GraphUtils.

Lemma CycleCancelling_cost_of_flows_witness :
  Collaborators.CycleCancelling 10 sample_network = Some (Ok sample_network_result) ∧
  ∃ og, GetOptimalGraph (getGraph sample_network_result) sample_network = Ok og ∧
        getValue sample_network_result = Int.wrap (flow_cost sample_network og).
Proof.
  assert (Collaborators.CycleCancelling 10 sample_network = Some (Ok sample_network_result))
    as Hrun by (vm_compute; reflexivity).
  split; [exact Hrun |].
  apply (CycleCancelling_cost_of_flows _ _ _ _ _ Hrun).
  - apply dense_check. by vm_compute.
  - apply unique_edges_check. by vm_compute.
  - apply closed_check. by vm_compute.
  - apply dense_check. by vm_compute.
  - apply unique_edges_check. by vm_compute.
  - apply closed_check. by vm_compute.
  - apply (all_edges_check nonnegative_capacity). by vm_compute.
  - by vm_compute.
  - by vm_compute.
  - apply (bool_decide_eq_true_1 _). by vm_compute.
Defined.

End CostAgreementSample.
